(** * cuSPARSE backend of the oneMKL sparse interface: handle cache and scoped context

    Shallow embedding of
      - [cusparse_helper.hpp]        (overflow check, error classes, error macros),
      - [cusparse_handle.hpp]        (the thread-local handle cache and its destructor),
      - [cusparse_scope_handle.cpp]  (scoped context handler, context callback, get_handle),
      - [cusparse_task.hpp]          (the host-task factory).

    Pointers ([CUcontext], [CUstream], [cusparseHandle_t], addresses of
    [std::atomic<cusparseHandle_t>] objects) are natural numbers of type [N];
    [nullptr] is [0].  64-bit indices are integers of type [Z] with the
    two's-complement wrap-around written out. *)

From Stdlib Require Import ZArith String Lia.
From stdpp Require Import gmap list.

Local Open Scope N_scope.

Abbreviation nullptr := 0%N (only parsing).

(** ** 64-bit signed integers *)

Module Int64.

Definition min_signed : Z := (- 2 ^ 63)%Z.
Definition max_signed : Z := (2 ^ 63 - 1)%Z.

Definition in_range (z : Z) : Prop := (min_signed <= z <= max_signed)%Z.

(** Reduction of a mathematical integer to its [int64_t] representative. *)
Definition wrap (z : Z) : Z := ((z + 2 ^ 63) mod 2 ^ 64 - 2 ^ 63)%Z.

(** [std::abs] on [std::int64_t]: the negation is a 64-bit negation. *)
Definition abs (x : Z) : Z := if (x <? 0)%Z then wrap (- x) else x.

End Int64.

(** ** Vendor status codes and the exceptions of [cusparse_helper.hpp] *)

Inductive cusparseStatus_t :=
  | CUSPARSE_STATUS_SUCCESS
  | CUSPARSE_STATUS_NOT_INITIALIZED
  | CUSPARSE_STATUS_ALLOC_FAILED
  | CUSPARSE_STATUS_INVALID_VALUE
  | CUSPARSE_STATUS_ARCH_MISMATCH
  | CUSPARSE_STATUS_MAPPING_ERROR
  | CUSPARSE_STATUS_EXECUTION_FAILED
  | CUSPARSE_STATUS_INTERNAL_ERROR
  | CUSPARSE_STATUS_MATRIX_TYPE_NOT_SUPPORTED
  | CUSPARSE_STATUS_ZERO_PIVOT
  | CUSPARSE_STATUS_NOT_SUPPORTED
  | CUSPARSE_STATUS_INSUFFICIENT_RESOURCES.

Inductive CUresult :=
  | CUDA_SUCCESS
  | CUDA_ERROR_INVALID_VALUE
  | CUDA_ERROR_OUT_OF_MEMORY
  | CUDA_ERROR_NOT_INITIALIZED
  | CUDA_ERROR_INVALID_DEVICE
  | CUDA_ERROR_INVALID_CONTEXT
  | CUDA_ERROR_LAUNCH_OUT_OF_RESOURCES
  | CUDA_ERROR_NOT_PERMITTED
  | CUDA_ERROR_UNKNOWN.

Definition cusparse_error_map (error : cusparseStatus_t) : string :=
  match error with
  | CUSPARSE_STATUS_SUCCESS => "CUSPARSE_STATUS_SUCCESS"
  | CUSPARSE_STATUS_NOT_INITIALIZED => "CUSPARSE_STATUS_NOT_INITIALIZED"
  | CUSPARSE_STATUS_ALLOC_FAILED => "CUSPARSE_STATUS_ALLOC_FAILED"
  | CUSPARSE_STATUS_INVALID_VALUE => "CUSPARSE_STATUS_INVALID_VALUE"
  | CUSPARSE_STATUS_ARCH_MISMATCH => "CUSPARSE_STATUS_ARCH_MISMATCH"
  | CUSPARSE_STATUS_EXECUTION_FAILED => "CUSPARSE_STATUS_EXECUTION_FAILED"
  | CUSPARSE_STATUS_INTERNAL_ERROR => "CUSPARSE_STATUS_INTERNAL_ERROR"
  | CUSPARSE_STATUS_NOT_SUPPORTED => "CUSPARSE_STATUS_NOT_SUPPORTED"
  | CUSPARSE_STATUS_MATRIX_TYPE_NOT_SUPPORTED => "CUSPARSE_STATUS_MATRIX_TYPE_NOT_SUPPORTED"
  | CUSPARSE_STATUS_INSUFFICIENT_RESOURCES => "CUSPARSE_STATUS_INSUFFICIENT_RESOURCES"
  | _ => "<unknown>"
  end.

Definition cuda_error_map (result : CUresult) : string :=
  match result with
  | CUDA_SUCCESS => "CUDA_SUCCESS"
  | CUDA_ERROR_NOT_PERMITTED => "CUDA_ERROR_NOT_PERMITTED"
  | CUDA_ERROR_INVALID_CONTEXT => "CUDA_ERROR_INVALID_CONTEXT"
  | CUDA_ERROR_INVALID_DEVICE => "CUDA_ERROR_INVALID_DEVICE"
  | CUDA_ERROR_INVALID_VALUE => "CUDA_ERROR_INVALID_VALUE"
  | CUDA_ERROR_OUT_OF_MEMORY => "CUDA_ERROR_OUT_OF_MEMORY"
  | CUDA_ERROR_LAUNCH_OUT_OF_RESOURCES => "CUDA_ERROR_LAUNCH_OUT_OF_RESOURCES"
  | _ => "<unknown>"
  end.

(** The three exception classes thrown by the backend, each with its
    [what()] string; the two vendor errors also carry [error_number]. *)
Inductive exception :=
  | runtime_error (what : string)
  | cusparse_error_exn (what : string) (error_number : cusparseStatus_t)
  | cuda_error_exn (what : string) (error_number : CUresult).

Definition cusparse_error (message : string) (result : cusparseStatus_t) : exception :=
  cusparse_error_exn (message ++ cusparse_error_map result) result.

Definition cuda_error (message : string) (result : CUresult) : exception :=
  cuda_error_exn (message ++ cuda_error_map result) result.

Definition overflow_message : string :=
  "Cusparse index overflow. cusparse does not support 64 bit integer as data size. Thus, the data size should not be greater that maximum supported size by 32 bit integer.".

(** ** The vendor entry points the backend calls *)

Inductive call :=
  | cuCtxGetCurrent
  | cuCtxSetCurrent (ctx : N)
  | cuStreamSynchronize (stream : N)
  | cusparseCreate
  | cusparseDestroy (handle : N)
  | cusparseSetStream (handle stream : N)
  | cusparseGetStream (handle : N).

Global Instance call_eq_dec : EqDecision call.
Proof. solve_decision. Defined.

Definition call_name (c : call) : string :=
  match c with
  | cuCtxGetCurrent => "cuCtxGetCurrent"
  | cuCtxSetCurrent _ => "cuCtxSetCurrent"
  | cuStreamSynchronize _ => "cuStreamSynchronize"
  | cusparseCreate => "cusparseCreate"
  | cusparseDestroy _ => "cusparseDestroy"
  | cusparseSetStream _ _ => "cusparseSetStream"
  | cusparseGetStream _ => "cusparseGetStream"
  end.

(** ** Program state

    [current_context] is the CUDA context bound to the calling thread,
    [handles] the live cuSPARSE handles with the stream each is bound to,
    [atomics] the allocated [std::atomic<cusparseHandle_t>] objects with
    their value, [cusparse_handle_mapper_] the map of the thread-local
    [handle_helper], [deleters] the registrations made through
    [contextSetExtendedDeleter], and [trace] the vendor calls issued so
    far, oldest first. *)
Record world := World {
  current_context : N;
  handles : gmap N N;
  atomics : gmap N N;
  cusparse_handle_mapper_ : gmap N N;
  deleters : list (N * N);
  trace : list call
}.

Definition set_current_context (c : N) (w : world) : world :=
  World c (handles w) (atomics w) (cusparse_handle_mapper_ w) (deleters w) (trace w).
Definition set_handles (hs : gmap N N) (w : world) : world :=
  World (current_context w) hs (atomics w) (cusparse_handle_mapper_ w) (deleters w) (trace w).
Definition set_atomics (a : gmap N N) (w : world) : world :=
  World (current_context w) (handles w) a (cusparse_handle_mapper_ w) (deleters w) (trace w).
Definition set_mapper (m : gmap N N) (w : world) : world :=
  World (current_context w) (handles w) (atomics w) m (deleters w) (trace w).
Definition add_deleter (d : N * N) (w : world) : world :=
  World (current_context w) (handles w) (atomics w) (cusparse_handle_mapper_ w)
        (d :: deleters w) (trace w).
Definition record_call (c : call) (w : world) : world :=
  World (current_context w) (handles w) (atomics w) (cusparse_handle_mapper_ w)
        (deleters w) (trace w ++ [c]).

(** ** Computations: state, C++ exceptions, and leaving defined behaviour

    [Fault] stands for an execution that has left the behaviour C++ defines
    (use of a freed atomic, use of a destroyed handle) or that ended in
    [std::terminate]; it keeps the state reached. *)
Inductive outcome (A : Type) :=
  | Ok (a : A) (w : world)
  | Throw (e : exception) (w : world)
  | Fault (w : world).
Arguments Ok {A} a w.
Arguments Throw {A} e w.
Arguments Fault {A} w.

Definition world_of {A} (o : outcome A) : world :=
  match o with Ok _ w | Throw _ w | Fault w => w end.

Definition M (A : Type) : Type := world -> outcome A.

Definition ret {A} (a : A) : M A := fun w => Ok a w.
Definition throw {A} (e : exception) : M A := fun w => Throw e w.
Definition bind {A B} (m : M A) (k : A -> M B) : M B :=
  fun w => match m w with
           | Ok a w' => k a w'
           | Throw e w' => Throw e w'
           | Fault w' => Fault w'
           end.
Definition gets {A} (f : world -> A) : M A := fun w => Ok (f w) w.
Definition modify (f : world -> world) : M unit := fun w => Ok tt (f w).

Declare Scope m_scope.
Delimit Scope m_scope with M.
Notation "x <- m ; k" := (bind m (fun x => k))
  (at level 20, m at level 100, k at level 200, only parsing) : m_scope.
Notation "m >> k" := (bind m (fun _ => k))
  (at level 100, k at level 200, only parsing, right associativity) : m_scope.
Local Open Scope m_scope.

(** A scope owning an object with a destructor: [cleanup] runs when [body]
    returns and also when it throws; a destructor that throws while the
    stack is being unwound ends the program. *)
Definition scoped {A} (body : M A) (cleanup : M unit) : M A :=
  fun w => match body w with
           | Ok a w1 => (cleanup >> ret a) w1
           | Throw e w1 =>
               match cleanup w1 with
               | Ok _ w2 => Throw e w2
               | Throw _ w2 | Fault w2 => Fault w2
               end
           | Fault w1 => Fault w1
           end.

(** ** The overflow check of [cusparse_helper.hpp]

    [Overflow<Index, T...>::check] recurses over its parameter pack; the
    pack is a list here.  [1LL << 31] is [Z.shiftl 1 31]. *)
Fixpoint Overflow_check (indices : list Z) : M unit :=
  match indices with
  | [] => ret tt
  | index :: next =>
      if (Z.shiftl 1 31 <=? Int64.abs index)%Z
      then throw (runtime_error overflow_message)
      else Overflow_check next
  end.

Definition overflow_check (index : Z) (indices : list Z) : M unit :=
  Overflow_check (index :: indices).

(** ** The CUDA driver and the cuSPARSE library

    The vendor libraries are outside the repository.  What the backend
    relies on is modelled here: the driver keeps one current context per
    thread, a handle is live from a successful [cusparseCreate] to a
    successful [cusparseDestroy] and carries the stream it is bound to.
    Which status a call returns is left to [vendor], which may depend on the
    whole state reached, so that every pattern of failures is covered. *)
Record vendor := {
  cuda_result : world -> call -> CUresult;
  cusparse_result : world -> call -> cusparseStatus_t
}.

(** A call that is given a handle needs that handle to be live. *)
Definition applies (c : call) (w : world) : bool :=
  match c with
  | cusparseDestroy handle | cusparseSetStream handle _ | cusparseGetStream handle =>
      bool_decide (is_Some (handles w !! handle))
  | _ => true
  end.

(** State after a successful call, and the value written to its out
    parameter ([nullptr] when it has none). *)
Definition effect (c : call) (w : world) : world * N :=
  match c with
  | cuCtxGetCurrent => (w, current_context w)
  | cuCtxSetCurrent ctx => (set_current_context ctx w, nullptr)
  | cuStreamSynchronize _ => (w, nullptr)
  | cusparseCreate =>
      let handle := fresh ({[nullptr]} ∪ dom (handles w)) in
      (set_handles (<[handle := nullptr]> (handles w)) w, handle)
  | cusparseDestroy handle => (set_handles (delete handle (handles w)) w, nullptr)
  | cusparseSetStream handle stream =>
      (set_handles (<[handle := stream]> (handles w)) w, nullptr)
  | cusparseGetStream handle => (w, default nullptr (handles w !! handle))
  end.

Section Backend.

Variable V : vendor.

Definition cuda (c : call) : M (CUresult * N) :=
  fun w =>
    let w1 := record_call c w in
    if applies c w then
      match cuda_result V w c with
      | CUDA_SUCCESS => let '(w2, out) := effect c w1 in Ok (CUDA_SUCCESS, out) w2
      | err => Ok (err, nullptr) w1
      end
    else Fault w1.

Definition cusparse (c : call) : M (cusparseStatus_t * N) :=
  fun w =>
    let w1 := record_call c w in
    if applies c w then
      match cusparse_result V w c with
      | CUSPARSE_STATUS_SUCCESS =>
          let '(w2, out) := effect c w1 in Ok (CUSPARSE_STATUS_SUCCESS, out) w2
      | err => Ok (err, nullptr) w1
      end
    else Fault w1.

(** The macros [CUDA_ERROR_FUNC] and [CUSPARSE_ERROR_FUNC]: issue the call,
    throw the matching error class unless it succeeded. *)
Definition CUDA_ERROR_FUNC (name : call) : M N :=
  r <- cuda name;
  match r.1 with
  | CUDA_SUCCESS => ret r.2
  | err => throw (cuda_error (call_name name ++ " : ") err)
  end.

Definition CUSPARSE_ERROR_FUNC (name : call) : M N :=
  r <- cusparse name;
  match r.1 with
  | CUSPARSE_STATUS_SUCCESS => ret r.2
  | err => throw (cusparse_error (call_name name ++ " : ") err)
  end.

(** ** [std::atomic<cusparseHandle_t>] objects on the heap *)

Definition atomic_new (desired : N) : M N :=
  fun w =>
    let ptr := fresh ({[nullptr]} ∪ dom (atomics w)) in
    Ok ptr (set_atomics (<[ptr := desired]> (atomics w)) w).

Definition atomic_load (ptr : N) : M N :=
  fun w => match atomics w !! ptr with
           | Some v => Ok v w
           | None => Fault w
           end.

Definition atomic_exchange (ptr desired : N) : M N :=
  fun w => match atomics w !! ptr with
           | Some v => Ok v (set_atomics (<[ptr := desired]> (atomics w)) w)
           | None => Fault w
           end.

Definition atomic_delete (ptr : N) : M unit :=
  fun w => if decide (ptr = nullptr) then Ok tt w
           else match atomics w !! ptr with
                | Some _ => Ok tt (set_atomics (delete ptr (atomics w)) w)
                | None => Fault w
                end.

(** ** SYCL objects, as far as the backend looks into them *)

Record sycl_context := { get_native_context : N }.
Record sycl_queue := { queue_get_context : sycl_context; get_native_queue : N }.

Definition get_stream (queue : sycl_queue) : N := get_native_queue queue.
Definition get_context (queue : sycl_queue) : sycl_context := queue_get_context queue.

(** ** [cusparse_handle<pi_context>]: the thread-local cache *)

(** [unordered_map::insert]: no effect when the key is present; the result
    is the mapped value of the element under the key afterwards. *)
Definition mapper_insert (key ptr : N) : M N :=
  fun w => match cusparse_handle_mapper_ w !! key with
           | Some present => Ok present w
           | None => Ok ptr (set_mapper (<[key := ptr]> (cusparse_handle_mapper_ w)) w)
           end.

Definition mapper_erase (key : N) : M unit :=
  modify (fun w => set_mapper (delete key (cusparse_handle_mapper_ w)) w).

(** [handle_pair.second = nullptr] on the element under [key]. *)
Definition mapper_reset (key : N) : M unit :=
  modify (fun w => set_mapper (<[key := nullptr]> (cusparse_handle_mapper_ w)) w).

Definition mapper_clear : world -> world := set_mapper ∅.

(** What the destructor does with the handle it took out of an atomic.
    [ContextCallback] does the same with the one it took. *)
Definition destroy_or_delete (ptr handle : N) : M unit :=
  if decide (handle ≠ nullptr)
  then _ <- CUSPARSE_ERROR_FUNC (cusparseDestroy handle); ret tt
  else atomic_delete ptr.

(** Body of the range-for loop of [~cusparse_handle] on one element. *)
Definition cusparse_handle_dtor_entry (handle_pair : N * N) : M unit :=
  if decide (handle_pair.2 ≠ nullptr) then
    handle <- atomic_exchange handle_pair.2 nullptr;
    destroy_or_delete handle_pair.2 handle >>
    mapper_reset handle_pair.1
  else ret tt.

Fixpoint cusparse_handle_dtor_loop (elements : list (N * N)) : M unit :=
  match elements with
  | [] => ret tt
  | handle_pair :: rest =>
      cusparse_handle_dtor_entry handle_pair >> cusparse_handle_dtor_loop rest
  end.

(** The range-for of the destructor visits the elements of the
    [std::unordered_map] in the order of its buckets, which follows from the
    hash function and from the history of the table; the language leaves it
    open.  [elements] stands for the order of one run: any arrangement of
    the elements of the map. *)
Definition visits (elements : list (N * N)) (w : world) : Prop :=
  elements ≡ₚ map_to_list (cusparse_handle_mapper_ w).

(** [~cusparse_handle() noexcept(false)], visiting [elements].  The map is
    a member: it is emptied by [clear()] on the normal path and destroyed
    with the object when the body throws. *)
Definition cusparse_handle_dtor (elements : list (N * N)) : M unit :=
  fun w =>
    match cusparse_handle_dtor_loop elements w with
    | Ok _ w' => Ok tt (mapper_clear w')
    | Throw e w' => Throw e (mapper_clear w')
    | Fault w' => Fault w'
    end.

(** ** [CusparseScopedContextHandler] *)

Record CusparseScopedContextHandler := {
  original_ : N;
  placedContext_ : sycl_context;
  needToRecover_ : bool
}.

(** The constructor.  The interop handle the host task passes along is not
    looked at. *)
Definition CusparseScopedContextHandler_ctor (queue : sycl_queue)
  : M CusparseScopedContextHandler :=
  let placed := get_context queue in
  let desired := get_native_context placed in
  original <- CUDA_ERROR_FUNC cuCtxGetCurrent;
  if decide (original ≠ desired) then
    _ <- CUDA_ERROR_FUNC (cuCtxSetCurrent desired);
    ret {| original_ := original; placedContext_ := placed;
           needToRecover_ := negb (bool_decide (original = nullptr)) |}
  else
    ret {| original_ := original; placedContext_ := placed; needToRecover_ := false |}.

Definition CusparseScopedContextHandler_dtor (self : CusparseScopedContextHandler)
  : M unit :=
  if needToRecover_ self
  then _ <- CUDA_ERROR_FUNC (cuCtxSetCurrent (original_ self)); ret tt
  else ret tt.

Definition ContextCallback (userData : N) : M unit :=
  let ptr := userData in
  if decide (ptr = nullptr) then ret tt
  else
    handle <- atomic_exchange ptr nullptr;
    destroy_or_delete ptr handle.

Definition contextSetExtendedDeleter (ctx : sycl_context) (userData : N) : M unit :=
  modify (add_deleter (get_native_context ctx, userData)).

(** First half of [get_handle]: the lookup.  [Some handle] is the early
    [return handle]; [None] falls through to the creation below. *)
Definition get_handle_lookup (piPlacedContext_ streamId : N) : M (option N) :=
  it <- gets (fun w => cusparse_handle_mapper_ w !! piPlacedContext_);
  match it with
  | Some second =>
      if decide (second = nullptr) then
        mapper_erase piPlacedContext_ >> ret None
      else
        handle <- atomic_load second;
        if decide (handle ≠ nullptr) then
          currentStreamId <- CUSPARSE_ERROR_FUNC (cusparseGetStream handle);
          (if decide (currentStreamId ≠ streamId)
           then _ <- CUSPARSE_ERROR_FUNC (cusparseSetStream handle streamId); ret tt
           else ret tt) >>
          ret (Some handle)
        else
          mapper_erase piPlacedContext_ >> ret None
  | None => ret None
  end.

(** Second half of [get_handle]: a new handle, its atomic, the map element
    and the deleter registration. *)
Definition get_handle_create (self : CusparseScopedContextHandler)
    (piPlacedContext_ streamId : N) : M N :=
  handle <- CUSPARSE_ERROR_FUNC cusparseCreate;
  _ <- CUSPARSE_ERROR_FUNC (cusparseSetStream handle streamId);
  fresh_atomic <- atomic_new handle;
  second <- mapper_insert piPlacedContext_ fresh_atomic;
  contextSetExtendedDeleter (placedContext_ self) second >>
  ret handle.

Definition get_handle (self : CusparseScopedContextHandler) (queue : sycl_queue) : M N :=
  let piPlacedContext_ := get_native_context (placedContext_ self) in
  let streamId := get_stream queue in
  found <- get_handle_lookup piPlacedContext_ streamId;
  match found with
  | Some handle => ret handle
  | None => get_handle_create self piPlacedContext_ streamId
  end.

(** Modelled from the spec: [wait_stream] is declared in
    [cusparse_scope_handle.hpp], which is not among the sources.  It blocks
    until the work submitted to the queue's stream has completed and fails
    with a stream-synchronisation error. *)
Definition wait_stream (self : CusparseScopedContextHandler) (queue : sycl_queue)
  : M unit :=
  _ <- CUDA_ERROR_FUNC (cuStreamSynchronize (get_stream queue)); ret tt.

(** ** The host-task factory of [cusparse_task.hpp]

    [host_task_internal] hands a lambda to the command group handler; what
    is modelled is the run of that lambda on the host thread the runtime
    picks.  [sc] lives until the end of the lambda's block. *)
Definition host_task_internal (queue : sycl_queue)
    (f : CusparseScopedContextHandler -> M unit) : M unit :=
  sc <- CusparseScopedContextHandler_ctor queue;
  scoped (f sc >> wait_stream sc queue) (CusparseScopedContextHandler_dtor sc).

Definition onemkl_cusparse_host_task (queue : sycl_queue)
    (f : CusparseScopedContextHandler -> M unit) : M unit :=
  host_task_internal queue f.

End Backend.


(** ** Sequences of requests on one thread *)

(** One thread obtaining handles, request after request, with nothing else
    happening to its cache in between. *)
Fixpoint get_handles (V : vendor)
    (requests : list (CusparseScopedContextHandler * sycl_queue)) : M (list N) :=
  match requests with
  | [] => ret []
  | request :: rest =>
      handle <- get_handle V request.1 request.2;
      others <- get_handles V rest;
      ret (handle :: others)
  end.

(** The cache holds [handle] under [key]: the element is there, its atomic
    is allocated and has not been emptied. *)
Definition cached (key handle : N) (w : world) : Prop :=
  exists ptr,
    cusparse_handle_mapper_ w !! key = Some ptr /\ ptr ≠ nullptr /\
    atomics w !! ptr = Some handle /\ handle ≠ nullptr.

(** Number of times the call [c] occurs in a trace. *)
Definition count_calls (c : call) (t : list call) : nat :=
  length (filter (fun x => x = c) t).

(** ** Concrete vendors, queues and states used in examples *)

Definition vendor_ok : vendor :=
  {| cuda_result := fun _ _ => CUDA_SUCCESS;
     cusparse_result := fun _ _ => CUSPARSE_STATUS_SUCCESS |}.

(** Every [cusparseDestroy] fails; every other call succeeds. *)
Definition vendor_destroy_fails : vendor :=
  {| cuda_result := fun _ _ => CUDA_SUCCESS;
     cusparse_result := fun _ c =>
       match c with
       | cusparseDestroy _ => CUSPARSE_STATUS_INTERNAL_ERROR
       | _ => CUSPARSE_STATUS_SUCCESS
       end |}.

Definition empty_world : world := World nullptr ∅ ∅ ∅ [] [].

Definition context_a : sycl_context := {| get_native_context := 7 |}.
Definition context_b : sycl_context := {| get_native_context := 9 |}.
Definition queue_a : sycl_queue := {| queue_get_context := context_a; get_native_queue := 3 |}.
Definition queue_a' : sycl_queue := {| queue_get_context := context_a; get_native_queue := 4 |}.
Definition queue_b : sycl_queue := {| queue_get_context := context_b; get_native_queue := 5 |}.

Definition handler_a : CusparseScopedContextHandler :=
  {| original_ := nullptr; placedContext_ := context_a; needToRecover_ := false |}.
Definition handler_b : CusparseScopedContextHandler :=
  {| original_ := 7; placedContext_ := context_b; needToRecover_ := true |}.

(** A thread whose current context is some other context, [5]. *)
Definition busy_world : world := World 5 ∅ ∅ ∅ [] [].

(** A handler built on [busy_world], the states around it and around a
    request made through it. *)
Definition scoped_sc : CusparseScopedContextHandler :=
  {| original_ := 5; placedContext_ := context_a; needToRecover_ := true |}.
Definition scoped_w1 : world :=
  world_of (CusparseScopedContextHandler_ctor vendor_ok queue_a busy_world).
Definition scoped_w2 : world := world_of (get_handle vendor_ok scoped_sc queue_a scoped_w1).
Definition scoped_w3 : world :=
  world_of (CusparseScopedContextHandler_dtor vendor_ok scoped_sc scoped_w2).

(** A thread that asked for a handle under [context_a], then under
    [context_b], then under [context_a] again with another stream. *)
Definition example_w1 : world := world_of (get_handle vendor_ok handler_a queue_a empty_world).
Definition example_w2 : world :=
  world_of (get_handles vendor_ok [(handler_b, queue_b)] example_w1).
Definition example_w3 : world := world_of (get_handle vendor_ok handler_a queue_a' example_w2).

(** ** The statements of the specification that are compared with the code *)

(** The teardown reclaims every element: each handle held by an atomic of
    the map has [cusparseDestroy] attempted on it by the end of the
    destructor, whatever the outcome.  [elements] is the order in which the
    destructor visits the map. *)
Definition drain_reclaims_all (V : vendor) (elements : list (N * N)) (w : world) : Prop :=
  forall key ptr handle,
    cusparse_handle_mapper_ w !! key = Some ptr ->
    atomics w !! ptr = Some handle -> handle ≠ nullptr ->
    cusparseDestroy handle ∈ trace (world_of (cusparse_handle_dtor V elements w)).

(** The factory as the specification words it: it builds the scoped
    handler, obtains a handle, calls [fn] on the handler and the handle,
    synchronises the stream and destroys the handler. *)
Definition with_handle (V : vendor) (queue : sycl_queue)
    (fn : CusparseScopedContextHandler -> N -> M unit) : M unit :=
  sc <- CusparseScopedContextHandler_ctor V queue;
  scoped (handle <- get_handle V sc queue;
          fn sc handle >> wait_stream V sc queue)
         (CusparseScopedContextHandler_dtor V sc).

(** ** The life of one thread's cache

    The cache of a thread starts empty.  While the thread lives it asks
    for handles through [get_handle]; when it exits, the destructor of the
    cache runs on it.  [ContextCallback] is run by the runtime, for each
    atomic it was registered with, at a time of the runtime's choosing: in
    the middle of the thread's life, during the destructor or after it.
    The destructor and the callbacks are cut here at their accesses to
    shared state: an [exchange] on an atomic is one step, and what follows
    it up to and including the vendor call or the [delete] is the next.
    [std::atomic::exchange] is sequentially consistent, so a run is an
    interleaving of such steps.  A request is one step: it runs on the
    thread that owns the map, it writes to no atomic but the one it
    allocates, and the copy of the queue's context that its handler holds
    keeps the runtime from releasing that context while it runs. *)

(** Where the thread is with its cache: alive, or in the destructor at the
    head of the loop with the elements still to visit, or between the
    exchange and the rest of the body for the element it is on, or after
    [clear()], or thrown out of the destructor by an exception. *)
Inductive drain_pc :=
  | DAlive
  | DLoop (rest : list (N * N))
  | DClaimed (handle_pair : N * N) (handle : N) (rest : list (N * N))
  | DDone
  | DThrown (e : exception) (rest : list (N * N)).

(** Where one invocation of [ContextCallback] is. *)
Inductive callback_pc :=
  | CEntry
  | CClaimed (handle : N)
  | CDone
  | CThrown (e : exception).

(** [range] is the order in which the destructor visits the map, known
    from the exit of the thread on.  [destroyed] is the history of the
    destroy calls: which party took which handle out of which atomic and
    passed it to [cusparseDestroy], oldest first. *)
Record machine := Machine {
  shared : world;
  range : list (N * N);
  drain : drain_pc;
  callbacks : gmap N callback_pc;
  destroyed : list (N * N)
}.

Inductive party :=
  | Request (sc : CusparseScopedContextHandler) (queue : sycl_queue)
  | Exit (elements : list (N * N))
  | Drain
  | Callback (userData : N).

(** The history after a party has run [destroy_or_delete ptr handle]: the
    call to [cusparseDestroy] is made when [handle] is not null. *)
Definition record_destroy (ptr handle : N) (history : list (N * N)) : list (N * N) :=
  if decide (handle ≠ nullptr) then history ++ [(ptr, handle)] else history.

(** A request of the living thread; [None] when it faults.  Whether it
    returns or throws the thread goes on.  The runtime will call
    [ContextCallback] once for each registration made. *)
Definition request_step (V : vendor) (sc : CusparseScopedContextHandler)
    (queue : sycl_queue) (m : machine) : option machine :=
  match drain m with
  | DAlive =>
      match get_handle V sc queue (shared m) with
      | Ok _ w | Throw _ w =>
          Some (Machine w (range m) DAlive
                  (callbacks m ∪ gset_to_gmap CEntry (list_to_set (deleters w).*2))
                  (destroyed m))
      | Fault _ => None
      end
  | _ => Some m
  end.

(** The thread exits: the destructor is about to go through the map in
    the order [elements].  Nothing happens when the thread has exited
    before, or when [elements] is not an arrangement of the map. *)
Definition exit_step (elements : list (N * N)) (m : machine) : option machine :=
  match drain m with
  | DAlive =>
      if decide (elements ≡ₚ map_to_list (cusparse_handle_mapper_ (shared m)))
      then Some (Machine (shared m) elements (DLoop elements) (callbacks m) (destroyed m))
      else Some m
  | _ => Some m
  end.

(** One step of the destructor; [None] when it faults. *)
Definition drain_step (V : vendor) (m : machine) : option machine :=
  match drain m with
  | DLoop [] =>
      Some (Machine (mapper_clear (shared m)) (range m) DDone (callbacks m) (destroyed m))
  | DLoop (handle_pair :: rest) =>
      if decide (handle_pair.2 ≠ nullptr) then
        match atomic_exchange handle_pair.2 nullptr (shared m) with
        | Ok handle w =>
            Some (Machine w (range m) (DClaimed handle_pair handle rest) (callbacks m)
                    (destroyed m))
        | _ => None
        end
      else Some (Machine (shared m) (range m) (DLoop rest) (callbacks m) (destroyed m))
  | DClaimed handle_pair handle rest =>
      match (destroy_or_delete V handle_pair.2 handle >> mapper_reset handle_pair.1)
              (shared m) with
      | Ok _ w =>
          Some (Machine w (range m) (DLoop rest) (callbacks m)
                  (record_destroy handle_pair.2 handle (destroyed m)))
      | Throw e w =>
          Some (Machine (mapper_clear w) (range m) (DThrown e rest) (callbacks m)
                  (record_destroy handle_pair.2 handle (destroyed m)))
      | Fault _ => None
      end
  | DAlive | DDone | DThrown _ _ => Some m
  end.

(** One step of the callback registered with [userData]. *)
Definition callback_step (V : vendor) (userData : N) (m : machine) : option machine :=
  let ptr := userData in
  match callbacks m !! ptr with
  | Some CEntry =>
      if decide (ptr = nullptr)
      then Some (Machine (shared m) (range m) (drain m) (<[ptr := CDone]> (callbacks m))
                   (destroyed m))
      else match atomic_exchange ptr nullptr (shared m) with
           | Ok handle w =>
               Some (Machine w (range m) (drain m) (<[ptr := CClaimed handle]> (callbacks m))
                       (destroyed m))
           | _ => None
           end
  | Some (CClaimed handle) =>
      match destroy_or_delete V ptr handle (shared m) with
      | Ok _ w =>
          Some (Machine w (range m) (drain m) (<[ptr := CDone]> (callbacks m))
                  (record_destroy ptr handle (destroyed m)))
      | Throw e w =>
          Some (Machine w (range m) (drain m) (<[ptr := CThrown e]> (callbacks m))
                  (record_destroy ptr handle (destroyed m)))
      | Fault _ => None
      end
  | Some CDone | Some (CThrown _) | None => Some m
  end.

Definition step (V : vendor) (who : party) (m : machine) : option machine :=
  match who with
  | Request sc queue => request_step V sc queue m
  | Exit elements => exit_step elements m
  | Drain => drain_step V m
  | Callback userData => callback_step V userData m
  end.

(** A run under a schedule: who moves first, who moves next, and so on. *)
Fixpoint run (V : vendor) (schedule : list party) (m : machine) : option machine :=
  match schedule with
  | [] => Some m
  | who :: later =>
      match step V who m with
      | Some m' => run V later m'
      | None => None
      end
  end.



(** The exit of a thread whose cache is in the state [w], with a callback
    pending for every atomic registered through
    [contextSetExtendedDeleter]: the destructor is about to go through the
    map in the order [elements]. *)
Definition start (elements : list (N * N)) (w : world) : machine :=
  Machine w elements (DLoop elements)
          (gset_to_gmap CEntry (list_to_set (deleters w).*2)) [].


(** The destructor has returned or has thrown. *)
Definition drain_stopped (m : machine) : Prop :=
  match drain m with
  | DDone | DThrown _ _ => True
  | _ => False
  end.




(** Number of [cusparseDestroy] calls made on the handle taken out of the
    atomic [ptr]. *)
Definition destroys (ptr : N) (m : machine) : nat :=
  length (filter (fun entry => entry.1 = ptr) (destroyed m)).

(** The [cusparseDestroy] calls of a trace. *)
Definition is_destroy (c : call) : bool :=
  match c with
  | cusparseDestroy _ => true
  | _ => false
  end.

Definition destroy_calls (t : list call) : list call := filter is_destroy t.

(** The atomics the destructor has still to visit. *)
Definition drain_todo (pc : drain_pc) : list N :=
  match pc with
  | DLoop rest | DClaimed _ _ rest | DThrown _ rest => rest.*2
  | DAlive | DDone => []
  end.


(** *** What the proof of the race keeps track of *)

(** How far a party is with one atomic: it has not touched it, it holds
    the value its exchange returned, or it is through with it. *)
Inductive view :=
  | Todo
  | Holds (v : N)
  | Finished.

(** The states of one atomic, created with the handle [handle], that fit
    the views [x] and [y] of the two parties: [a] is what the heap has at
    its address, [d] the number of [cusparseDestroy] calls made for it so
    far, [live] says that the handle is live. *)
Definition cell_ok (handle : N) (x y : view) (a : option N) (d : Z) (live : Prop) : Prop :=
  match x, y with
  | Todo, Todo => a = Some handle /\ d = 0%Z /\ live
  | Holds v, Todo | Todo, Holds v => v = handle /\ a = Some nullptr /\ d = 0%Z /\ live
  | Finished, Todo | Todo, Finished => a = Some nullptr /\ d = 1%Z
  | Holds v, Holds v' =>
      a = Some nullptr /\ d = 0%Z /\ live /\
      ((v = handle /\ v' = nullptr) \/ (v = nullptr /\ v' = handle))
  | Finished, Holds v | Holds v, Finished =>
      (v = nullptr /\ a = Some nullptr /\ d = 1%Z) \/
      (v = handle /\ a = None /\ d = 0%Z /\ live)
  | Finished, Finished => a = None /\ d = 1%Z
  end.

Definition callback_view (m : machine) (ptr : N) : view :=
  match callbacks m !! ptr with
  | Some (CClaimed v) => Holds v
  | Some CDone | Some (CThrown _) => Finished
  | Some CEntry | None => Todo
  end.

Definition drain_view (elements : list (N * N)) (pc : drain_pc) (ptr : N) : view :=
  match pc with
  | DAlive => Todo
  | DClaimed handle_pair v _ =>
      if decide (handle_pair.2 = ptr) then Holds v
      else if decide (ptr ∈ drain_todo pc) then Todo
      else if decide (ptr ∈ elements.*2) then Finished else Todo
  | _ =>
      if decide (ptr ∈ drain_todo pc) then Todo
      else if decide (ptr ∈ elements.*2) then Finished else Todo
  end.

(** The destructor visits each atomic of the map once. *)
Definition drain_wf (elements : list (N * N)) (pc : drain_pc) : Prop :=
  match pc with
  | DClaimed handle_pair _ rest =>
      NoDup (handle_pair.2 :: rest.*2) /\ handle_pair.2 :: rest.*2 ⊆ elements.*2
  | _ => NoDup (drain_todo pc) /\ drain_todo pc ⊆ elements.*2
  end.

(** A cache as [get_handle] builds it, before any callback or teardown:
    every atomic holds a live handle, no two hold the same, the map sends
    different keys to different atomics, and deleters are registered with
    atomics only. *)
Definition cache_fresh (w : world) : Prop :=
  (forall ptr handle, atomics w !! ptr = Some handle ->
     ptr ≠ nullptr /\ handle ≠ nullptr /\ is_Some (handles w !! handle)) /\
  (forall ptr ptr' handle,
     atomics w !! ptr = Some handle -> atomics w !! ptr' = Some handle -> ptr = ptr') /\
  (forall key ptr, cusparse_handle_mapper_ w !! key = Some ptr ->
     is_Some (atomics w !! ptr)) /\
  (forall key key' ptr,
     cusparse_handle_mapper_ w !! key = Some ptr ->
     cusparse_handle_mapper_ w !! key' = Some ptr -> key = key') /\
  (forall d, d ∈ deleters w -> is_Some (atomics w !! d.2)).

(** The invariant of a run.  [base] is the [cusparseDestroy] calls made
    before it began; [cells] has the atomics [get_handle] has allocated so
    far, each with the handle it was created with.  A handle may come back
    from [cusparseCreate] after it was destroyed, so that two atomics may
    have been created with the same handle: then one of them has had it
    destroyed. *)
Definition race_inv (base : list call) (cells : gmap N N) (m : machine) : Prop :=
  drain_wf (range m) (drain m) /\
  destroy_calls (trace (shared m)) = base ++ (cusparseDestroy <$> (destroyed m).*2) /\
  (forall ptr, ptr ∈ (range m).*2 -> is_Some (cells !! ptr)) /\
  (forall ptr, is_Some (callbacks m !! ptr) -> is_Some (cells !! ptr)) /\
  (forall d, d ∈ deleters (shared m) -> is_Some (callbacks m !! d.2)) /\
  (forall entry, entry ∈ destroyed m -> cells !! entry.1 = Some entry.2) /\
  (forall ptr ptr' handle,
     cells !! ptr = Some handle -> cells !! ptr' = Some handle -> ptr ≠ ptr' ->
     destroys ptr m ≠ 0%nat \/ destroys ptr' m ≠ 0%nat) /\
  (forall ptr, is_Some (atomics (shared m) !! ptr) -> is_Some (cells !! ptr)) /\
  (forall ptr handle, cells !! ptr = Some handle ->
     ptr ≠ nullptr /\ handle ≠ nullptr /\
     cell_ok handle (callback_view m ptr) (drain_view (range m) (drain m) ptr)
       (atomics (shared m) !! ptr) (Z.of_nat (destroys ptr m))
       (is_Some (handles (shared m) !! handle))) /\
  (drain m = DAlive ->
     (forall key ptr, cusparse_handle_mapper_ (shared m) !! key = Some ptr ->
        is_Some (cells !! ptr)) /\
     (forall key key' ptr,
        cusparse_handle_mapper_ (shared m) !! key = Some ptr ->
        cusparse_handle_mapper_ (shared m) !! key' = Some ptr -> key = key')).

(** What holds besides in a run that began with an empty cache: every
    atomic has a callback registered, and an atomic whose callback has not
    run is an element of the map, or was when the thread exited. *)
Definition lifelong (cells : gmap N N) (m : machine) : Prop :=
  (forall ptr, is_Some (cells !! ptr) -> is_Some (callbacks m !! ptr)) /\
  (forall ptr, callbacks m !! ptr = Some CEntry ->
     match drain m with
     | DAlive => exists key, cusparse_handle_mapper_ (shared m) !! key = Some ptr
     | _ => ptr ∈ (range m).*2
     end).

(** What a request does to the state [w], seen from the atomics: nothing,
    or it erases a stale element of the map, or it does so and allocates
    an atomic for a new handle.  It destroys no handle. *)
Definition stale (key : N) (w : world) : Prop :=
  forall ptr, cusparse_handle_mapper_ w !! key = Some ptr ->
              ptr = nullptr \/ atomics w !! ptr = Some nullptr.

Definition request_effect (key : N) (w w' : world) : Prop :=
  dom (handles w) ⊆ dom (handles w') /\
  destroy_calls (trace w') = destroy_calls (trace w) /\
  ((atomics w' = atomics w /\ deleters w' = deleters w /\
    (cusparse_handle_mapper_ w' = cusparse_handle_mapper_ w \/
     stale key w /\ cusparse_handle_mapper_ w' = delete key (cusparse_handle_mapper_ w))) \/
   (let ptr := fresh ({[nullptr]} ∪ dom (atomics w)) in
    let handle := fresh ({[nullptr]} ∪ dom (handles w)) in
    stale key w /\
    is_Some (handles w' !! handle) /\
    atomics w' = <[ptr := handle]> (atomics w) /\
    cusparse_handle_mapper_ w' = <[key := ptr]> (cusparse_handle_mapper_ w) /\
    exists ctx, deleters w' = (ctx, ptr) :: deleters w)).


(** A handle the teardown destroys was, when the teardown started, the
    non-null value of an atomic it visits. *)
Definition claimed_from (w : world) (ptrs : list N) (c : call) : Prop :=
  exists handle ptr,
    c = cusparseDestroy handle /\ handle ≠ nullptr /\
    ptr ∈ ptrs /\ atomics w !! ptr = Some handle.

(** The atomics of [w'] hold no handle that those of [w] did not hold. *)
Definition no_new_handle (w w' : world) : Prop :=
  forall ptr handle,
    atomics w' !! ptr = Some handle -> handle ≠ nullptr ->
    atomics w !! ptr = Some handle.



(** ** More of [cusparse_helper.hpp] *)

(** The trait [is_int64<Ts...>] over a universe [T] of C++ types in which
    [int64_t] is [std::int64_t].  The primary template takes the empty
    pack; the two partial specializations take the pack of one type and
    the packs of two and more. *)
Definition is_same {T : Type} `{EqDecision T} (a b : T) : bool := bool_decide (a = b).

Fixpoint is_int64 {T : Type} `{EqDecision T} (int64_t : T) (pack : list T) : bool :=
  match pack with
  | [] => false
  | First :: Next =>
      match Next with
      | [] => is_same int64_t First
      | _ => is_same int64_t First && is_int64 int64_t Next
      end
  end.

(** The macro [CUSPARSE_ERROR_FUNC_T_SYNC(name, func, err, handle, ...)]:
    [func] stands for the vendor entry point applied to the arguments
    after [handle].  The status of [cuStreamSynchronize] is not looked
    at. *)
Definition CUSPARSE_ERROR_FUNC_T_SYNC (V : vendor) (name : string)
    (func : N -> M cusparseStatus_t) (handle : N) : M unit :=
  err <- func handle;
  match err with
  | CUSPARSE_STATUS_SUCCESS =>
      currentStreamId <- CUSPARSE_ERROR_FUNC V (cusparseGetStream handle);
      _ <- cuda V (cuStreamSynchronize currentStreamId);
      ret tt
  | _ => throw (cusparse_error (name ++ " : ") err)
  end.

(** The macro [CUSPARSE_ERROR_FUNC_SYNC(name, err, handle, ...)] is the
    same with the function's own name as the name in the message. *)
Definition CUSPARSE_ERROR_FUNC_SYNC (V : vendor) (name : string)
    (func : N -> M cusparseStatus_t) (handle : N) : M unit :=
  CUSPARSE_ERROR_FUNC_T_SYNC V name func handle.

(** Every [cuStreamSynchronize] fails; every other call succeeds. *)
Definition vendor_sync_fails : vendor :=
  {| cuda_result := fun _ c =>
       match c with
       | cuStreamSynchronize _ => CUDA_ERROR_LAUNCH_OUT_OF_RESOURCES
       | _ => CUDA_SUCCESS
       end;
     cusparse_result := fun _ _ => CUSPARSE_STATUS_SUCCESS |}.

(** A vendor entry point that succeeds and leaves the state alone, and one
    that fails. *)
Definition entry_point_ok (handle : N) : M cusparseStatus_t :=
  ret CUSPARSE_STATUS_SUCCESS.
Definition entry_point_fails (handle : N) : M cusparseStatus_t :=
  ret CUSPARSE_STATUS_EXECUTION_FAILED.

(** Every [cusparseSetStream] fails; every other call succeeds. *)
Definition vendor_set_stream_fails : vendor :=
  {| cuda_result := fun _ _ => CUDA_SUCCESS;
     cusparse_result := fun _ c =>
       match c with
       | cusparseSetStream _ _ => CUSPARSE_STATUS_EXECUTION_FAILED
       | _ => CUSPARSE_STATUS_SUCCESS
       end |}.

(** The cache of [example_w1] after the callback of its one atomic has
    run: the element of the map is stale. *)
Definition stale_w : world := world_of (ContextCallback vendor_ok 1 example_w1).

(** The requests behind [example_w3]. *)
Definition example_requests : list (CusparseScopedContextHandler * sycl_queue) :=
  [(handler_a, queue_a); (handler_b, queue_b); (handler_a, queue_a')].
(** * Properties *)

(** ** 64-bit arithmetic *)

Lemma Int64_wrap_in_range z : Int64.in_range z -> Int64.wrap z = z.
Proof.
  unfold Int64.in_range, Int64.wrap, Int64.min_signed, Int64.max_signed. intros Hz.
  rewrite Z.mod_small; lia.
Qed.

Lemma Int64_abs_nonneg x : (0 <= x)%Z -> Int64.abs x = x.
Proof. unfold Int64.abs. intros Hx. destruct (Z.ltb_spec x 0); [lia | reflexivity]. Qed.

Lemma Int64_abs_neg x : (Int64.min_signed < x < 0)%Z -> Int64.abs x = (- x)%Z.
Proof.
  unfold Int64.abs, Int64.min_signed. intros Hx. destruct (Z.ltb_spec x 0); [| lia].
  apply Int64_wrap_in_range. unfold Int64.in_range, Int64.min_signed, Int64.max_signed. lia.
Qed.

Lemma Int64_abs_min_signed : Int64.abs Int64.min_signed = Int64.min_signed.
Proof. reflexivity. Qed.

(** ** Laws of the computation type *)

Lemma bind_ret_l {A B} (a : A) (k : A -> M B) w : bind (ret a) k w = k a w.
Proof. reflexivity. Qed.

Lemma bind_assoc {A B C} (m : M A) (k : A -> M B) (k' : B -> M C) w :
  bind (bind m k) k' w = bind m (fun a => bind (k a) k') w.
Proof. unfold bind. destruct (m w); reflexivity. Qed.

Lemma bind_ext {A B} (m : M A) (k k' : A -> M B) w :
  (forall a w', k a w' = k' a w') -> bind m k w = bind m k' w.
Proof. intros Hk. unfold bind. destruct (m w); [apply Hk | done | done]. Qed.

Lemma bind_Ok_inv {A B} (m : M A) (k : A -> M B) w b w' :
  bind m k w = Ok b w' -> exists a w1, m w = Ok a w1 /\ k a w1 = Ok b w'.
Proof. unfold bind. destruct (m w) as [a w1 | |]; try discriminate. eauto. Qed.

(** ** Reading the outcome of a checked vendor call *)

Lemma CUDA_ERROR_FUNC_Ok V c w out w' :
  CUDA_ERROR_FUNC V c w = Ok out w' ->
  applies c w = true /\ cuda_result V w c = CUDA_SUCCESS /\
  effect c (record_call c w) = (w', out).
Proof.
  unfold CUDA_ERROR_FUNC, bind, cuda.
  destruct (applies c w); [| discriminate].
  destruct (cuda_result V w c); simpl; try discriminate.
  destruct (effect c (record_call c w)) as [w2 o]. simpl.
  intros [= <- <-]. auto.
Qed.

Lemma CUSPARSE_ERROR_FUNC_Ok V c w out w' :
  CUSPARSE_ERROR_FUNC V c w = Ok out w' ->
  applies c w = true /\ cusparse_result V w c = CUSPARSE_STATUS_SUCCESS /\
  effect c (record_call c w) = (w', out).
Proof.
  unfold CUSPARSE_ERROR_FUNC, bind, cusparse.
  destruct (applies c w); [| discriminate].
  destruct (cusparse_result V w c); simpl; try discriminate.
  destruct (effect c (record_call c w)) as [w2 o]. simpl.
  intros [= <- <-]. auto.
Qed.

(** Whatever the outcome of a checked call, the state reached differs from
    the state before by that one call at the end of the trace. *)
Lemma cusparse_trace V c w :
  trace (world_of (cusparse V c w)) = trace w ++ [c].
Proof.
  unfold cusparse. destruct (applies c w); [| reflexivity].
  destruct (cusparse_result V w c); try reflexivity.
  destruct c; reflexivity.
Qed.

Lemma CUSPARSE_ERROR_FUNC_trace V c w :
  trace (world_of (CUSPARSE_ERROR_FUNC V c w)) = trace w ++ [c].
Proof.
  rewrite <- (cusparse_trace V c w). unfold CUSPARSE_ERROR_FUNC, bind.
  destruct (cusparse V c w) as [[err out] w1 | |]; try reflexivity.
  destruct err; reflexivity.
Qed.

(** ** Index overflow *)

Lemma Overflow_check_frame indices w :
  Overflow_check indices w = Ok tt w \/
  Overflow_check indices w = Throw (runtime_error overflow_message) w.
Proof.
  induction indices as [| index next IH]; simpl; [by left |].
  destruct (_ <=? _)%Z; [by right | exact IH].
Qed.

Lemma Overflow_check_throws indices w :
  Exists (fun d => (2 ^ 31 <= d)%Z) indices ->
  Overflow_check indices w = Throw (runtime_error overflow_message) w.
Proof.
  induction 1 as [d next Hd | d next _ IH]; simpl.
  - rewrite Int64_abs_nonneg by lia.
    destruct (Z.leb_spec (Z.shiftl 1 31) d) as [_ | Hlt]; [reflexivity |].
    change (Z.shiftl 1 31) with (2 ^ 31)%Z in Hlt. lia.
  - destruct (_ <=? _)%Z; [reflexivity | exact IH].
Qed.

Lemma Overflow_check_passes indices w :
  Forall (fun d => (- 2 ^ 31 < d < 2 ^ 31)%Z) indices ->
  Overflow_check indices w = Ok tt w.
Proof.
  induction 1 as [| d next Hd _ IH]; simpl; [reflexivity |].
  destruct (Z.leb_spec (Z.shiftl 1 31) (Int64.abs d)) as [Hge | _]; [| exact IH].
  change (Z.shiftl 1 31) with (2 ^ 31)%Z in Hge.
  destruct (Z.lt_ge_cases d 0).
  - rewrite Int64_abs_neg in Hge by (unfold Int64.min_signed; lia). lia.
  - rewrite Int64_abs_nonneg in Hge by lia. lia.
Qed.

(** C6.  A dimension of at least 2^31 among the arguments of
    [overflow_check] makes it throw the overflow error with the state,
    and so the trace of vendor calls, left as it was, and whatever the
    caller would have done next is not run; when every argument is below
    2^31 in magnitude the check returns normally and changes nothing. *)
Theorem overflow_check_dimension_limit (index : Z) (indices : list Z) (w : world) :
  (Exists (fun d => (2 ^ 31 <= d)%Z) (index :: indices) ->
     overflow_check index indices w = Throw (runtime_error overflow_message) w /\
     forall (A : Type) (vendor_calls : M A),
       (overflow_check index indices >> vendor_calls) w
       = Throw (runtime_error overflow_message) w) /\
  (Forall (fun d => (- 2 ^ 31 < d < 2 ^ 31)%Z) (index :: indices) ->
     overflow_check index indices w = Ok tt w).
Proof.
  split.
  - intros Hbig. pose proof (Overflow_check_throws _ w Hbig) as Hthrow.
    split; [exact Hthrow |]. intros A k. unfold bind, overflow_check.
    by rewrite Hthrow.
  - apply Overflow_check_passes.
Qed.

Lemma overflow_check_dimension_limit_witness :
  overflow_check (2 ^ 31) [5%Z] (World 0 ∅ ∅ ∅ [] [])
  = Throw (runtime_error overflow_message) (World 0 ∅ ∅ ∅ [] []) /\
  overflow_check 5 [(2 ^ 31 - 1)%Z] (World 0 ∅ ∅ ∅ [] [])
  = Ok tt (World 0 ∅ ∅ ∅ [] []).
Proof.
  split.
  - apply (overflow_check_dimension_limit (2 ^ 31) [5%Z]).
    apply Exists_cons_hd. lia.
  - apply (overflow_check_dimension_limit 5 [(2 ^ 31 - 1)%Z]).
    repeat constructor; lia.
Defined.

(** Away from the least 64-bit integer the check is symmetric: it throws
    on every index of magnitude at least 2^31, negative or not. *)
Lemma Overflow_check_symmetric (index : Z) (next : list Z) (w : world) :
  (Int64.min_signed < index <= Int64.max_signed)%Z ->
  (2 ^ 31 <= Z.abs index)%Z ->
  Overflow_check (index :: next) w = Throw (runtime_error overflow_message) w.
Proof.
  intros Hrange Hbig. simpl.
  assert (Int64.abs index = Z.abs index) as ->.
  { destruct (Z.lt_ge_cases index 0).
    - rewrite Int64_abs_neg by lia. lia.
    - rewrite Int64_abs_nonneg by lia. lia. }
  destruct (Z.leb_spec (Z.shiftl 1 31) (Z.abs index)) as [_ | Hlt]; [reflexivity |].
  change (Z.shiftl 1 31) with (2 ^ 31)%Z in Hlt. lia.
Qed.

(** C10.  At the least 64-bit integer, whose magnitude 2^63 is far above
    2^31, the negation inside [std::abs] wraps back to the same negative
    value and the check lets the index through. *)
Theorem overflow_check_min_signed_passes (next : list Z) (w : world) :
  (2 ^ 31 <= Z.abs Int64.min_signed)%Z /\
  overflow_check Int64.min_signed next w = Overflow_check next w /\
  overflow_check Int64.min_signed [] w = Ok tt w.
Proof. split; [unfold Int64.min_signed; lia | split; reflexivity]. Qed.

(** ** The context callback on a null pointer *)

(** C9.  [ContextCallback (nullptr)] returns at once: the state, with its
    atomics, live handles and trace of vendor calls, is the one it was
    called in. *)
Theorem ContextCallback_nullptr (V : vendor) (w : world) :
  ContextCallback V nullptr w = Ok tt w.
Proof. reflexivity. Qed.

(** ** The scoped handler and the thread's current context *)

(** C2.  Between a handler built from [queue] and its destruction the
    enclosed code leaves the thread's current context alone; once the
    destructor has returned, the current context is the one found at
    construction when there was one, and the queue's context when the
    thread had none. *)
Theorem scoped_handler_restores_context (V : vendor) (queue : sycl_queue)
    (sc : CusparseScopedContextHandler) (w w1 w2 w3 : world) :
  CusparseScopedContextHandler_ctor V queue w = Ok sc w1 ->
  current_context w2 = current_context w1 ->
  CusparseScopedContextHandler_dtor V sc w2 = Ok tt w3 ->
  current_context w3 =
    if decide (current_context w = nullptr)
    then get_native_context (get_context queue)
    else current_context w.
Proof.
  unfold CusparseScopedContextHandler_ctor, CusparseScopedContextHandler_dtor.
  intros Hctor Hbody Hdtor.
  apply bind_Ok_inv in Hctor as (original & wa & Hget & Hctor).
  apply CUDA_ERROR_FUNC_Ok in Hget as (_ & _ & [= <- <-]).
  simpl in Hctor. destruct (decide (current_context w ≠ _)) as [Hne | Heq].
  - apply bind_Ok_inv in Hctor as (? & wb & Hset & [= <- <-]).
    apply CUDA_ERROR_FUNC_Ok in Hset as (_ & _ & [= <- _]).
    simpl in *. destruct (decide (current_context w = 0)) as [Hnull | Hsome].
    + rewrite bool_decide_eq_true_2 in Hdtor by done. simpl in Hdtor.
      injection Hdtor as <-. by rewrite Hbody.
    + rewrite bool_decide_eq_false_2 in Hdtor by done. simpl in Hdtor.
      apply bind_Ok_inv in Hdtor as (? & wc & Hset & [= <-]).
      by apply CUDA_ERROR_FUNC_Ok in Hset as (_ & _ & [= <- _]).
  - injection Hctor as <- <-. simpl in *. injection Hdtor as <-.
    apply dec_stable in Heq. rewrite Hbody. simpl.
    destruct (decide (current_context w = 0)); congruence.
Qed.

(** ** Counting calls in traces *)

Lemma count_calls_app c t1 t2 :
  count_calls c (t1 ++ t2) = (count_calls c t1 + count_calls c t2)%nat.
Proof. unfold count_calls. by rewrite filter_app, length_app. Qed.

Lemma count_calls_one c c' :
  count_calls c [c'] = if decide (c' = c) then 1%nat else 0%nat.
Proof.
  unfold count_calls. rewrite filter_cons, filter_nil.
  by destruct (decide (c' = c)).
Qed.

(** ** [get_handle]: stream binding and reuse *)

Lemma get_handle_lookup_Some V key stream w handle w' :
  get_handle_lookup V key stream w = Ok (Some handle) w' ->
  cached key handle w /\
  handles w' !! handle = Some stream /\
  atomics w' = atomics w /\
  cusparse_handle_mapper_ w' = cusparse_handle_mapper_ w /\
  current_context w' = current_context w /\
  dom (handles w') = dom (handles w) /\
  count_calls cusparseCreate (trace w') = count_calls cusparseCreate (trace w).
Proof.
  unfold get_handle_lookup, bind at 1, gets. 
  destruct (cusparse_handle_mapper_ w !! key) as [second |] eqn:Hfind; [| discriminate].
  destruct (decide (second = 0)) as [| Hsecond]; [discriminate |].
  unfold bind at 1, atomic_load.
  destruct (atomics w !! second) as [h |] eqn:Hload; [| discriminate].
  destruct (decide (h ≠ 0)) as [Hh |]; [| discriminate].
  intros Hrest.
  apply bind_Ok_inv in Hrest as (current & w1 & Hget & Hrest).
  apply CUSPARSE_ERROR_FUNC_Ok in Hget as (Hlive & _ & [= <- <-]).
  simpl in Hlive. apply bool_decide_eq_true in Hlive as [s Hs].
  apply bind_Ok_inv in Hrest as ([] & w2 & Hset & [= <- <-]).
  assert (Hcached : cached key h w) by (exists second; done).
  simpl in Hset. rewrite Hs in Hset. simpl in Hset.
  destruct (decide (s ≠ stream)) as [Hdiff | Hsame].
  - apply bind_Ok_inv in Hset as (? & w3 & Hset & [= <-]).
    apply CUSPARSE_ERROR_FUNC_Ok in Hset as (_ & _ & [= <- _]). simpl.
    rewrite lookup_insert_eq, dom_insert_L, !count_calls_app, !count_calls_one.
    repeat split; try done.
    + apply (elem_of_dom_2 (D := gset N)) in Hs.
      apply subseteq_union_1_L. by apply singleton_subseteq_l.
    + simpl. lia.
  - injection Hset as <-. apply dec_stable in Hsame as ->. simpl.
    rewrite count_calls_app, count_calls_one. repeat split; done.
Qed.

Lemma get_handle_lookup_None V key stream w w' :
  get_handle_lookup V key stream w = Ok None w' ->
  (forall h, ~ cached key h w) /\
  cusparse_handle_mapper_ w' !! key = None /\
  (forall k, k ≠ key -> cusparse_handle_mapper_ w' !! k = cusparse_handle_mapper_ w !! k) /\
  atomics w' = atomics w /\ handles w' = handles w /\
  trace w' = trace w /\ current_context w' = current_context w.
Proof.
  unfold get_handle_lookup, bind at 1, gets.
  destruct (cusparse_handle_mapper_ w !! key) as [second |] eqn:Hfind.
  - assert (Herase : forall o, (mapper_erase key >> ret (@None N)) w = Ok o w' ->
              cusparse_handle_mapper_ w' !! key = None /\
              (forall k, k ≠ key ->
                 cusparse_handle_mapper_ w' !! k = cusparse_handle_mapper_ w !! k) /\
              atomics w' = atomics w /\ handles w' = handles w /\
              trace w' = trace w /\ current_context w' = current_context w).
    { intros o [= _ <-]. simpl. rewrite lookup_delete_eq.
      repeat split; try done. intros k Hk. by rewrite lookup_delete_ne. }
    destruct (decide (second = 0)) as [-> | Hsecond].
    { intros Hrest. split; [| by eapply Herase].
      intros h (p & Hp & Hnonnull & _). congruence. }
    unfold bind at 1, atomic_load.
    destruct (atomics w !! second) as [h |] eqn:Hload; [| discriminate].
    destruct (decide (h ≠ 0)) as [| Hempty].
    + intros Hrest. apply bind_Ok_inv in Hrest as (? & ? & _ & Hrest).
      apply bind_Ok_inv in Hrest as (? & ? & _ & [=]).
    + intros Hrest. split; [| by eapply Herase].
      intros h' (p & Hp & _ & Hcell & Hh'). apply dec_stable in Hempty. congruence.
  - intros [= <-]. split; [| done]. intros h (p & Hp & _). congruence.
Qed.

Lemma fresh_pointer (X : gset N) :
  fresh ({[0]} ∪ X) ≠ 0 /\ fresh ({[0]} ∪ X) ∉ X.
Proof.
  pose proof (is_fresh ({[0]} ∪ X)) as Hfresh.
  split; intros ?; apply Hfresh; set_solver.
Qed.

Lemma get_handle_create_Ok V self key stream w handle w' :
  cusparse_handle_mapper_ w !! key = None ->
  get_handle_create V self key stream w = Ok handle w' ->
  handles w' !! handle = Some stream /\
  cached key handle w' /\
  (forall k h, cached k h w -> cached k h w') /\
  current_context w' = current_context w.
Proof.
  intros Hkey Hcreate. unfold get_handle_create in Hcreate.
  apply bind_Ok_inv in Hcreate as (h & w1 & Hnew & Hcreate).
  apply CUSPARSE_ERROR_FUNC_Ok in Hnew as (_ & _ & [= <- <-]).
  apply bind_Ok_inv in Hcreate as (? & w2 & Hset & Hcreate).
  apply CUSPARSE_ERROR_FUNC_Ok in Hset as (_ & _ & [= <- _]).
  unfold bind, atomic_new, mapper_insert, contextSetExtendedDeleter, modify in Hcreate.
  simpl in Hcreate. rewrite Hkey in Hcreate. injection Hcreate as <- <-. simpl.
  destruct (fresh_pointer (dom (handles w))) as [Hh _].
  destruct (fresh_pointer (dom (atomics w))) as [Hp Hpfresh].
  set (h := fresh ({[0]} ∪ dom (handles w))) in *.
  set (p := fresh ({[0]} ∪ dom (atomics w))) in *.
  repeat split.
  - by rewrite lookup_insert_eq.
  - exists p. simpl. by rewrite !lookup_insert_eq.
  - intros k h' (p' & Hk & Hp' & Hcell & Hh'). exists p'. simpl.
    assert (k ≠ key) by congruence.
    assert (p' ≠ p) by (intros ->; by apply Hpfresh, elem_of_dom).
    by rewrite !lookup_insert_ne.
Qed.

(** C3.  The handle [get_handle] returns, found in the cache or newly
    created, is live and bound to the native stream of the queue it was
    asked for, so that reading its stream back gives that stream. *)
Theorem get_handle_stream (V : vendor) (sc : CusparseScopedContextHandler)
    (queue : sycl_queue) (w w' : world) (handle : N) :
  get_handle V sc queue w = Ok handle w' ->
  handles w' !! handle = Some (get_stream queue) /\
  effect (cusparseGetStream handle) w' = (w', get_stream queue).
Proof.
  intros Hget.
  assert (handles w' !! handle = Some (get_stream queue)) as Hbound.
  { unfold get_handle in Hget.
    apply bind_Ok_inv in Hget as ([h |] & w1 & Hlookup & Hrest).
    - injection Hrest as <- <-.
      by apply get_handle_lookup_Some in Hlookup as (_ & Hbound & _).
    - apply get_handle_lookup_None in Hlookup as (_ & Hkey & _).
      by apply get_handle_create_Ok in Hrest as (Hbound & _). }
  split; [exact Hbound |]. simpl. by rewrite Hbound.
Qed.

(** After a successful [get_handle] the cache holds the returned handle
    under the handler's context, and holds what it held under the others. *)
Lemma get_handle_cached V sc queue w handle w' :
  get_handle V sc queue w = Ok handle w' ->
  cached (get_native_context (placedContext_ sc)) handle w' /\
  (forall k h, cached k h w -> cached k h w').
Proof.
  unfold get_handle. intros Hget.
  apply bind_Ok_inv in Hget as ([h |] & w1 & Hlookup & Hrest).
  - injection Hrest as <- <-.
    apply get_handle_lookup_Some in Hlookup as (Hc & _ & Hat & Hmap & _).
    unfold cached. rewrite Hat, Hmap. auto.
  - apply get_handle_lookup_None in Hlookup as (Hstale & Hkey & Hothers & Hat & _).
    apply get_handle_create_Ok in Hrest as (_ & Hc & Hframe & _); [| done].
    split; [done |]. intros k h Hkh. apply Hframe.
    destruct (decide (k = get_native_context (placedContext_ sc))) as [-> | Hk].
    + by destruct (Hstale h).
    + destruct Hkh as (p & ? & ? & ? & ?). exists p. rewrite Hothers, Hat; done.
Qed.

Lemma cached_functional key h h' w : cached key h w -> cached key h' w -> h = h'.
Proof. intros (p & Hp & _ & Hc & _) (p' & Hp' & _ & Hc' & _). congruence. Qed.

Lemma get_handles_cached V requests w handles w' :
  get_handles V requests w = Ok handles w' ->
  forall k h, cached k h w -> cached k h w'.
Proof.
  revert w handles. induction requests as [| [sc queue] rest IH]; intros w hs.
  - by intros [= _ <-].
  - simpl. intros Hrun k h Hkh.
    apply bind_Ok_inv in Hrun as (h1 & w1 & Hfirst & Hrun).
    apply bind_Ok_inv in Hrun as (hs1 & w2 & Hrest & [= _ <-]).
    apply (IH _ _ Hrest). by apply (get_handle_cached _ _ _ _ _ _ Hfirst).
Qed.

Lemma get_handle_hit V sc queue w h h' w' :
  cached (get_native_context (placedContext_ sc)) h w ->
  get_handle V sc queue w = Ok h' w' ->
  h' = h /\ dom (handles w') = dom (handles w) /\
  count_calls cusparseCreate (trace w') = count_calls cusparseCreate (trace w).
Proof.
  intros Hcached Hget. unfold get_handle in Hget.
  apply bind_Ok_inv in Hget as ([h1 |] & w1 & Hlookup & Hrest).
  - injection Hrest as <- <-.
    apply get_handle_lookup_Some in Hlookup as (Hc & _ & _ & _ & _ & Hdom & Hcount).
    split; [| done]. exact (cached_functional _ _ _ _ Hc Hcached).
  - apply get_handle_lookup_None in Hlookup as (Hstale & _). by destruct (Hstale h).
Qed.

(** C4.  On one thread, with only further [get_handle] requests in between
    (no context callback, no teardown of the cache), a later request under
    the same context returns the very handle the earlier one returned, and
    serves it from the cache: no [cusparseCreate] is issued and the set of
    live handles is the same before and after. *)
Theorem get_handle_repeated (V : vendor) (sc sc' : CusparseScopedContextHandler)
    (queue queue' : sycl_queue)
    (between : list (CusparseScopedContextHandler * sycl_queue))
    (w w1 w2 w3 : world) (handle handle' : N) (others : list N) :
  get_handle V sc queue w = Ok handle w1 ->
  get_handles V between w1 = Ok others w2 ->
  placedContext_ sc' = placedContext_ sc ->
  get_handle V sc' queue' w2 = Ok handle' w3 ->
  handle' = handle /\
  dom (handles w3) = dom (handles w2) /\
  count_calls cusparseCreate (trace w3) = count_calls cusparseCreate (trace w2).
Proof.
  intros Hfirst Hbetween Hsame Hagain.
  apply get_handle_cached in Hfirst as [Hcached _].
  apply (get_handles_cached _ _ _ _ _ Hbetween) in Hcached.
  rewrite <- Hsame in Hcached. exact (get_handle_hit _ _ _ _ _ _ _ Hcached Hagain).
Qed.

Lemma get_handle_repeated_witness :
  get_handle vendor_ok handler_a queue_a empty_world = Ok 1 example_w1 /\
  get_handles vendor_ok [(handler_b, queue_b)] example_w1 = Ok [2] example_w2 /\
  get_handle vendor_ok handler_a queue_a' example_w2 = Ok 1 example_w3 /\
  count_calls cusparseCreate (trace example_w3)
  = count_calls cusparseCreate (trace example_w2).
Proof.
  assert (H1 : get_handle vendor_ok handler_a queue_a empty_world = Ok 1 example_w1)
    by (vm_compute; reflexivity).
  assert (H2 : get_handles vendor_ok [(handler_b, queue_b)] example_w1 = Ok [2] example_w2)
    by (vm_compute; reflexivity).
  assert (H3 : get_handle vendor_ok handler_a queue_a' example_w2 = Ok 1 example_w3)
    by (vm_compute; reflexivity).
  split; [exact H1 |]. split; [exact H2 |]. split; [exact H3 |].
  exact (proj2 (proj2 (get_handle_repeated vendor_ok handler_a handler_a queue_a queue_a'
                         [(handler_b, queue_b)] empty_world example_w1 example_w2
                         example_w3 1 1 [2] H1 H2 eq_refl H3))).
Defined.

Lemma get_handle_stream_witness :
  handles example_w3 !! 1 = Some 4 /\
  effect (cusparseGetStream 1) example_w3 = (example_w3, 4).
Proof.
  apply (get_handle_stream vendor_ok handler_a queue_a' example_w2 example_w3 1).
  vm_compute. reflexivity.
Defined.

Lemma scoped_handler_restores_context_witness :
  current_context busy_world = 5 /\ current_context scoped_w2 = 7 /\
  current_context scoped_w3 = 5.
Proof.
  split; [reflexivity |]. split; [vm_compute; reflexivity |].
  apply (scoped_handler_restores_context vendor_ok queue_a scoped_sc
           busy_world scoped_w1 scoped_w2 scoped_w3);
    vm_compute; reflexivity.
Defined.

(** ** Teardown of the cache *)

Lemma world_of_bind {A B} (m : M A) (k : A -> M B) w :
  world_of (bind m k w) =
  match m w with
  | Ok a w1 => world_of (k a w1)
  | Throw _ w1 | Fault w1 => w1
  end.
Proof. unfold bind. by destruct (m w). Qed.

Lemma cusparse_handle_dtor_entry_calls V handle_pair w :
  let w' := world_of (cusparse_handle_dtor_entry V handle_pair w) in
  (exists new, trace w' = trace w ++ new /\
               Forall (claimed_from w [handle_pair.2]) new) /\
  no_new_handle w w'.
Proof.
  destruct handle_pair as [key ptr]. unfold cusparse_handle_dtor_entry. simpl.
  destruct (decide (ptr ≠ 0)) as [Hptr |].
  2: { split; [exists []; by rewrite app_nil_r | by intros ? ?]. }
  rewrite world_of_bind. unfold atomic_exchange.
  destruct (atomics w !! ptr) as [handle |] eqn:Hcell.
  2: { split; [exists []; by rewrite app_nil_r | by intros ? ?]. }
  assert (Hframe : no_new_handle w (set_atomics (<[ptr:=0]> (atomics w)) w)).
  { intros p h. simpl. destruct (decide (p = ptr)) as [-> | Hp].
    - rewrite lookup_insert_eq. congruence.
    - by rewrite lookup_insert_ne. }
  cbv beta. unfold destroy_or_delete.
  destruct (decide (handle ≠ 0)) as [Hhandle | Hempty].
  - pose proof (CUSPARSE_ERROR_FUNC_trace V (cusparseDestroy handle)
                  (set_atomics (<[ptr:=0]> (atomics w)) w)) as Htrace.
    assert (Hatomics : atomics (world_of (CUSPARSE_ERROR_FUNC V (cusparseDestroy handle)
                          (set_atomics (<[ptr:=0]> (atomics w)) w)))
                       = <[ptr:=0]> (atomics w)).
    { unfold CUSPARSE_ERROR_FUNC, bind, cusparse. simpl.
      destruct (bool_decide _); [| reflexivity].
      by destruct (cusparse_result V _ _). }
    unfold bind.
    destruct (CUSPARSE_ERROR_FUNC V (cusparseDestroy handle) _) as [out w1 | e w1 | w1];
      simpl in *.
    all: split; [exists [cusparseDestroy handle]; split; [done |];
                 apply Forall_singleton; exists handle, ptr;
                 repeat split; try done; apply list_elem_of_singleton; done |].
    all: intros p h; simpl; rewrite Hatomics; apply Hframe.
  - unfold bind, atomic_delete. destruct (decide (ptr = 0)); [done |]. simpl.
    rewrite lookup_insert_eq. simpl.
    split; [exists []; by rewrite app_nil_r |].
    intros p h. simpl. destruct (decide (p = ptr)) as [-> | Hp].
    + by rewrite lookup_delete_eq.
    + rewrite lookup_delete_ne by done. apply Hframe.
Qed.

Lemma claimed_from_weaken w w' ptrs ptrs' c :
  no_new_handle w w' -> ptrs' ⊆ ptrs ->
  claimed_from w' ptrs' c -> claimed_from w ptrs c.
Proof.
  intros Hframe Hsub (h & p & -> & Hh & Hp & Hcell).
  exists h, p. repeat split; [done | by apply Hsub | by apply Hframe].
Qed.

Lemma cusparse_handle_dtor_loop_calls V elements w :
  exists new,
    trace (world_of (cusparse_handle_dtor_loop V elements w)) = trace w ++ new /\
    Forall (claimed_from w elements.*2) new.
Proof.
  revert w. induction elements as [| handle_pair rest IH]; intros w.
  - exists []. simpl. by rewrite app_nil_r.
  - simpl. rewrite world_of_bind.
    destruct (cusparse_handle_dtor_entry_calls V handle_pair w)
      as [(new1 & Htrace1 & Hnew1) Hframe].
    assert (Hhead : Forall (claimed_from w (handle_pair.2 :: rest.*2)) new1).
    { eapply Forall_impl; [exact Hnew1 |]. intros c.
      apply claimed_from_weaken; [by intros ? ? |].
      intros x ->%list_elem_of_singleton. apply list_elem_of_here. }
    destruct (cusparse_handle_dtor_entry V handle_pair w) as [[] w1 | e w1 | w1];
      simpl in *; try (by exists new1).
    destruct (IH w1) as (new2 & Htrace2 & Hnew2).
    exists (new1 ++ new2). split.
    + by rewrite Htrace2, Htrace1, app_assoc.
    + apply Forall_app. split; [done |].
      eapply Forall_impl; [exact Hnew2 |]. intros c.
      apply claimed_from_weaken; [done |].
      intros x Hx. by apply list_elem_of_further.
Qed.

(** C8.  Whatever the state of the cache, whatever the order in which
    the destructor visits it and whatever the vendor answers, the calls the
    destructor of the cache adds to the trace are all [cusparseDestroy] on
    a handle that is not null and that was, when the teardown began, the
    value of an atomic it visits: the value its exchange took out.  In
    particular [cusparseDestroy (nullptr)] is not among them. *)
Theorem cusparse_handle_dtor_never_destroys_null (V : vendor)
    (elements : list (N * N)) (w : world) :
  exists new,
    trace (world_of (cusparse_handle_dtor V elements w)) = trace w ++ new /\
    Forall (claimed_from w elements.*2) new /\
    cusparseDestroy nullptr ∉ new.
Proof.
  destruct (cusparse_handle_dtor_loop_calls V elements w) as (new & Htrace & Hnew).
  exists new. unfold cusparse_handle_dtor. split; [| split; [exact Hnew |]].
  - by destruct (cusparse_handle_dtor_loop V _ w).
  - intros Hnull. rewrite Forall_forall in Hnew.
    destruct (Hnew _ Hnull) as (h & p & [= <-] & Hh & _). done.
Qed.

Lemma cusparse_handle_dtor_loop_app V before after w :
  cusparse_handle_dtor_loop V (before ++ after) w
  = (cusparse_handle_dtor_loop V before >> cusparse_handle_dtor_loop V after) w.
Proof.
  revert w. induction before as [| handle_pair rest IH]; intros w; [done |].
  simpl. rewrite bind_assoc. apply bind_ext. intros _ w'. apply IH.
Qed.

Lemma CUSPARSE_ERROR_FUNC_fails V c w err :
  applies c w = true -> cusparse_result V w c = err ->
  err ≠ CUSPARSE_STATUS_SUCCESS ->
  CUSPARSE_ERROR_FUNC V c w
  = Throw (cusparse_error (call_name c ++ " : ") err) (record_call c w).
Proof.
  intros Happlies Hresult Herr. unfold CUSPARSE_ERROR_FUNC, bind, cusparse.
  rewrite Happlies, Hresult. by destruct err.
Qed.

(** C5, as the code has it.  The destructor of the cache is
    [noexcept(false)] and lets the error of a failed [cusparseDestroy]
    escape from inside the loop.  In whichever order the destructor visits
    the map: when the elements [before] have been dealt with and the
    destroy of the next element's handle fails with [err], the destructor
    throws the [cusparse_error] for that call and status, and the state it
    leaves is the one right after the failed call: that element's atomic
    emptied, the map gone, and nothing done for the elements [after],
    which are the elements the map had under other keys than those of
    [before] and of the failing one. *)
Theorem cusparse_handle_dtor_stops_at_failed_destroy (V : vendor) (w w1 : world)
    (before after : list (N * N)) (key ptr handle : N) (err : cusparseStatus_t) :
  visits (before ++ (key, ptr) :: after) w ->
  cusparse_handle_dtor_loop V before w = Ok tt w1 ->
  ptr ≠ nullptr -> handle ≠ nullptr ->
  atomics w1 !! ptr = Some handle ->
  is_Some (handles w1 !! handle) ->
  cusparse_result V (set_atomics (<[ptr := nullptr]> (atomics w1)) w1)
                  (cusparseDestroy handle) = err ->
  err ≠ CUSPARSE_STATUS_SUCCESS ->
  cusparse_handle_dtor V (before ++ (key, ptr) :: after) w
  = Throw (cusparse_error "cusparseDestroy : " err)
          (mapper_clear (record_call (cusparseDestroy handle)
                           (set_atomics (<[ptr := nullptr]> (atomics w1)) w1))) /\
  cusparse_handle_mapper_ w !! key = Some ptr /\
  (forall k p, (k, p) ∈ after ->
     cusparse_handle_mapper_ w !! k = Some p /\ k ≠ key /\ k ∉ before.*1) /\
  size (cusparse_handle_mapper_ w) = (length before + 1 + length after)%nat.
Proof.
  intros Hvisits Hbefore Hptr Hhandle Hcell Hlive Hresult Herr. split.
  { unfold cusparse_handle_dtor. rewrite cusparse_handle_dtor_loop_app.
    unfold bind at 1. rewrite Hbefore. simpl.
    unfold bind at 1, cusparse_handle_dtor_entry. simpl.
    destruct (decide (ptr ≠ 0)) as [_ |]; [| done].
    unfold bind at 1, atomic_exchange. rewrite Hcell.
    unfold bind at 1, destroy_or_delete.
    destruct (decide (handle ≠ 0)) as [_ |]; [| done].
    unfold bind at 1.
    rewrite (CUSPARSE_ERROR_FUNC_fails V _ _ err); try done.
    simpl. by apply bool_decide_eq_true. }
  unfold visits in Hvisits.
  assert (Hin : forall k p, (k, p) ∈ before ++ (key, ptr) :: after ->
            cusparse_handle_mapper_ w !! k = Some p).
  { intros k p Hkp. rewrite Hvisits in Hkp. by apply elem_of_map_to_list. }
  assert (Hnodup : NoDup (before ++ (key, ptr) :: after).*1).
  { rewrite Hvisits. apply NoDup_fst_map_to_list. }
  rewrite fmap_app, fmap_cons in Hnodup.
  apply NoDup_app in Hnodup as (_ & Hapart & Hnodup).
  apply NoDup_cons in Hnodup as [Hkey _].
  split; [apply Hin, elem_of_app; right; apply list_elem_of_here |].
  split.
  - intros k p Hkp. split; [apply Hin, elem_of_app; right; by apply list_elem_of_further |].
    assert (Hk : k ∈ after.*1) by (apply list_elem_of_fmap; by exists (k, p)).
    split; [by intros -> |].
    intros Hbeforek. apply (Hapart k Hbeforek). by apply list_elem_of_further.
  - rewrite <- length_map_to_list, <- Hvisits, length_app. simpl. lia.
Qed.

Lemma example_w2_elements :
  map_to_list (cusparse_handle_mapper_ example_w2) = [(9, 2); (7, 1)].
Proof. vm_compute. reflexivity. Qed.

Lemma cusparse_handle_dtor_stops_at_failed_destroy_witness :
  cusparse_handle_dtor vendor_destroy_fails [(7, 1); (9, 2)] example_w2
  = Throw (cusparse_error "cusparseDestroy : " CUSPARSE_STATUS_INTERNAL_ERROR)
          (mapper_clear (record_call (cusparseDestroy 1)
                           (set_atomics (<[1 := nullptr]> (atomics example_w2)) example_w2))).
Proof.
  apply (cusparse_handle_dtor_stops_at_failed_destroy vendor_destroy_fails
           example_w2 example_w2 [] [(9, 2)] 7 1 1 CUSPARSE_STATUS_INTERNAL_ERROR).
  - unfold visits. rewrite example_w2_elements. apply perm_swap.
  - reflexivity.
  - discriminate.
  - discriminate.
  - vm_compute. reflexivity.
  - vm_compute. eauto.
  - reflexivity.
  - discriminate.
Defined.

(** C5, as the specification has it, fails: with two live handles in the
    cache and a vendor whose [cusparseDestroy] fails, the teardown stops
    at the first element it visits and never attempts the handle of the
    other, in whichever order it visits them. *)
Lemma cusparse_handle_dtor_leaves_entries :
  ~ exists elements,
      visits elements example_w2 /\
      drain_reclaims_all vendor_destroy_fails elements example_w2.
Proof.
  intros (elements & Hvisits & Hall). unfold visits in Hvisits.
  rewrite example_w2_elements in Hvisits.
  apply Permutation_sym, Permutation_length_2_inv in Hvisits as [-> | ->].
  - assert (Hnot : cusparseDestroy 1 ∉
                   trace (world_of (cusparse_handle_dtor vendor_destroy_fails
                                      [(9, 2); (7, 1)] example_w2))).
    { apply (@bool_decide_eq_false_1 _ (list_elem_of_dec _ _)). vm_compute. reflexivity. }
    apply Hnot, (Hall 7 1 1); [vm_compute; reflexivity .. | done].
  - assert (Hnot : cusparseDestroy 2 ∉
                   trace (world_of (cusparse_handle_dtor vendor_destroy_fails
                                      [(7, 1); (9, 2)] example_w2))).
    { apply (@bool_decide_eq_false_1 _ (list_elem_of_dec _ _)). vm_compute. reflexivity. }
    apply Hnot, (Hall 9 2 2); [vm_compute; reflexivity .. | done].
Qed.

(** ** The host-task factory *)

Lemma scoped_ext {A} (body body' : M A) cleanup w :
  body w = body' w -> scoped body cleanup w = scoped body' cleanup w.
Proof. unfold scoped. by intros ->. Qed.

Lemma scoped_Ok_inv {A} (body : M A) cleanup w a w' :
  scoped body cleanup w = Ok a w' ->
  exists w1, body w = Ok a w1 /\ cleanup w1 = Ok tt w'.
Proof.
  unfold scoped. destruct (body w) as [a1 w1 | e w1 | w1]; try discriminate.
  - unfold bind. destruct (cleanup w1) as [[] w2 | |] eqn:Hcleanup; try discriminate.
    intros [= <- <-]. by exists w1.
  - by destruct (cleanup w1).
Qed.

(** C7, as the code has it.  The factory builds the scoped handler and
    calls [f] on the handler alone; it asks for no handle itself.  When
    [f] is a function that first takes the handle from the handler and
    then goes on with both, the run is the one the specification
    describes.  When the task returns normally, the handler was built,
    then [f] ran and returned, then the queue's stream was synchronised,
    then the handler was destroyed, in this order. *)
Theorem host_task_internal_order (V : vendor) (queue : sycl_queue) (w : world) :
  (forall fn : CusparseScopedContextHandler -> N -> M unit,
     host_task_internal V queue
       (fun sc => handle <- get_handle V sc queue; fn sc handle) w
     = with_handle V queue fn w) /\
  (forall (f : CusparseScopedContextHandler -> M unit) (w' : world),
     onemkl_cusparse_host_task V queue f w = Ok tt w' ->
     exists sc w1 w2 w3,
       CusparseScopedContextHandler_ctor V queue w = Ok sc w1 /\
       f sc w1 = Ok tt w2 /\
       wait_stream V sc queue w2 = Ok tt w3 /\
       trace w3 = trace w2 ++ [cuStreamSynchronize (get_stream queue)] /\
       CusparseScopedContextHandler_dtor V sc w3 = Ok tt w').
Proof.
  split.
  - intros fn. unfold host_task_internal, with_handle.
    apply bind_ext. intros sc w1. apply scoped_ext. apply bind_assoc.
  - intros f w' Hrun. unfold onemkl_cusparse_host_task, host_task_internal in Hrun.
    apply bind_Ok_inv in Hrun as (sc & w1 & Hctor & Hrun).
    apply scoped_Ok_inv in Hrun as (w3 & Hbody & Hdtor).
    apply bind_Ok_inv in Hbody as ([] & w2 & Hf & Hwait).
    exists sc, w1, w2, w3. repeat split; try done.
    unfold wait_stream in Hwait.
    apply bind_Ok_inv in Hwait as (? & ? & Hsync & [= <-]).
    by apply CUDA_ERROR_FUNC_Ok in Hsync as (_ & _ & [= <- _]).
Qed.

Lemma host_task_internal_order_witness :
  exists sc w1 w2 w3,
    CusparseScopedContextHandler_ctor vendor_ok queue_a busy_world = Ok sc w1 /\
    get_handle vendor_ok sc queue_a w1 = Ok 1 w2 /\
    wait_stream vendor_ok sc queue_a w2 = Ok tt w3 /\
    trace w3 = trace w2 ++ [cuStreamSynchronize 3] /\
    CusparseScopedContextHandler_dtor vendor_ok sc w3
    = Ok tt (world_of (with_handle vendor_ok queue_a (fun _ _ => ret tt) busy_world)).
Proof.
  destruct (proj2 (host_task_internal_order vendor_ok queue_a busy_world)
              (fun sc => handle <- get_handle vendor_ok sc queue_a; ret tt)
              (world_of (with_handle vendor_ok queue_a (fun _ _ => ret tt) busy_world)))
    as (sc & w1 & w2 & w3 & Hctor & Hf & Hwait & Htrace & Hdtor).
  { vm_compute. reflexivity. }
  exists sc, w1, w2, w3. repeat split; try done.
  apply bind_Ok_inv in Hf as (h & w2' & Hget & [= <-]).
  rewrite Hget. f_equal.
  assert (Hsc : sc = scoped_sc /\ w1 = scoped_w1).
  { assert (Hc : CusparseScopedContextHandler_ctor vendor_ok queue_a busy_world
                 = Ok scoped_sc scoped_w1) by (vm_compute; reflexivity).
    rewrite Hc in Hctor. by injection Hctor as <- <-. }
  destruct Hsc as [-> ->].
  assert (Hg : get_handle vendor_ok scoped_sc queue_a scoped_w1 = Ok 1 scoped_w2)
    by (vm_compute; reflexivity).
  rewrite Hg in Hget. by injection Hget as <- _.
Defined.

(** C7, as the specification has it, fails: with a function that does
    nothing, the factory of the code issues no [cusparseCreate] and ends
    with no live handle and an empty cache, where the factory of the
    specification has created and cached one. *)
Lemma host_task_internal_obtains_no_handle :
  host_task_internal vendor_ok queue_a (fun _ => ret tt) empty_world
  ≠ with_handle vendor_ok queue_a (fun _ _ => ret tt) empty_world /\
  trace (world_of (host_task_internal vendor_ok queue_a (fun _ => ret tt) empty_world))
  = [cuCtxGetCurrent; cuCtxSetCurrent 7; cuStreamSynchronize 3] /\
  handles (world_of (host_task_internal vendor_ok queue_a (fun _ => ret tt) empty_world))
  = ∅ /\
  handles (world_of (with_handle vendor_ok queue_a (fun _ _ => ret tt) empty_world))
  = {[ 1 := 3 ]}.
Proof.
  split; [| split; [| split]]; try (vm_compute; reflexivity).
  intros Heq.
  apply (f_equal (fun o => length (trace (world_of o)))) in Heq.
  vm_compute in Heq. discriminate.
Qed.

(** ** Caches built by [get_handle] are fresh *)

Lemma cache_fresh_empty : cache_fresh empty_world.
Proof.
  unfold cache_fresh, empty_world. simpl.
  repeat split; intros *; rewrite ?lookup_empty; try done.
  by intros ?%elem_of_nil.
Qed.

Lemma cache_fresh_rebind w w' :
  atomics w' = atomics w ->
  cusparse_handle_mapper_ w' = cusparse_handle_mapper_ w ->
  deleters w' = deleters w ->
  dom (handles w') = dom (handles w) ->
  cache_fresh w -> cache_fresh w'.
Proof.
  intros Hatomics Hmapper Hdeleters Hdom (Hcells & Hrest).
  unfold cache_fresh. rewrite Hatomics, Hmapper, Hdeleters. split; [| exact Hrest].
  intros ptr handle Hptr. destruct (Hcells _ _ Hptr) as (? & ? & Hlive).
  repeat split; try done. by rewrite <- elem_of_dom, Hdom, elem_of_dom.
Qed.

Lemma get_handle_lookup_fresh V key stream w found w' :
  cache_fresh w ->
  get_handle_lookup V key stream w = Ok found w' ->
  cache_fresh w' /\ (found = None -> cusparse_handle_mapper_ w !! key = None /\ w' = w).
Proof.
  intros Hfresh. unfold get_handle_lookup, bind at 1, gets.
  destruct (cusparse_handle_mapper_ w !! key) as [second |] eqn:Hfind.
  2: { by intros [= <- <-]. }
  destruct Hfresh as (Hcells & Hinj & Hmap & Hrest).
  destruct (Hmap _ _ Hfind) as [h Hh].
  destruct (Hcells _ _ Hh) as (Hsecond & Hh0 & Hlive).
  destruct (decide (second = 0)); [done |].
  unfold bind at 1, atomic_load. rewrite Hh.
  destruct (decide (h ≠ 0)); [| done].
  intros Hrun.
  apply bind_Ok_inv in Hrun as (current & w1 & Hget & Hrun).
  apply CUSPARSE_ERROR_FUNC_Ok in Hget as (_ & _ & [= <- <-]).
  apply bind_Ok_inv in Hrun as ([] & w2 & Hset & [= <- <-]).
  split; [| done].
  destruct (decide (_ ≠ stream)).
  - apply bind_Ok_inv in Hset as (? & w3 & Hset & [= <-]).
    apply CUSPARSE_ERROR_FUNC_Ok in Hset as (_ & _ & [= <- _]).
    apply (cache_fresh_rebind w); try done. simpl. rewrite dom_insert_L.
    apply subseteq_union_1_L, singleton_subseteq_l. by apply elem_of_dom.
  - injection Hset as <-. by apply (cache_fresh_rebind w).
Qed.

Lemma get_handle_create_fresh V self key stream w handle w' :
  cache_fresh w ->
  cusparse_handle_mapper_ w !! key = None ->
  get_handle_create V self key stream w = Ok handle w' ->
  cache_fresh w'.
Proof.
  intros (Hcells & Hinj & Hmap & Hkeys & Hdeleters) Hkey Hcreate.
  unfold get_handle_create in Hcreate.
  apply bind_Ok_inv in Hcreate as (h & w1 & Hnew & Hcreate).
  apply CUSPARSE_ERROR_FUNC_Ok in Hnew as (_ & _ & [= <- <-]).
  apply bind_Ok_inv in Hcreate as (? & w2 & Hset & Hcreate).
  apply CUSPARSE_ERROR_FUNC_Ok in Hset as (_ & _ & [= <- _]).
  unfold bind, atomic_new, mapper_insert, contextSetExtendedDeleter, modify in Hcreate.
  simpl in Hcreate. rewrite Hkey in Hcreate. injection Hcreate as <- <-.
  destruct (fresh_pointer (dom (handles w))) as [Hh Hhfresh].
  destruct (fresh_pointer (dom (atomics w))) as [Hp Hpfresh].
  set (h := fresh ({[0]} ∪ dom (handles w))) in *.
  set (p := fresh ({[0]} ∪ dom (atomics w))) in *.
  rewrite elem_of_dom in Hhfresh, Hpfresh.
  assert (Hold : forall ptr handle, atomics w !! ptr = Some handle ->
                   ptr ≠ p /\ handle ≠ h).
  { intros ptr handle Hptr. split; intros ->.
    - apply Hpfresh. by rewrite Hptr.
    - destruct (Hcells _ _ Hptr) as (_ & _ & Hlive). by apply Hhfresh. }
  unfold cache_fresh. simpl. split; [| split; [| split; [| split]]].
  - intros ptr handle. destruct (decide (ptr = p)) as [-> | Hne].
    + rewrite lookup_insert_eq. intros [= <-]. by rewrite lookup_insert_eq.
    + rewrite lookup_insert_ne by done. intros Hptr.
      destruct (Hcells _ _ Hptr) as (? & ? & Hlive). destruct (Hold _ _ Hptr).
      by rewrite !lookup_insert_ne.
  - intros ptr ptr' handle.
    destruct (decide (ptr = p)) as [-> | Hne], (decide (ptr' = p)) as [-> | Hne'];
      rewrite ?lookup_insert_eq, ?lookup_insert_ne by done; try done.
    + intros [= <-] Hptr'. by destruct (Hold _ _ Hptr').
    + intros Hptr [= <-]. by destruct (Hold _ _ Hptr).
    + apply Hinj.
  - intros k ptr. destruct (decide (k = key)) as [-> | Hne].
    + rewrite lookup_insert_eq. intros [= <-]. by rewrite lookup_insert_eq.
    + rewrite lookup_insert_ne by done. intros Hk.
      destruct (Hmap _ _ Hk) as [handle Hptr]. destruct (Hold _ _ Hptr).
      by rewrite lookup_insert_ne.
  - assert (Hrange : forall k, cusparse_handle_mapper_ w !! k ≠ Some p).
    { intros k Hk. destruct (Hmap _ _ Hk) as [handle Hptr]. by destruct (Hold _ _ Hptr). }
    intros k k' ptr.
    destruct (decide (k = key)) as [-> | Hne], (decide (k' = key)) as [-> | Hne'];
      rewrite ?lookup_insert_eq, ?lookup_insert_ne by done; try done.
    + intros [= <-] Hk'. by destruct (Hrange k').
    + intros Hk [= <-]. by destruct (Hrange k).
    + apply Hkeys.
  - intros d [-> | Hd]%elem_of_cons.
    + simpl. by rewrite lookup_insert_eq.
    + destruct (Hdeleters _ Hd) as [handle Hptr]. destruct (Hold _ _ Hptr).
      by rewrite lookup_insert_ne.
Qed.

Lemma get_handle_fresh V sc queue w handle w' :
  cache_fresh w -> get_handle V sc queue w = Ok handle w' -> cache_fresh w'.
Proof.
  intros Hfresh Hget. unfold get_handle in Hget.
  apply bind_Ok_inv in Hget as (found & w1 & Hlookup & Hrest).
  apply get_handle_lookup_fresh in Hlookup as [Hfresh1 Hnone]; [| done].
  destruct found as [h |].
  - by injection Hrest as <- <-.
  - destruct (Hnone eq_refl) as [Hkey ->]. by eapply get_handle_create_fresh.
Qed.

Lemma get_handles_fresh V requests w handles w' :
  cache_fresh w -> get_handles V requests w = Ok handles w' -> cache_fresh w'.
Proof.
  revert w handles. induction requests as [| request rest IH]; intros w hs Hfresh.
  - by intros [= _ <-].
  - simpl. intros Hrun.
    apply bind_Ok_inv in Hrun as (h1 & w1 & Hfirst & Hrun).
    apply bind_Ok_inv in Hrun as (hs1 & w2 & Hrest & [= _ <-]).
    eapply IH; [| done]. by eapply get_handle_fresh.
Qed.

(** * Further properties of the code *)

(** ** [get_handle], path by path *)

Lemma world_eta w :
  World (current_context w) (handles w) (atomics w) (cusparse_handle_mapper_ w)
        (deleters w) (trace w) = w.
Proof. by destruct w. Qed.

(** The lookup falls through to the creation in two cases only: the key
    is not in the map, or its element is stale and has been erased. *)
Lemma get_handle_lookup_None_exact V key stream w w' :
  get_handle_lookup V key stream w = Ok None w' ->
  w' = set_mapper (delete key (cusparse_handle_mapper_ w)) w /\
  (cusparse_handle_mapper_ w !! key = None \/
   exists ptr, cusparse_handle_mapper_ w !! key = Some ptr /\
               (ptr = 0 \/ atomics w !! ptr = Some 0)).
Proof.
  unfold get_handle_lookup, bind at 1, gets.
  destruct (cusparse_handle_mapper_ w !! key) as [second |] eqn:Hfind.
  - destruct (decide (second = 0)) as [-> | Hsecond].
    { intros [= <-]. split; [done |]. right. exists 0. auto. }
    unfold bind at 1, atomic_load.
    destruct (atomics w !! second) as [h |] eqn:Hload; [| discriminate].
    destruct (decide (h ≠ 0)) as [| Hempty].
    + intros Hrest. apply bind_Ok_inv in Hrest as (? & ? & _ & Hrest).
      apply bind_Ok_inv in Hrest as (? & ? & _ & [=]).
    + intros [= <-]. split; [done |]. right. exists second.
      apply dec_stable in Hempty as ->. auto.
  - intros [= <-]. split; [| by left].
    unfold set_mapper. rewrite delete_id by done. by rewrite world_eta.
Qed.

Lemma get_handle_create_exact V self key stream w handle w' :
  cusparse_handle_mapper_ w !! key = None ->
  get_handle_create V self key stream w = Ok handle w' ->
  handle = fresh ({[0]} ∪ dom (handles w)) /\
  w' = World (current_context w)
         (<[handle := stream]> (handles w))
         (<[fresh ({[0]} ∪ dom (atomics w)) := handle]> (atomics w))
         (<[key := fresh ({[0]} ∪ dom (atomics w))]> (cusparse_handle_mapper_ w))
         ((get_native_context (placedContext_ self), fresh ({[0]} ∪ dom (atomics w)))
            :: deleters w)
         (trace w ++ [cusparseCreate; cusparseSetStream handle stream]).
Proof.
  intros Hkey Hcreate. unfold get_handle_create in Hcreate.
  apply bind_Ok_inv in Hcreate as (h & w1 & Hnew & Hcreate).
  apply CUSPARSE_ERROR_FUNC_Ok in Hnew as (_ & _ & [= <- <-]).
  apply bind_Ok_inv in Hcreate as (? & w2 & Hset & Hcreate).
  apply CUSPARSE_ERROR_FUNC_Ok in Hset as (_ & _ & [= <- _]).
  unfold bind, atomic_new, mapper_insert, contextSetExtendedDeleter, modify in Hcreate.
  simpl in Hcreate. rewrite Hkey in Hcreate. injection Hcreate as <- <-.
  split; [done |]. unfold set_mapper, add_deleter, set_atomics. simpl.
  by rewrite insert_insert_eq, <- app_assoc.
Qed.

(** X1: a request under a context the map has no element for that
    returns has made exactly the calls [cusparseCreate] and
    [cusparseSetStream], in this order; the handle returned is not null and
    was not live before, it is bound to the queue's stream, a new atomic
    holds it, the map sends the context to that atomic, one deleter was
    registered for the context, and the thread's context is unchanged. *)
Theorem get_handle_missing_key (V : vendor) (sc : CusparseScopedContextHandler)
    (queue : sycl_queue) (w w' : world) (handle : N) :
  cusparse_handle_mapper_ w !! get_native_context (placedContext_ sc) = None ->
  get_handle V sc queue w = Ok handle w' ->
  handle ≠ nullptr /\ handles w !! handle = None /\
  exists ptr,
    ptr ≠ nullptr /\ atomics w !! ptr = None /\
    trace w' = trace w ++ [cusparseCreate; cusparseSetStream handle (get_stream queue)] /\
    handles w' = <[handle := get_stream queue]> (handles w) /\
    atomics w' = <[ptr := handle]> (atomics w) /\
    cusparse_handle_mapper_ w'
    = <[get_native_context (placedContext_ sc) := ptr]> (cusparse_handle_mapper_ w) /\
    deleters w' = (get_native_context (placedContext_ sc), ptr) :: deleters w /\
    current_context w' = current_context w.
Proof.
  intros Hkey Hget. unfold get_handle in Hget.
  apply bind_Ok_inv in Hget as (found & w1 & Hlookup & Hrest).
  unfold get_handle_lookup, bind, gets in Hlookup. rewrite Hkey in Hlookup.
  injection Hlookup as <- <-.
  apply get_handle_create_exact in Hrest as [-> ->]; [| done].
  destruct (fresh_pointer (dom (handles w))) as [Hh Hhfresh].
  destruct (fresh_pointer (dom (atomics w))) as [Hp Hpfresh].
  split; [done |]. split; [by apply not_elem_of_dom |].
  exists (fresh ({[0]} ∪ dom (atomics w))).
  split; [done |]. split; [by apply not_elem_of_dom |]. done.
Qed.

(** X2: a request under a context whose handle is in the cache
    returns that handle and creates nothing: it reads the handle's stream
    and, only when that stream is not the queue's, sets it; the state is
    otherwise the same. *)
Theorem get_handle_hit_exact (V : vendor) (sc : CusparseScopedContextHandler)
    (queue : sycl_queue) (w w' : world) (handle handle' bound : N) :
  cached (get_native_context (placedContext_ sc)) handle w ->
  handles w !! handle = Some bound ->
  get_handle V sc queue w = Ok handle' w' ->
  handle' = handle /\
  w' = if decide (bound = get_stream queue)
       then record_call (cusparseGetStream handle) w
       else set_handles (<[handle := get_stream queue]> (handles w))
              (record_call (cusparseSetStream handle (get_stream queue))
                 (record_call (cusparseGetStream handle) w)).
Proof.
  intros (ptr & Hkey & Hptr & Hcell & Hhandle) Hbound Hget.
  unfold get_handle, bind at 1, get_handle_lookup, bind at 1, gets in Hget.
  rewrite Hkey in Hget. destruct (decide (ptr = 0)); [done |].
  unfold bind at 1, atomic_load in Hget. rewrite Hcell in Hget.
  destruct (decide (handle ≠ 0)); [| done].
  unfold bind at 1 in Hget.
  destruct (CUSPARSE_ERROR_FUNC V (cusparseGetStream handle) w)
    as [current w1 | |] eqn:Hcurrent; [| done | done].
  apply CUSPARSE_ERROR_FUNC_Ok in Hcurrent as (_ & _ & [= <- <-]).
  simpl in Hget. rewrite Hbound in Hget. simpl in Hget.
  destruct (decide (bound ≠ get_stream queue)) as [Hdiff | Hsame].
  - unfold bind at 1 2 in Hget.
    destruct (CUSPARSE_ERROR_FUNC V (cusparseSetStream handle (get_stream queue)) _)
      as [? w2 | |] eqn:Hset; [| done | done].
    apply CUSPARSE_ERROR_FUNC_Ok in Hset as (_ & _ & [= <- _]).
    injection Hget as <- <-. split; [done |].
    by destruct (decide (bound = get_stream queue)).
  - injection Hget as <- <-. split; [done |].
    apply dec_stable in Hsame. by destruct (decide (bound = get_stream queue)).
Qed.


(** ** [get_handle] when the vendor fails *)

Lemma CUSPARSE_ERROR_FUNC_cases V c w :
  (applies c w = false /\ CUSPARSE_ERROR_FUNC V c w = Fault (record_call c w)) \/
  (applies c w = true /\ cusparse_result V w c = CUSPARSE_STATUS_SUCCESS /\
   CUSPARSE_ERROR_FUNC V c w
   = Ok (effect c (record_call c w)).2 (effect c (record_call c w)).1) \/
  (applies c w = true /\ cusparse_result V w c ≠ CUSPARSE_STATUS_SUCCESS /\
   CUSPARSE_ERROR_FUNC V c w
   = Throw (cusparse_error (call_name c ++ " : ") (cusparse_result V w c))
           (record_call c w)).
Proof.
  unfold CUSPARSE_ERROR_FUNC, bind, cusparse.
  destruct (applies c w); [| by left]. right.
  destruct (cusparse_result V w c) eqn:Hresult;
    try (right; by repeat split).
  left. repeat split. by destruct (effect c (record_call c w)).
Qed.

Lemma CUSPARSE_ERROR_FUNC_Throw V c w e w' :
  CUSPARSE_ERROR_FUNC V c w = Throw e w' ->
  cusparse_result V w c ≠ CUSPARSE_STATUS_SUCCESS /\
  e = cusparse_error (call_name c ++ " : ") (cusparse_result V w c) /\
  w' = record_call c w.
Proof.
  destruct (CUSPARSE_ERROR_FUNC_cases V c w)
    as [[_ ->] | [(_ & _ & ->) | (_ & Herr & ->)]]; [done | done |].
  by intros [= <- <-].
Qed.

Lemma CUSPARSE_ERROR_FUNC_Fault V c w w' :
  CUSPARSE_ERROR_FUNC V c w = Fault w' -> applies c w = false.
Proof.
  by destruct (CUSPARSE_ERROR_FUNC_cases V c w)
    as [[? _] | [(_ & _ & ->) | (_ & Herr & ->)]].
Qed.

Lemma bind_Throw_inv {A B} (m : M A) (k : A -> M B) w e w' :
  bind m k w = Throw e w' ->
  m w = Throw e w' \/ exists a w1, m w = Ok a w1 /\ k a w1 = Throw e w'.
Proof.
  unfold bind. destruct (m w) as [a w1 | e1 w1 | w1].
  - intros Hk. right. by exists a, w1.
  - intros [= -> ->]. by left.
  - done.
Qed.

Lemma bind_Fault_inv {A B} (m : M A) (k : A -> M B) w w' :
  bind m k w = Fault w' ->
  m w = Fault w' \/ exists a w1, m w = Ok a w1 /\ k a w1 = Fault w'.
Proof.
  unfold bind. destruct (m w) as [a w1 | e1 w1 | w1].
  - intros Hk. right. by exists a, w1.
  - done.
  - intros [= ->]. by left.
Qed.

(** The ways the creation path throws. *)
Lemma get_handle_create_Throw V self key stream w e w' :
  get_handle_create V self key stream w = Throw e w' ->
  (e = cusparse_error "cusparseCreate : " (cusparse_result V w cusparseCreate) /\
   cusparse_result V w cusparseCreate ≠ CUSPARSE_STATUS_SUCCESS /\
   w' = record_call cusparseCreate w) \/
  (let handle := fresh ({[0]} ∪ dom (handles w)) in
   let w1 := set_handles (<[handle := 0]> (handles w)) (record_call cusparseCreate w) in
   let err := cusparse_result V w1 (cusparseSetStream handle stream) in
   e = cusparse_error "cusparseSetStream : " err /\
   err ≠ CUSPARSE_STATUS_SUCCESS /\
   w' = record_call (cusparseSetStream handle stream) w1).
Proof.
  unfold get_handle_create. intros Hthrow.
  apply bind_Throw_inv in Hthrow as [Hcreate | (h & w1 & Hcreate & Hthrow)].
  { apply CUSPARSE_ERROR_FUNC_Throw in Hcreate as (? & -> & ->). by left. }
  apply CUSPARSE_ERROR_FUNC_Ok in Hcreate as (_ & _ & [= <- <-]).
  apply bind_Throw_inv in Hthrow as [Hset | (? & w2 & _ & Hthrow)].
  { apply CUSPARSE_ERROR_FUNC_Throw in Hset as (? & -> & ->). by right. }
  unfold bind, atomic_new, mapper_insert, contextSetExtendedDeleter, modify in Hthrow.
  simpl in Hthrow. by destruct (cusparse_handle_mapper_ w2 !! key).
Qed.

Lemma get_handle_create_not_Fault V self key stream w w' :
  get_handle_create V self key stream w ≠ Fault w'.
Proof.
  unfold get_handle_create. intros Hfault.
  apply bind_Fault_inv in Hfault as [Hcreate | (h & w1 & Hcreate & Hfault)].
  { by apply CUSPARSE_ERROR_FUNC_Fault in Hcreate. }
  apply CUSPARSE_ERROR_FUNC_Ok in Hcreate as (_ & _ & [= <- <-]).
  apply bind_Fault_inv in Hfault as [Hset | (? & w2 & _ & Hfault)].
  { apply CUSPARSE_ERROR_FUNC_Fault in Hset. simpl in Hset.
    by rewrite lookup_insert_eq in Hset. }
  unfold bind, atomic_new, mapper_insert, contextSetExtendedDeleter, modify in Hfault.
  simpl in Hfault. by destruct (cusparse_handle_mapper_ w2 !! key).
Qed.

(** The ways the lookup throws: on the stream query or on the rebinding of
    a handle it found. *)
Lemma get_handle_lookup_Throw V key stream w e w' :
  get_handle_lookup V key stream w = Throw e w' ->
  exists handle,
    cached key handle w /\
    ((e = cusparse_error "cusparseGetStream : "
            (cusparse_result V w (cusparseGetStream handle)) /\
      cusparse_result V w (cusparseGetStream handle) ≠ CUSPARSE_STATUS_SUCCESS /\
      w' = record_call (cusparseGetStream handle) w) \/
     (let w1 := record_call (cusparseGetStream handle) w in
      let err := cusparse_result V w1 (cusparseSetStream handle stream) in
      cusparse_result V w (cusparseGetStream handle) = CUSPARSE_STATUS_SUCCESS /\
      default 0 (handles w !! handle) ≠ stream /\
      e = cusparse_error "cusparseSetStream : " err /\
      err ≠ CUSPARSE_STATUS_SUCCESS /\
      w' = record_call (cusparseSetStream handle stream) w1)).
Proof.
  unfold get_handle_lookup, bind at 1, gets.
  destruct (cusparse_handle_mapper_ w !! key) as [second |] eqn:Hfind; [| done].
  destruct (decide (second = 0)); [done |].
  unfold bind at 1, atomic_load.
  destruct (atomics w !! second) as [h |] eqn:Hload; [| done].
  destruct (decide (h ≠ 0)); [| done].
  intros Hthrow. exists h. split; [by exists second |].
  apply bind_Throw_inv in Hthrow as [Hget | (current & w1 & Hget & Hthrow)].
  { apply CUSPARSE_ERROR_FUNC_Throw in Hget as (? & -> & ->). by left. }
  apply CUSPARSE_ERROR_FUNC_Ok in Hget as (_ & Hok & [= <- <-]).
  apply bind_Throw_inv in Hthrow as [Hset | (? & ? & _ & [=])].
  destruct (decide (_ ≠ stream)) as [Hdiff |]; [| done].
  apply bind_Throw_inv in Hset as [Hset | (? & ? & _ & [=])].
  apply CUSPARSE_ERROR_FUNC_Throw in Hset as (? & -> & ->). by right.
Qed.

(** The ways the lookup faults: the element points to a freed atomic, or
    the atomic holds a handle that is not live. *)
Lemma get_handle_lookup_Fault V key stream w w' :
  get_handle_lookup V key stream w = Fault w' ->
  exists ptr,
    cusparse_handle_mapper_ w !! key = Some ptr /\ ptr ≠ 0 /\
    (atomics w !! ptr = None \/
     exists handle, atomics w !! ptr = Some handle /\ handle ≠ 0 /\
                    handles w !! handle = None).
Proof.
  unfold get_handle_lookup, bind at 1, gets.
  destruct (cusparse_handle_mapper_ w !! key) as [second |] eqn:Hfind; [| done].
  destruct (decide (second = 0)); [done |].
  unfold bind at 1, atomic_load. intros Hfault.
  exists second. split; [done |]. split; [done |].
  destruct (atomics w !! second) as [h |] eqn:Hload; [| by left].
  destruct (decide (h ≠ 0)); [| done].
  right. exists h. split; [done |]. split; [done |].
  apply bind_Fault_inv in Hfault as [Hget | (current & w1 & Hget & Hfault)].
  { apply CUSPARSE_ERROR_FUNC_Fault in Hget. simpl in Hget.
    apply bool_decide_eq_false in Hget. by apply eq_None_not_Some. }
  apply CUSPARSE_ERROR_FUNC_Ok in Hget as (Hlive & _ & [= <- <-]).
  apply bind_Fault_inv in Hfault as [Hset | (? & ? & _ & [=])].
  destruct (decide (_ ≠ stream)); [| done].
  apply bind_Fault_inv in Hset as [Hset | (? & ? & _ & [=])].
  apply CUSPARSE_ERROR_FUNC_Fault in Hset. simpl in Hset, Hlive. congruence.
Qed.

(** X4: on a cache as [get_handle] builds it, a request never
    touches an atomic that was freed, and returns a handle when every
    vendor call succeeds. *)
Theorem get_handle_fresh_safe (V : vendor) (sc : CusparseScopedContextHandler)
    (queue : sycl_queue) (w : world) :
  cache_fresh w ->
  (forall w', get_handle V sc queue w ≠ Fault w') /\
  ((forall w1 c, cusparse_result V w1 c = CUSPARSE_STATUS_SUCCESS) ->
   exists handle w', get_handle V sc queue w = Ok handle w').
Proof.
  intros Hfresh.
  assert (Hsafe : forall w', get_handle V sc queue w ≠ Fault w').
  { intros w' Hfault. unfold get_handle in Hfault.
    apply bind_Fault_inv in Hfault as [Hlookup | ([h |] & w1 & _ & Hfault)].
    - apply get_handle_lookup_Fault in Hlookup as (ptr & Hkey & _ & Hbad).
      destruct Hfresh as (Hcells & _ & Hmap & _).
      destruct (Hmap _ _ Hkey) as [h Hh].
      destruct Hbad as [Hnone | (h' & Hh' & _ & Hdead)]; [congruence |].
      destruct (Hcells _ _ Hh') as (_ & _ & [s Hs]). congruence.
    - done.
    - by apply get_handle_create_not_Fault in Hfault. }
  split; [exact Hsafe |]. intros Hok.
  destruct (get_handle V sc queue w) as [h w' | e w' | w'] eqn:Hget.
  - by exists h, w'.
  - exfalso. unfold get_handle in Hget.
    apply bind_Throw_inv in Hget as [Hlookup | ([h |] & w1 & _ & Hthrow)].
    + apply get_handle_lookup_Throw in Hlookup
        as (h & _ & [(_ & Herr & _) | (_ & _ & _ & Herr & _)]);
        by rewrite Hok in Herr.
    + done.
    + apply get_handle_create_Throw in Hthrow
        as [(_ & Herr & _) | (_ & Herr & _)]; by rewrite Hok in Herr.
  - by destruct (Hsafe w').
Qed.

(** X5: when [get_handle] throws, the exception is the
    [cusparse_error] of the vendor call issued last, with the status that
    call returned, and the cache has lost nothing it held and gained
    nothing: atomics, deleters and thread context are unchanged, the map
    has no new element, and every handle that was cached still is. *)
Theorem get_handle_failure_atomic (V : vendor) (sc : CusparseScopedContextHandler)
    (queue : sycl_queue) (w w' : world) (e : exception) :
  get_handle V sc queue w = Throw e w' ->
  (exists c err,
     e = cusparse_error (call_name c ++ " : ") err /\
     err ≠ CUSPARSE_STATUS_SUCCESS /\
     last (trace w') = Some c) /\
  atomics w' = atomics w /\
  deleters w' = deleters w /\
  current_context w' = current_context w /\
  (forall key ptr, cusparse_handle_mapper_ w' !! key = Some ptr ->
                   cusparse_handle_mapper_ w !! key = Some ptr) /\
  (forall key handle, cached key handle w -> cached key handle w').
Proof.
  intros Hget. unfold get_handle in Hget.
  apply bind_Throw_inv in Hget as [Hlookup | ([h |] & w1 & Hlookup & Hthrow)].
  - apply get_handle_lookup_Throw in Hlookup
      as (h & _ & [(-> & Herr & ->) | (_ & _ & -> & Herr & ->)]).
    + split; [| done].
      exists (cusparseGetStream h), (cusparse_result V w (cusparseGetStream h)).
      split; [done |]. split; [done |]. simpl. apply last_snoc.
    + split; [| done]. eexists (cusparseSetStream h _), _.
      split; [done |]. split; [done |]. simpl. apply last_snoc.
  - done.
  - pose proof (get_handle_lookup_None _ _ _ _ _ Hlookup) as (Hstale & _).
    apply get_handle_lookup_None_exact in Hlookup as [-> _].
    set (key0 := get_native_context (placedContext_ sc)) in *.
    assert (Hsub : forall key ptr,
              delete key0 (cusparse_handle_mapper_ w) !! key = Some ptr ->
              cusparse_handle_mapper_ w !! key = Some ptr).
    { intros key ptr Hkey. by apply lookup_delete_Some in Hkey as [_ Hkey]. }
    assert (Hcached : forall key handle mapper' handles' trace',
              cached key handle w ->
              cached key handle
                (World (current_context w) handles' (atomics w)
                   (delete key0 (cusparse_handle_mapper_ w)) mapper' trace')).
    { intros key handle ? ? ? Hc. destruct (decide (key = key0)) as [-> | Hne].
      - by destruct (Hstale handle).
      - destruct Hc as (ptr & Hkey & ? & ? & ?). exists ptr. simpl.
        by rewrite lookup_delete_ne. }
    apply get_handle_create_Throw in Hthrow as [(-> & Herr & ->) | (-> & Herr & ->)].
    + split; [| repeat split; try done; intros; by apply Hcached].
      eexists cusparseCreate, _. split; [done |]. split; [done |].
      simpl. apply last_snoc.
    + split; [| repeat split; try done; intros; by apply Hcached].
      eexists (cusparseSetStream _ _), _. split; [done |]. split; [done |].
      simpl. apply last_snoc.
Qed.

(** X6: the handle that is lost.  On a cache as [get_handle]
    builds it, a request that throws either failed on the handle it found,
    or failed in [cusparseCreate] with nothing created, or failed in
    [cusparseSetStream] right after [cusparseCreate]: then the new handle
    is live, no atomic holds it and no deleter was registered, so that
    neither the teardown nor a callback will destroy it. *)
Theorem get_handle_throw_cases (V : vendor) (sc : CusparseScopedContextHandler)
    (queue : sycl_queue) (w w' : world) (e : exception) :
  cache_fresh w ->
  get_handle V sc queue w = Throw e w' ->
  let key := get_native_context (placedContext_ sc) in
  (exists handle, cached key handle w /\ dom (handles w') = dom (handles w) /\
                  cusparse_handle_mapper_ w' = cusparse_handle_mapper_ w) \/
  (cusparse_handle_mapper_ w !! key = None /\
   e = cusparse_error "cusparseCreate : " (cusparse_result V w cusparseCreate) /\
   w' = record_call cusparseCreate w) \/
  (cusparse_handle_mapper_ w !! key = None /\
   exists handle err,
     e = cusparse_error "cusparseSetStream : " err /\
     handle ≠ nullptr /\ handles w !! handle = None /\
     handles w' = <[handle := nullptr]> (handles w) /\
     trace w' = trace w ++ [cusparseCreate; cusparseSetStream handle (get_stream queue)] /\
     (forall ptr, atomics w' !! ptr ≠ Some handle) /\
     cusparse_handle_mapper_ w' = cusparse_handle_mapper_ w /\
     deleters w' = deleters w).
Proof.
  intros Hfresh Hget key. unfold get_handle in Hget. fold key in Hget.
  apply bind_Throw_inv in Hget as [Hlookup | ([h |] & w1 & Hlookup & Hthrow)].
  - left. apply get_handle_lookup_Throw in Hlookup
      as (h & Hcached & [(_ & _ & ->) | (_ & _ & _ & _ & ->)]); by exists h.
  - done.
  - right.
    apply get_handle_lookup_fresh in Hlookup as [_ Hnone]; [| done].
    destruct (Hnone eq_refl) as [Hkey ->].
    apply get_handle_create_Throw in Hthrow as [(-> & Herr & ->) | (-> & Herr & ->)];
      [by left | right].
    split; [done |].
    destruct (fresh_pointer (dom (handles w))) as [Hh Hhfresh].
    apply not_elem_of_dom in Hhfresh.
    eexists _, _. split; [done |]. split; [done |]. split; [done |].
    split; [done |]. split; [simpl; by rewrite <- app_assoc |].
    split; [| done]. simpl. intros ptr Hptr.
    destruct Hfresh as (Hcells & _).
    destruct (Hcells _ _ Hptr) as (_ & _ & [s Hs]). congruence.
Qed.

(** X7: two requests under different contexts, with any
    requests between them, return different handles. *)
Theorem get_handle_contexts_apart (V : vendor) (sc sc' : CusparseScopedContextHandler)
    (queue queue' : sycl_queue)
    (between : list (CusparseScopedContextHandler * sycl_queue))
    (w w1 w2 w3 : world) (handle handle' : N) (others : list N) :
  cache_fresh w ->
  get_handle V sc queue w = Ok handle w1 ->
  get_handles V between w1 = Ok others w2 ->
  get_handle V sc' queue' w2 = Ok handle' w3 ->
  get_native_context (placedContext_ sc') ≠ get_native_context (placedContext_ sc) ->
  handle' ≠ handle.
Proof.
  intros Hfresh Hfirst Hbetween Hsecond Hkeys Heq. subst handle'.
  assert (Hfresh3 : cache_fresh w3).
  { eapply get_handle_fresh; [| exact Hsecond].
    eapply get_handles_fresh; [| exact Hbetween].
    by eapply get_handle_fresh. }
  apply get_handle_cached in Hfirst as [Hcached _].
  apply (get_handles_cached _ _ _ _ _ Hbetween) in Hcached.
  apply get_handle_cached in Hsecond as [Hcached' Hframe].
  apply Hframe in Hcached.
  destruct Hcached as (ptr & Hkey & _ & Hcell & _).
  destruct Hcached' as (ptr' & Hkey' & _ & Hcell' & _).
  destruct Hfresh3 as (_ & Hinj & _ & Hkeyinj & _).
  assert (ptr = ptr') as -> by (by apply (Hinj _ _ handle)).
  apply Hkeys. by apply (Hkeyinj _ _ ptr').
Qed.

(** ** One element, one handle, one [cusparseCreate] per context *)

Lemma get_handle_fresh_growth V sc queue w handle w' :
  cache_fresh w ->
  get_handle V sc queue w = Ok handle w' ->
  dom (cusparse_handle_mapper_ w')
  = {[get_native_context (placedContext_ sc)]} ∪ dom (cusparse_handle_mapper_ w) /\
  (count_calls cusparseCreate (trace w') + size (cusparse_handle_mapper_ w)
   = count_calls cusparseCreate (trace w) + size (cusparse_handle_mapper_ w'))%nat.
Proof.
  intros Hfresh Hget. unfold get_handle in Hget.
  apply bind_Ok_inv in Hget as ([h |] & w1 & Hlookup & Hrest).
  - injection Hrest as <- <-.
    apply get_handle_lookup_Some in Hlookup
      as ((ptr & Hkey & _) & _ & _ & Hmapper & _ & _ & Hcount).
    rewrite Hmapper, Hcount. split; [| done].
    apply (elem_of_dom_2 (D := gset N)) in Hkey. symmetry.
    apply subseteq_union_1_L. by apply singleton_subseteq_l.
  - apply get_handle_lookup_fresh in Hlookup as [_ Hnone]; [| done].
    destruct (Hnone eq_refl) as [Hkey ->].
    apply get_handle_create_exact in Hrest as [_ ->]; [| done].
    cbn [trace cusparse_handle_mapper_].
    rewrite dom_insert_L, map_size_insert_None by done.
    split; [done |].
    change [cusparseCreate; cusparseSetStream handle (get_stream queue)]
      with ([cusparseCreate] ++ [cusparseSetStream handle (get_stream queue)]).
    rewrite !count_calls_app, !count_calls_one.
    destruct (decide (cusparseCreate = cusparseCreate)); [| done].
    destruct (decide (cusparseSetStream _ _ = cusparseCreate)); [done |].
    lia.
Qed.

(** X8: after any sequence of requests that all return,
    the map has an element for each context asked for and for no other,
    and the number of [cusparseCreate] calls made is the number of
    elements gained; one handle is returned per request. *)
Theorem get_handles_one_per_context (V : vendor)
    (requests : list (CusparseScopedContextHandler * sycl_queue))
    (w w' : world) (handles : list N) :
  cache_fresh w ->
  get_handles V requests w = Ok handles w' ->
  dom (cusparse_handle_mapper_ w')
  = list_to_set ((fun request => get_native_context (placedContext_ request.1))
                   <$> requests)
    ∪ dom (cusparse_handle_mapper_ w) /\
  (count_calls cusparseCreate (trace w') + size (cusparse_handle_mapper_ w)
   = count_calls cusparseCreate (trace w) + size (cusparse_handle_mapper_ w'))%nat /\
  length handles = length requests.
Proof.
  revert w handles. induction requests as [| [sc queue] rest IH]; intros w hs Hfresh.
  - intros [= <- <-]. split; [| done]. rewrite fmap_nil, list_to_set_nil.
    by rewrite (left_id_L ∅ (∪)).
  - cbn [get_handles fst snd]. intros Hrun.
    apply bind_Ok_inv in Hrun as (h1 & w1 & Hfirst & Hrun).
    apply bind_Ok_inv in Hrun as (hs1 & w2 & Hrest & [= <- <-]).
    pose proof (get_handle_fresh _ _ _ _ _ _ Hfresh Hfirst) as Hfresh1.
    destruct (get_handle_fresh_growth _ _ _ _ _ _ Hfresh Hfirst) as [Hdom1 Hcount1].
    destruct (IH _ _ Hfresh1 Hrest) as (Hdom & Hcount & Hlen).
    split; [| split; [lia | simpl; lia]].
    rewrite Hdom, Hdom1, fmap_cons, list_to_set_cons. cbn [fst].
    rewrite (assoc_L (∪)). f_equal. apply (comm_L (∪)).
Qed.


(** ** The life of a cache: requests, exit, teardown and callbacks *)

(** *** The states of one atomic *)

Lemma cell_ok_sym handle x y a d live :
  cell_ok handle x y a d live -> cell_ok handle y x a d live.
Proof. destruct x, y; simpl; tauto. Qed.

(** The handle of an atomic has to be live only as long as it has not been
    passed to [cusparseDestroy]. *)
Lemma cell_ok_live handle x y a d (live live' : Prop) :
  (d = 0%Z -> live -> live') ->
  cell_ok handle x y a d live -> cell_ok handle x y a d live'.
Proof. destruct x, y; simpl; intros; intuition lia. Qed.

Lemma cell_ok_alive handle x y a live :
  cell_ok handle x y a 0 live -> live.
Proof. destruct x, y; simpl; intuition lia. Qed.

Lemma cell_ok_exchange handle y a d live :
  handle ≠ 0 ->
  cell_ok handle Todo y a d live ->
  exists v, a = Some v /\ cell_ok handle (Holds v) y (Some 0) d live.
Proof.
  intros Hh. destruct y as [| v' |]; simpl.
  - intros (-> & -> & Hlive). by exists handle.
  - intros (-> & -> & -> & Hlive). exists 0. auto 10.
  - intros (-> & ->). exists 0. auto.
Qed.

Lemma cell_ok_destroy handle v y a d live :
  v ≠ 0 ->
  cell_ok handle (Holds v) y a d live ->
  v = handle /\ d = 0%Z /\ live /\
  forall live' : Prop, cell_ok handle Finished y a (d + 1) live'.
Proof.
  intros Hv. destruct y as [| v' |]; simpl.
  - intros (-> & -> & -> & Hlive). auto.
  - intros (-> & -> & Hlive & [[-> ->] | [-> ->]]); [| done]. auto 10.
  - intros [(-> & _) | (-> & -> & -> & Hlive)]; [done |]. auto.
Qed.

Lemma cell_ok_delete handle y a d live :
  handle ≠ 0 ->
  cell_ok handle (Holds 0) y a d live ->
  is_Some a /\ cell_ok handle Finished y None d live.
Proof.
  intros Hh. destruct y as [| v' |]; simpl.
  - intros (<- & _). done.
  - intros (-> & -> & Hlive & [[<- _] | [_ ->]]); [done |]. split; [done |]. auto.
  - intros [(_ & -> & ->) | (<- & _)]; [| done]. split; [done |]. auto.
Qed.



(** An atomic the destructor has not come to is allocated; one that holds
    a handle has been touched by no party. *)
Lemma cell_ok_allocated handle x a d live :
  cell_ok handle x Todo a d live -> is_Some a.
Proof. destruct x; simpl; intros; intuition (subst; eauto). Qed.

Lemma cell_ok_full handle x y v d live :
  v ≠ 0 -> cell_ok handle x y (Some v) d live ->
  v = handle /\ x = Todo /\ y = Todo /\ d = 0%Z /\ live.
Proof.
  intros Hv. destruct x, y; simpl; intros; intuition (try congruence); simplify_eq; done.
Qed.

(** What [destroy_or_delete] does with a handle, and with null. *)
Lemma destroy_or_delete_handle V ptr handle w :
  handle ≠ 0 -> is_Some (handles w !! handle) ->
  exists w',
    (destroy_or_delete V ptr handle w = Ok tt w' \/
     exists e, destroy_or_delete V ptr handle w = Throw e w') /\
    trace w' = trace w ++ [cusparseDestroy handle] /\
    atomics w' = atomics w /\
    cusparse_handle_mapper_ w' = cusparse_handle_mapper_ w /\
    deleters w' = deleters w /\
    (handles w' = handles w \/ handles w' = delete handle (handles w)).
Proof.
  intros Hh Hlive. unfold destroy_or_delete.
  destruct (decide (handle ≠ 0)) as [_ |]; [| done].
  unfold bind, CUSPARSE_ERROR_FUNC, bind, cusparse. simpl.
  rewrite bool_decide_eq_true_2 by done.
  destruct (cusparse_result V w (cusparseDestroy handle)); simpl;
    eexists; (split; [first [by left | right; by eexists] |]); simpl; auto 10.
Qed.

Lemma destroy_or_delete_null V ptr w :
  ptr ≠ 0 -> is_Some (atomics w !! ptr) ->
  destroy_or_delete V ptr 0 w = Ok tt (set_atomics (delete ptr (atomics w)) w).
Proof.
  intros Hptr [v Hv]. unfold destroy_or_delete, atomic_delete.
  destruct (decide (0 ≠ 0)) as [|_]; [done |].
  destruct (decide (ptr = 0)); [done |]. by rewrite Hv.
Qed.

(** Counting in the history of destroy calls. *)
Lemma destroys_record w r pc cbs log ptr ptr' handle :
  destroys ptr (Machine w r pc cbs (record_destroy ptr' handle log))
  = Nat.add (destroys ptr (Machine w r pc cbs log))
            (if decide (handle ≠ 0 /\ ptr' = ptr) then 1%nat else 0%nat).
Proof.
  unfold destroys, record_destroy. simpl.
  destruct (decide (handle ≠ 0)) as [Hh | Hh].
  - rewrite filter_app, length_app, filter_cons, filter_nil. simpl.
    destruct (decide (ptr' = ptr)), (decide (handle ≠ 0 /\ ptr' = ptr)); simpl; tauto || lia.
  - destruct (decide (handle ≠ 0 /\ ptr' = ptr)); [tauto | lia].
Qed.

Lemma destroys_none ptr m :
  ptr ∉ (destroyed m).*1 -> destroys ptr m = 0%nat.
Proof.
  unfold destroys. intros Hnot.
  induction (destroyed m) as [| entry log IH]; [done |].
  rewrite fmap_cons, not_elem_of_cons in Hnot. destruct Hnot as [Hne Hnot].
  rewrite filter_cons. destruct (decide (entry.1 = ptr)); [congruence | by apply IH].
Qed.

Lemma destroy_calls_app t1 t2 :
  destroy_calls (t1 ++ t2) = destroy_calls t1 ++ destroy_calls t2.
Proof. apply filter_app. Qed.

Lemma destroy_calls_record ptr handle log :
  cusparseDestroy <$> (record_destroy ptr handle log).*2
  = (cusparseDestroy <$> log.*2) ++ if decide (handle ≠ 0) then [cusparseDestroy handle] else [].
Proof.
  unfold record_destroy. destruct (decide (handle ≠ 0)).
  - by rewrite !fmap_app.
  - by rewrite app_nil_r.
Qed.

(** Views of the parties on the atomics a step does not touch. *)
Lemma callback_view_insert_ne w w' r r' pc pc' cbs log log' ptr ptr' cpc :
  ptr ≠ ptr' ->
  callback_view (Machine w' r' pc' (<[ptr' := cpc]> cbs) log') ptr
  = callback_view (Machine w r pc cbs log) ptr.
Proof. intros Hne. unfold callback_view. simpl. by rewrite lookup_insert_ne. Qed.

Lemma callback_view_insert w r pc cbs log ptr cpc :
  callback_view (Machine w r pc (<[ptr := cpc]> cbs) log) ptr
  = match cpc with
    | CClaimed v => Holds v
    | CDone | CThrown _ => Finished
    | CEntry => Todo
    end.
Proof. unfold callback_view. simpl. by rewrite lookup_insert_eq. Qed.

Lemma drain_view_todo_ne elements handle_pair rest ptr pc :
  handle_pair.2 ≠ ptr ->
  pc ≠ DAlive ->
  drain_todo pc = rest.*2 ->
  (forall hp v r, pc = DClaimed hp v r -> hp.2 ≠ ptr) ->
  drain_view elements pc ptr = drain_view elements (DLoop (handle_pair :: rest)) ptr.
Proof.
  intros Hne Halive Htodo Hpc.
  assert (Hin : ptr ∈ handle_pair.2 :: rest.*2 <-> ptr ∈ rest.*2).
  { rewrite elem_of_cons. intuition congruence. }
  assert (Hgeneric :
    (if decide (ptr ∈ drain_todo pc) then Todo
     else if decide (ptr ∈ elements.*2) then Finished else Todo)
    = drain_view elements (DLoop (handle_pair :: rest)) ptr).
  { unfold drain_view. cbn [drain_todo]. rewrite fmap_cons, Htodo.
    destruct (decide (ptr ∈ rest.*2)), (decide (ptr ∈ handle_pair.2 :: rest.*2));
      try reflexivity; tauto. }
  destruct pc as [| r | hp v r | | e r]; try exact Hgeneric; [done |].
  unfold drain_view at 1. specialize (Hpc hp v r eq_refl).
  destruct (decide (hp.2 = ptr)); [done | exact Hgeneric].
Qed.

Lemma drain_view_head elements handle_pair rest :
  drain_view elements (DLoop (handle_pair :: rest)) handle_pair.2 = Todo.
Proof.
  unfold drain_view. cbn [drain_todo]. rewrite fmap_cons.
  destruct (decide (handle_pair.2 ∈ handle_pair.2 :: rest.*2)) as [| Hnot]; [done |].
  destruct Hnot. apply list_elem_of_here.
Qed.

Lemma drain_view_claimed elements handle_pair v rest :
  drain_view elements (DClaimed handle_pair v rest) handle_pair.2 = Holds v.
Proof. unfold drain_view. by destruct (decide (handle_pair.2 = handle_pair.2)). Qed.

Lemma drain_view_passed elements pc ptr :
  pc ≠ DAlive ->
  (forall hp v r, pc = DClaimed hp v r -> False) ->
  ptr ∉ drain_todo pc -> ptr ∈ elements.*2 ->
  drain_view elements pc ptr = Finished.
Proof.
  intros Halive Hpc Hnot Hin.
  destruct pc as [| r | hp v r | | e r]; [done | | by destruct (Hpc hp v r) | |];
    unfold drain_view;
    (destruct (decide (ptr ∈ _)); [done |]);
    by destruct (decide (ptr ∈ elements.*2)).
Qed.

Lemma lookup_insert_keeps {A} (cbs : gmap N A) ptr ptr' (x : A) :
  is_Some (cbs !! ptr) -> is_Some (<[ptr' := x]> cbs !! ptr).
Proof.
  intros Hptr. destruct (decide (ptr' = ptr)) as [-> |].
  - by rewrite lookup_insert_eq.
  - by rewrite lookup_insert_ne.
Qed.

(** A step of a callback keeps the invariant, and does not fault. *)
Lemma callback_step_inv V base cells userData m :
  race_inv base cells m ->
  exists m', callback_step V userData m = Some m' /\
             race_inv base cells m' /\
             drain m' = drain m /\
             (lifelong cells m -> lifelong cells m').
Proof.
  intros Hinv.
  pose proof Hinv as (Hwf & Hlink & Hrange & Hkeys & Hdel & Hlog & Hdup & Halloc & Hcells & Hmap).
  unfold callback_step.
  destruct (callbacks m !! userData) as [cpc |] eqn:Hpc.
  2: { exists m. by split; [| split; [| split]]. }
  destruct (Hkeys userData) as [hq Hhq]; [by rewrite Hpc |].
  destruct (Hcells _ _ Hhq) as (Hq & Hhq0 & Hcell).
  unfold callback_view at 1 in Hcell. rewrite Hpc in Hcell.
  assert (Hkeys' : forall cpc' ptr,
            is_Some (<[userData := cpc']> (callbacks m) !! ptr) ->
            is_Some (cells !! ptr)).
  { intros cpc' ptr. destruct (decide (ptr = userData)) as [-> | Hne]; [by rewrite Hhq |].
    rewrite lookup_insert_ne by done. apply Hkeys. }
  assert (Hlife : forall w' cpc' log',
            cpc' ≠ CEntry ->
            cusparse_handle_mapper_ w' = cusparse_handle_mapper_ (shared m) ->
            lifelong cells m ->
            lifelong cells (Machine w' (range m) (drain m)
                              (<[userData := cpc']> (callbacks m)) log')).
  { intros w' cpc' log' Hcpc' Hmapper [Hreg Hpending]. split.
    - intros ptr Hptr. simpl. by apply lookup_insert_keeps, Hreg.
    - intros ptr. simpl. destruct (decide (ptr = userData)) as [-> | Hne].
      + rewrite lookup_insert_eq. congruence.
      + rewrite lookup_insert_ne, Hmapper by done. apply Hpending. }
  destruct m as [w r pc cbs log]. simpl in *.
  destruct cpc as [| v | | e]; try (by eexists; split; [| split; [| split]]).
  - destruct (decide (userData = 0)); [done |].
    apply cell_ok_exchange in Hcell as (v & Hv & Hcell); [| done].
    unfold atomic_exchange. rewrite Hv.
    eexists. split; [done |]. split; [| split; [done |]].
    2: { by apply Hlife. }
    split; [done |]. split; [done |]. split; [done |].
    split; [by apply Hkeys' |].
    split; [intros d Hd; by apply lookup_insert_keeps, Hdel |].
    split; [done |]. split; [done |].
    split.
    { intros ptr. simpl. destruct (decide (ptr = userData)) as [-> |].
      - by rewrite Hhq.
      - rewrite lookup_insert_ne by done. apply Halloc. }
    split; [| done].
    intros ptr handle Hptr. destruct (Hcells _ _ Hptr) as (Hp & Hh & Hold).
    split; [done |]. split; [done |].
    destruct (decide (ptr = userData)) as [-> | Hne].
    + assert (handle = hq) as -> by congruence.
      rewrite callback_view_insert. simpl. by rewrite lookup_insert_eq.
    + rewrite (callback_view_insert_ne w _ r _ pc _ cbs log) by done.
      simpl. by rewrite lookup_insert_ne.
  - destruct (decide (v = 0)) as [-> | Hv].
    + apply cell_ok_delete in Hcell as [Halloc' Hcell]; [| done].
      rewrite destroy_or_delete_null by done.
      eexists. split; [done |]. split; [| split; [done |]].
      2: { by apply Hlife. }
      change (record_destroy userData 0 log) with log.
      split; [done |]. split; [done |]. split; [done |].
      split; [by apply Hkeys' |].
      split; [intros d Hd; by apply lookup_insert_keeps, Hdel |].
      split; [done |]. split; [done |].
      split.
      { intros ptr. simpl. destruct (decide (ptr = userData)) as [-> |].
        - by rewrite Hhq.
        - rewrite lookup_delete_ne by done. apply Halloc. }
      split; [| done].
      intros ptr handle Hptr. destruct (Hcells _ _ Hptr) as (Hp & Hh & Hold).
      split; [done |]. split; [done |].
      destruct (decide (ptr = userData)) as [-> | Hne].
      * assert (handle = hq) as -> by congruence.
        rewrite callback_view_insert. simpl. by rewrite lookup_delete_eq.
      * rewrite (callback_view_insert_ne w _ r _ pc _ cbs log) by done.
        simpl. by rewrite lookup_delete_ne.
    + apply cell_ok_destroy in Hcell as (-> & Hzero & Hlive & Hcell); [| done].
      destruct (destroy_or_delete_handle V userData hq w Hhq0 Hlive)
        as (w' & Hrun & Htrace & Hatomics & Hmapper & Hdeleters & Hhandles).
      assert (Hgoal : forall cpc', cpc' = CDone \/ (exists e, cpc' = CThrown e) ->
                race_inv base cells
                  (Machine w' r pc (<[userData := cpc']> cbs)
                     (record_destroy userData hq log)) /\
                (lifelong cells (Machine w r pc cbs log) ->
                 lifelong cells (Machine w' r pc (<[userData := cpc']> cbs)
                                   (record_destroy userData hq log)))).
      { intros cpc' Hcpc'. split.
        2: { apply Hlife; [| done]. by destruct Hcpc' as [-> | [e ->]]. }
        split; [done |]. split.
        { simpl. rewrite Htrace, destroy_calls_app, Hlink, destroy_calls_record.
          destruct (decide (hq ≠ 0)); [| done]. by rewrite <- app_assoc. }
        split; [done |]. split; [by apply Hkeys' |].
        split; [intros d Hd; simpl in *; rewrite Hdeleters in Hd;
                by apply lookup_insert_keeps, Hdel |].
        split.
        { intros entry. simpl. unfold record_destroy.
          destruct (decide (hq ≠ 0)); [| done].
          intros [Hentry | ->%list_elem_of_singleton]%elem_of_app; [by apply Hlog | done]. }
        split.
        { intros ptr ptr' handle Hptr Hptr' Hne. rewrite !destroys_record.
          destruct (Hdup _ _ _ Hptr Hptr' Hne); [left | right];
            unfold destroys in *; simpl in *; lia. }
        split; [intros ptr; simpl; rewrite Hatomics; apply Halloc |].
        split; [| simpl; rewrite Hmapper; exact Hmap].
        intros ptr handle Hptr. destruct (Hcells _ _ Hptr) as (Hp & Hh & Hold).
        split; [done |]. split; [done |].
        rewrite destroys_record.
        destruct (decide (ptr = userData)) as [-> | Hne].
        - assert (handle = hq) as -> by congruence.
          rewrite callback_view_insert.
          destruct (decide (hq ≠ 0 /\ userData = userData)) as [_ | Hnot]; [| tauto].
          rewrite Nat2Z.inj_add. simpl. rewrite Hatomics.
          destruct Hcpc' as [-> | [e ->]]; apply Hcell.
        - rewrite (callback_view_insert_ne w _ r _ pc _ cbs log) by done.
          destruct (decide (hq ≠ 0 /\ userData = ptr)) as [[_ ->] |]; [done |].
          rewrite Nat.add_0_r. simpl. rewrite Hatomics.
          eapply cell_ok_live; [| exact Hold].
          intros Hcount Hlive'. simpl in *.
          destruct Hhandles as [-> | ->]; [done |].
          destruct (decide (handle = hq)) as [-> | Hother];
            [| by rewrite lookup_delete_ne].
          destruct (Hdup _ _ _ Hptr Hhq Hne) as [Hd | Hd];
            unfold destroys in *; simpl in *; lia. }
      destruct Hrun as [-> | [e ->]]; eexists; (split; [done |]).
      * destruct (Hgoal CDone (or_introl eq_refl)) as [? ?]. by split; [| split].
      * destruct (Hgoal (CThrown e) (or_intror (ex_intro _ e eq_refl))) as [? ?].
        by split; [| split].
Qed.

(** A step of the destructor keeps the invariant, and does not fault. *)
Lemma drain_step_inv V base cells m :
  race_inv base cells m ->
  exists m', drain_step V m = Some m' /\
             race_inv base cells m' /\
             callbacks m' = callbacks m /\
             (drain m = DAlive -> m' = m) /\
             (lifelong cells m -> lifelong cells m').
Proof.
  intros Hinv.
  pose proof Hinv as (Hwf & Hlink & Hrange & Hkeys & Hdel & Hlog & Hdup & Halloc & Hcells & Hmap).
  unfold drain_step.
  destruct m as [w elements pc cbs log]. simpl in *.
  assert (Hlife : forall w' pc' log',
            pc ≠ DAlive -> pc' ≠ DAlive ->
            lifelong cells (Machine w elements pc cbs log) ->
            lifelong cells (Machine w' elements pc' cbs log')).
  { intros w' pc' log' Hpc Hpc' [Hreg Hpending]. split; [done |].
    intros ptr Hentry. specialize (Hpending ptr Hentry). simpl in *.
    by destruct pc, pc'. }
  destruct pc as [| [| handle_pair rest] | handle_pair v rest | | e rest].
  - by exists (Machine w elements DAlive cbs log).
  - (* the loop is over: clear() *)
    eexists. split; [done |]. split; [| split; [done |]; split; [done |]; by apply Hlife].
    split; [done |]. split; [done |]. split; [done |]. split; [done |]. split; [done |].
    split; [done |]. split; [done |]. split; [done |]. split; [| done].
    intros ptr handle Hptr. destruct (Hcells _ _ Hptr) as (Hp & Hh & Hold). by repeat split.
  - (* the exchange on the next element *)
    destruct Hwf as [Hnodup Hsub]. cbn [drain_todo] in Hnodup, Hsub.
    rewrite fmap_cons in Hnodup, Hsub.
    destruct (Hrange handle_pair.2) as [hq Hhq]; [apply Hsub, list_elem_of_here |].
    destruct (Hcells _ _ Hhq) as (Hq & Hhq0 & Hcell).
    destruct (decide (handle_pair.2 ≠ 0)) as [_ |]; [| done].
    rewrite drain_view_head in Hcell.
    apply cell_ok_sym, cell_ok_exchange in Hcell as (v & Hv & Hcell); [| done].
    unfold atomic_exchange. rewrite Hv.
    eexists. split; [done |]. split; [| split; [done |]; split; [done |]; by apply Hlife].
    split; [done |]. split; [done |]. split; [done |]. split; [done |]. split; [done |].
    split; [done |]. split; [done |].
    split.
    { intros ptr. simpl. destruct (decide (ptr = handle_pair.2)) as [-> |].
      - by rewrite Hhq.
      - rewrite lookup_insert_ne by done. apply Halloc. }
    split; [| done].
    intros ptr handle Hptr. destruct (Hcells _ _ Hptr) as (Hp & Hh & Hold).
    split; [done |]. split; [done |].
    destruct (decide (ptr = handle_pair.2)) as [-> | Hne].
    + assert (handle = hq) as -> by congruence.
      cbn [drain shared range].
      rewrite drain_view_claimed. simpl. rewrite lookup_insert_eq.
      by apply cell_ok_sym.
    + cbn [drain shared range callbacks].
      rewrite (drain_view_todo_ne elements handle_pair rest ptr (DClaimed handle_pair v rest));
        [| done | done | done | by intros hp v' r [= <- _ _]].
      simpl. by rewrite lookup_insert_ne.
  - (* the rest of the body for the element the destructor is on *)
    destruct Hwf as [Hnodup Hsub]. apply NoDup_cons in Hnodup as [Hnotin Hnodup].
    assert (Hrest : rest.*2 ⊆ elements.*2).
    { intros x Hx. by apply Hsub, list_elem_of_further. }
    assert (Hin : handle_pair.2 ∈ elements.*2) by apply Hsub, list_elem_of_here.
    destruct (Hrange handle_pair.2 Hin) as [hq Hhq].
    destruct (Hcells _ _ Hhq) as (Hq & Hhq0 & Hcell).
    rewrite drain_view_claimed in Hcell. apply cell_ok_sym in Hcell.
    assert (Hothers : forall pc' ptr,
              pc' ≠ DAlive ->
              drain_todo pc' = rest.*2 ->
              (forall hp v' r, pc' = DClaimed hp v' r -> False) ->
              ptr ≠ handle_pair.2 ->
              drain_view elements pc' ptr
              = drain_view elements (DClaimed handle_pair v rest) ptr).
    { intros pc' ptr Halive Htodo Hpc' Hne.
      rewrite (drain_view_todo_ne elements handle_pair rest ptr pc'); try done.
      - symmetry. apply drain_view_todo_ne; [done | done | done |].
        by intros hp v' r [= <- _ _].
      - intros hp v' r Heq. by destruct (Hpc' hp v' r). }
    destruct (decide (v = 0)) as [-> | Hv].
    + apply cell_ok_delete in Hcell as [Halloc' Hcell]; [| done].
      unfold bind. rewrite destroy_or_delete_null by done. simpl.
      change (record_destroy handle_pair.2 0 log) with log.
      eexists. split; [done |]. split; [| split; [done |]; split; [done |]; by apply Hlife].
      split; [done |]. split; [done |]. split; [done |]. split; [done |]. split; [done |].
      split; [done |]. split; [done |].
      split.
      { intros ptr. simpl. destruct (decide (ptr = handle_pair.2)) as [-> |].
        - by rewrite Hhq.
        - rewrite lookup_delete_ne by done. apply Halloc. }
      split; [| done].
      intros ptr handle Hptr. destruct (Hcells _ _ Hptr) as (Hp & Hh & Hold).
      split; [done |]. split; [done |].
      destruct (decide (ptr = handle_pair.2)) as [-> | Hne].
      * assert (handle = hq) as -> by congruence.
        cbn [drain shared range].
        rewrite drain_view_passed by (done || by intros ? ? ? [=]).
        simpl. rewrite lookup_delete_eq. by apply cell_ok_sym.
      * cbn [drain shared range callbacks].
        rewrite (Hothers (DLoop rest)); [| done | done | by intros ? ? ? [=] | done].
        simpl. by rewrite lookup_delete_ne.
    + apply cell_ok_destroy in Hcell as (-> & Hzero & Hlive & Hcell); [| done].
      destruct (destroy_or_delete_handle V handle_pair.2 hq w Hhq0 Hlive)
        as (w' & Hrun & Htrace & Hatomics & Hmapper & Hdeleters & Hhandles).
      assert (Hgoal : forall pc' mapper,
                pc' = DLoop rest \/ (exists e, pc' = DThrown e rest) ->
                race_inv base cells
                  (Machine (set_mapper mapper w') elements pc' cbs
                     (record_destroy handle_pair.2 hq log))).
      { intros pc' mapper Hpc'.
        assert (Htodo : drain_todo pc' = rest.*2) by (by destruct Hpc' as [-> | [e ->]]).
        assert (Hnot : forall hp v' r, pc' = DClaimed hp v' r -> False)
          by (by destruct Hpc' as [-> | [e ->]]).
        assert (Halive : pc' ≠ DAlive) by (by destruct Hpc' as [-> | [e ->]]).
        split; [by destruct Hpc' as [-> | [e ->]] |]. split.
        { simpl. rewrite Htrace, destroy_calls_app, Hlink, destroy_calls_record.
          destruct (decide (hq ≠ 0)); [| done]. by rewrite <- app_assoc. }
        split; [done |]. split; [done |].
        split; [intros d Hd; simpl in *; rewrite Hdeleters in Hd; by apply Hdel |].
        split.
        { intros entry. simpl. unfold record_destroy.
          destruct (decide (hq ≠ 0)); [| done].
          intros [Hentry | ->%list_elem_of_singleton]%elem_of_app; [by apply Hlog | done]. }
        split.
        { intros ptr ptr' handle Hptr Hptr' Hne. rewrite !destroys_record.
          destruct (Hdup _ _ _ Hptr Hptr' Hne); [left | right];
            unfold destroys in *; simpl in *; lia. }
        split; [intros ptr; simpl; rewrite Hatomics; apply Halloc |].
        split; [| simpl; intros Heq; by destruct (Halive Heq)].
        intros ptr handle Hptr. destruct (Hcells _ _ Hptr) as (Hp & Hh & Hold).
        split; [done |]. split; [done |].
        rewrite destroys_record.
        destruct (decide (ptr = handle_pair.2)) as [-> | Hne].
        - assert (handle = hq) as -> by congruence.
          cbn [drain range].
          rewrite drain_view_passed by (done || by rewrite Htodo).
          destruct (decide (hq ≠ 0 /\ handle_pair.2 = handle_pair.2)) as [_ | Hno]; [| tauto].
          rewrite Nat2Z.inj_add. simpl. rewrite Hatomics. apply cell_ok_sym, Hcell.
        - cbn [drain range]. rewrite (Hothers pc') by done.
          destruct (decide (hq ≠ 0 /\ handle_pair.2 = ptr)) as [[_ <-] |]; [done |].
          rewrite Nat.add_0_r. simpl. rewrite Hatomics.
          eapply cell_ok_live; [| exact Hold].
          intros Hcount Hlive'. simpl in *.
          destruct Hhandles as [-> | ->]; [done |].
          destruct (decide (handle = hq)) as [-> | Hother];
            [| by rewrite lookup_delete_ne].
          destruct (Hdup _ _ _ Hptr Hhq Hne) as [Hd | Hd];
            unfold destroys in *; simpl in *; lia. }
      unfold bind. destruct Hrun as [-> | [e ->]]; simpl;
        eexists; (split; [done |]);
        (split; [apply Hgoal; eauto | split; [done |]; split; [done |]; by apply Hlife]).
  - by exists (Machine w elements DDone cbs log).
  - by exists (Machine w elements (DThrown e rest) cbs log).
Qed.

(** A request, seen from the atomics. *)
Lemma get_handle_lookup_Some_exact V key stream w handle w' :
  get_handle_lookup V key stream w = Ok (Some handle) w' ->
  is_Some (handles w !! handle) /\
  (w' = record_call (cusparseGetStream handle) w \/
   w' = set_handles (<[handle := stream]> (handles w))
          (record_call (cusparseSetStream handle stream)
             (record_call (cusparseGetStream handle) w))).
Proof.
  unfold get_handle_lookup, bind at 1, gets.
  destruct (cusparse_handle_mapper_ w !! key) as [second |]; [| discriminate].
  destruct (decide (second = 0)); [discriminate |].
  unfold bind at 1, atomic_load.
  destruct (atomics w !! second) as [h |]; [| discriminate].
  destruct (decide (h ≠ 0)); [| discriminate].
  intros Hrest.
  apply bind_Ok_inv in Hrest as (current & w1 & Hget & Hrest).
  apply CUSPARSE_ERROR_FUNC_Ok in Hget as (Hlive & _ & [= <- <-]).
  simpl in Hlive. apply bool_decide_eq_true in Hlive.
  apply bind_Ok_inv in Hrest as ([] & w2 & Hset & [= <- <-]).
  split; [done |].
  destruct (decide (_ ≠ stream)).
  - apply bind_Ok_inv in Hset as (? & w3 & Hset & [= <-]).
    apply CUSPARSE_ERROR_FUNC_Ok in Hset as (_ & _ & [= <- _]). by right.
  - injection Hset as <-. by left.
Qed.

Lemma stale_absent key w :
  cusparse_handle_mapper_ w !! key = None -> stale key w.
Proof. intros Hkey ptr. by rewrite Hkey. Qed.

Lemma get_handle_effect V sc queue w :
  (forall key ptr, cusparse_handle_mapper_ w !! key = Some ptr ->
     is_Some (atomics w !! ptr)) ->
  (forall ptr handle, atomics w !! ptr = Some handle -> handle ≠ 0 ->
     is_Some (handles w !! handle)) ->
  match get_handle V sc queue w with
  | Ok _ w' | Throw _ w' => request_effect (get_native_context (placedContext_ sc)) w w'
  | Fault _ => False
  end.
Proof.
  intros Hmap Hlive.
  set (key := get_native_context (placedContext_ sc)).
  assert (Hsame : forall w', atomics w' = atomics w -> deleters w' = deleters w ->
            cusparse_handle_mapper_ w' = cusparse_handle_mapper_ w ->
            dom (handles w) ⊆ dom (handles w') ->
            destroy_calls (trace w') = destroy_calls (trace w) ->
            request_effect key w w').
  { intros w' ? ? ? ? ?. split; [done |]. split; [done |]. left. auto. }
  assert (Herased : forall w', atomics w' = atomics w -> deleters w' = deleters w ->
            stale key w ->
            cusparse_handle_mapper_ w' = delete key (cusparse_handle_mapper_ w) ->
            dom (handles w) ⊆ dom (handles w') ->
            destroy_calls (trace w') = destroy_calls (trace w) ->
            request_effect key w w').
  { intros w' ? ? ? ? ? ?. split; [done |]. split; [done |]. left. auto. }
  assert (Hfall : forall w1, get_handle_lookup V key (get_stream queue) w = Ok None w1 ->
            w1 = set_mapper (delete key (cusparse_handle_mapper_ w)) w /\ stale key w).
  { intros w1 Hlookup.
    apply get_handle_lookup_None_exact in Hlookup as [-> Hcase]. split; [done |].
    destruct Hcase as [Hkey | (ptr & Hkey & Hptr)]; [by apply stale_absent |].
    intros ptr'. rewrite Hkey. by intros [= <-]. }
  destruct (get_handle V sc queue w) as [h w' | e w' | w'] eqn:Hget;
    unfold get_handle in Hget; fold key in Hget.
  - apply bind_Ok_inv in Hget as ([h1 |] & w1 & Hlookup & Hrest).
    + injection Hrest as <- <-.
      apply get_handle_lookup_Some_exact in Hlookup as [Hh [-> | ->]].
      * apply Hsame; try done. simpl. by rewrite destroy_calls_app, app_nil_r.
      * apply Hsame; try done.
        -- simpl. rewrite dom_insert_L. apply union_subseteq_r.
        -- simpl. by rewrite !destroy_calls_app, !app_nil_r.
    + apply Hfall in Hlookup as [-> Hstale].
      apply get_handle_create_exact in Hrest as [-> ->]; [| apply lookup_delete_eq].
      simpl. split; [simpl; rewrite dom_insert_L; apply union_subseteq_r |].
      split; [simpl; by rewrite destroy_calls_app, app_nil_r |].
      right. simpl. split; [done |]. split; [by rewrite lookup_insert_eq |].
      split; [done |]. split; [by rewrite insert_delete_eq |]. by eexists.
  - apply bind_Throw_inv in Hget as [Hlookup | ([h1 |] & w1 & Hlookup & Hthrow)].
    + apply get_handle_lookup_Throw in Hlookup
        as (h & _ & [(_ & _ & ->) | (_ & _ & _ & _ & ->)]).
      * apply Hsame; try done. simpl. by rewrite destroy_calls_app, app_nil_r.
      * apply Hsame; try done. simpl. by rewrite !destroy_calls_app, !app_nil_r.
    + done.
    + apply Hfall in Hlookup as [-> Hstale].
      apply get_handle_create_Throw in Hthrow as [(_ & _ & ->) | (_ & _ & ->)].
      * apply Herased; try done. simpl. by rewrite destroy_calls_app, app_nil_r.
      * apply Herased; try done.
        -- simpl. rewrite dom_insert_L. apply union_subseteq_r.
        -- simpl. by rewrite !destroy_calls_app, !app_nil_r.
  - apply bind_Fault_inv in Hget as [Hlookup | ([h1 |] & w1 & _ & Hfault)].
    + apply get_handle_lookup_Fault in Hlookup as (ptr & Hkey & _ & Hbad).
      destruct (Hmap _ _ Hkey) as [v Hv].
      destruct Hbad as [Hnone | (h' & Hh' & Hh0 & Hdead)]; [congruence |].
      destruct (Hlive _ _ Hh' Hh0) as [s Hs]. congruence.
    + done.
    + by apply get_handle_create_not_Fault in Hfault.
Qed.

(** The callbacks after a request: one more, for the atomic that was
    registered, when there is one. *)
Lemma callbacks_registered (cbs : gmap N callback_pc) (ds : list (N * N)) :
  (forall d, d ∈ ds -> is_Some (cbs !! d.2)) ->
  cbs ∪ gset_to_gmap CEntry (list_to_set ds.*2) = cbs.
Proof.
  intros Hds. apply map_eq. intros i. rewrite lookup_union.
  destruct (cbs !! i) as [c |] eqn:Hi.
  - by destruct (gset_to_gmap _ _ !! i).
  - destruct (gset_to_gmap _ _ !! i) as [c |] eqn:Hset; [| done].
    apply lookup_gset_to_gmap_Some in Hset as [Hin _].
    apply elem_of_list_to_set, list_elem_of_fmap in Hin as (d & -> & Hd).
    destruct (Hds _ Hd) as [? ?]. congruence.
Qed.

Lemma callbacks_registered_new (cbs : gmap N callback_pc) (ds : list (N * N)) ctx ptr :
  cbs !! ptr = None ->
  (forall d, d ∈ ds -> is_Some (cbs !! d.2)) ->
  cbs ∪ gset_to_gmap CEntry (list_to_set ((ctx, ptr) :: ds).*2) = <[ptr := CEntry]> cbs.
Proof.
  intros Hptr Hds. apply map_eq. intros i. rewrite lookup_union.
  destruct (decide (i = ptr)) as [-> | Hne].
  - rewrite Hptr, lookup_insert_eq.
    assert (gset_to_gmap CEntry (list_to_set ((ctx, ptr) :: ds).*2 : gset N) !! ptr
            = Some CEntry) as ->; [| done].
    apply lookup_gset_to_gmap_Some. split; [| done].
    rewrite fmap_cons, list_to_set_cons.
    apply elem_of_union_l. by apply elem_of_singleton.
  - rewrite lookup_insert_ne by done.
    destruct (cbs !! i) as [c |] eqn:Hi.
    + by destruct (gset_to_gmap _ _ !! i).
    + destruct (gset_to_gmap _ _ !! i) as [c |] eqn:Hset; [| done].
      apply lookup_gset_to_gmap_Some in Hset as [Hin _].
      rewrite fmap_cons, list_to_set_cons in Hin.
      apply elem_of_union in Hin as [Hin%elem_of_singleton | Hin]; [done |].
      apply elem_of_list_to_set, list_elem_of_fmap in Hin as (d & -> & Hd).
      destruct (Hds _ Hd) as [? ?]. congruence.
Qed.

(** A request of the living thread keeps the invariant, and does not
    fault. *)
Lemma request_step_inv V base cells sc queue m :
  race_inv base cells m ->
  exists cells' m',
    request_step V sc queue m = Some m' /\
    race_inv base cells' m' /\
    cells ⊆ cells' /\
    (drain m ≠ DAlive -> cells' = cells /\ m' = m) /\
    (lifelong cells m -> lifelong cells' m').
Proof.
  intros Hinv.
  pose proof Hinv as (Hwf & Hlink & Hrange & Hkeys & Hdel & Hlog & Hdup & Halloc & Hcells & Hmap).
  unfold request_step.
  destruct m as [w r pc cbs log]. simpl in *.
  destruct pc as [| rest | hp v rest | | e rest];
    try (exists cells; eexists; split; [reflexivity |]; by repeat (split; [done |])).
  destruct (Hmap eq_refl) as [Hmapcells Hinj].
  assert (Hallocated : forall ptr, is_Some (cells !! ptr) -> is_Some (atomics w !! ptr)).
  { intros ptr [hq Hhq]. destruct (Hcells _ _ Hhq) as (_ & _ & Hcell).
    by apply cell_ok_allocated in Hcell. }
  assert (Hfull : forall ptr handle, atomics w !! ptr = Some handle -> handle ≠ 0 ->
            cells !! ptr = Some handle /\ is_Some (handles w !! handle)).
  { intros ptr handle Hptr Hhandle. destruct (Halloc ptr) as [hq Hhq]; [by rewrite Hptr |].
    destruct (Hcells _ _ Hhq) as (_ & _ & Hcell). rewrite Hptr in Hcell.
    apply cell_ok_full in Hcell as (-> & _ & _ & _ & Hlive); done. }
  assert (Hnotstale : forall key ptr, stale key w -> cbs !! ptr = Some CEntry ->
            cusparse_handle_mapper_ w !! key = Some ptr -> False).
  { intros key ptr Hstale Hentry Hkey.
    destruct (Hkeys ptr) as [hq Hhq]; [by rewrite Hentry |].
    destruct (Hcells _ _ Hhq) as (Hp & Hh & Hcell).
    unfold callback_view in Hcell. simpl in Hcell. rewrite Hentry in Hcell.
    destruct Hcell as (Ha & _). destruct (Hstale _ Hkey) as [-> | Hzero]; [done |].
    congruence. }
  assert (Hstep : forall w',
            request_effect (get_native_context (placedContext_ sc)) w w' ->
            exists cells',
              race_inv base cells'
                (Machine w' r DAlive
                   (cbs ∪ gset_to_gmap CEntry (list_to_set (deleters w').*2)) log) /\
              cells ⊆ cells' /\
              (lifelong cells (Machine w r DAlive cbs log) ->
               lifelong cells'
                 (Machine w' r DAlive
                    (cbs ∪ gset_to_gmap CEntry (list_to_set (deleters w').*2)) log))).
  { intros w' (Hdom & Htrace & Hcase).
    set (key := get_native_context (placedContext_ sc)) in *.
    assert (Hlive : forall handle, is_Some (handles w !! handle) ->
              is_Some (handles w' !! handle)).
    { intros handle. rewrite <- !elem_of_dom. apply Hdom. }
    destruct Hcase as [(Hat & Hdelw & Hmapper) |
                       (Hstale & Hnew & Hat & Hmapper & ctx & Hdelw)].
    - exists cells. rewrite Hdelw, callbacks_registered by done.
      assert (Hin : forall k ptr, cusparse_handle_mapper_ w' !! k = Some ptr ->
                cusparse_handle_mapper_ w !! k = Some ptr).
      { intros k ptr. destruct Hmapper as [-> | [_ ->]]; [done |].
        by intros [_ ?]%lookup_delete_Some. }
      split; [| split; [done |]].
      + split; [done |]. split; [simpl; by rewrite Htrace |].
        split; [done |]. split; [done |].
        split; [intros d Hd; simpl in Hd; rewrite Hdelw in Hd; by apply Hdel |].
        split; [done |].
        split; [done |]. split; [intros ptr; simpl; rewrite Hat; apply Halloc |].
        split.
        * intros ptr handle Hptr. destruct (Hcells _ _ Hptr) as (Hp & Hh & Hold).
          split; [done |]. split; [done |]. simpl. rewrite Hat.
          eapply cell_ok_live; [| exact Hold]. intros _. apply Hlive.
        * intros _. simpl. split.
          -- intros k ptr Hk. by eapply Hmapcells, Hin.
          -- intros k k' ptr Hk Hk'. eapply Hinj; by apply Hin.
      + intros [Hreg Hpending]. split; [done |].
        intros ptr Hentry. destruct (Hpending ptr Hentry) as [k Hk]. simpl in *.
        exists k. destruct Hmapper as [-> | [Hstale ->]]; [done |].
        rewrite lookup_delete_ne; [done |]. intros <-. by eapply Hnotstale.
    - simpl in Hnew, Hat, Hmapper, Hdelw.
      destruct (fresh_pointer (dom (handles w))) as [Hh Hhfresh].
      destruct (fresh_pointer (dom (atomics w))) as [Hp Hpfresh].
      set (h := fresh ({[0]} ∪ dom (handles w))) in *.
      set (p := fresh ({[0]} ∪ dom (atomics w))) in *.
      rewrite elem_of_dom in Hhfresh, Hpfresh.
      assert (Hpcell : cells !! p = None).
      { apply eq_None_not_Some. intros Hsome. by apply Hpfresh, Hallocated. }
      assert (Hpcb : cbs !! p = None).
      { apply eq_None_not_Some. intros Hsome. apply Hkeys in Hsome.
        rewrite Hpcell in Hsome. by destruct Hsome. }
      assert (Hdead : forall ptr, cells !! ptr = Some h ->
                destroys ptr (Machine w r DAlive cbs log) ≠ 0%nat).
      { intros ptr Hptr Hzero. destruct (Hcells _ _ Hptr) as (_ & _ & Hcell).
        rewrite Hzero in Hcell. by apply cell_ok_alive in Hcell. }
      exists (<[p := h]> cells).
      rewrite Hdelw, callbacks_registered_new by done.
      split; [| split; [by apply insert_subseteq |]].
      + split; [done |]. split; [simpl; by rewrite Htrace |].
        split; [intros ptr Hptr; by apply lookup_insert_keeps, Hrange |].
        split.
        { intros ptr. simpl. destruct (decide (ptr = p)) as [-> |].
          - by rewrite !lookup_insert_eq.
          - rewrite !lookup_insert_ne by done. apply Hkeys. }
        split.
        { intros d Hd. simpl in Hd. rewrite Hdelw in Hd.
          apply elem_of_cons in Hd as [-> | Hd]; simpl.
          - by rewrite !lookup_insert_eq.
          - by apply lookup_insert_keeps, Hdel. }
        split.
        { intros entry Hentry. simpl in Hentry. pose proof (Hlog _ Hentry) as Hcell.
          rewrite lookup_insert_ne; [done |]. intros Heq. congruence. }
        split.
        { intros ptr ptr' handle.
          destruct (decide (ptr = p)) as [-> |], (decide (ptr' = p)) as [-> |];
            rewrite ?lookup_insert_eq, ?lookup_insert_ne by done; try done.
          - intros [= <-] Hptr' _. right. by apply Hdead.
          - intros Hptr [= <-] _. left. by apply Hdead.
          - apply Hdup. }
        split.
        { intros ptr. simpl. rewrite Hat. destruct (decide (ptr = p)) as [-> |].
          - by rewrite !lookup_insert_eq.
          - rewrite !lookup_insert_ne by done. apply Halloc. }
        split.
        * intros ptr handle. destruct (decide (ptr = p)) as [-> | Hne].
          -- rewrite lookup_insert_eq. intros [= <-].
             split; [done |]. split; [done |].
             rewrite callback_view_insert. simpl. rewrite Hat, lookup_insert_eq.
             rewrite destroys_none; [done |]. simpl.
             intros (entry & Hentry1 & Hentry)%list_elem_of_fmap.
             apply Hlog in Hentry. congruence.
          -- rewrite lookup_insert_ne by done. intros Hptr.
             destruct (Hcells _ _ Hptr) as (Hq & Hhq & Hold).
             split; [done |]. split; [done |].
             rewrite (callback_view_insert_ne w _ r _ DAlive _ cbs log) by done.
             simpl. rewrite Hat, lookup_insert_ne by done.
             eapply cell_ok_live; [| exact Hold]. intros _. apply Hlive.
        * intros _. simpl. rewrite Hmapper. split.
          -- intros k ptr. destruct (decide (k = key)) as [-> |].
             ++ rewrite lookup_insert_eq. intros [= <-]. by rewrite !lookup_insert_eq.
             ++ rewrite lookup_insert_ne by done. intros Hk.
                by apply lookup_insert_keeps, (Hmapcells k).
          -- assert (Hrange' : forall k, cusparse_handle_mapper_ w !! k ≠ Some p).
             { intros k Hk. apply Hmapcells in Hk. rewrite Hpcell in Hk. by destruct Hk. }
             intros k k' ptr.
             destruct (decide (k = key)) as [-> |], (decide (k' = key)) as [-> |];
               rewrite ?lookup_insert_eq, ?lookup_insert_ne by done; try done.
             ++ intros [= <-] Hk'. by destruct (Hrange' k').
             ++ intros Hk [= <-]. by destruct (Hrange' k).
             ++ apply Hinj.
      + intros [Hreg Hpending]. split.
        * intros ptr. simpl. destruct (decide (ptr = p)) as [-> |].
          -- by rewrite !lookup_insert_eq.
          -- rewrite !lookup_insert_ne by done. apply Hreg.
        * intros ptr. simpl. rewrite Hmapper.
          destruct (decide (ptr = p)) as [-> | Hne].
          -- intros _. exists key. by rewrite !lookup_insert_eq.
          -- rewrite lookup_insert_ne by done. intros Hentry.
             destruct (Hpending ptr Hentry) as [k Hk]. simpl in Hk.
             exists k. rewrite lookup_insert_ne; [done |].
             intros <-. by eapply Hnotstale. }
  pose proof (get_handle_effect V sc queue w) as Heffect.
  destruct (get_handle V sc queue w) as [h w' | e w' | w'].
  - destruct (Hstep w') as (cells' & Hinv' & Hsub & Hlife).
    { apply Heffect; [| apply Hfull].
      intros key ptr Hkey. by eapply Hallocated, Hmapcells. }
    exists cells'. eexists. split; [done |]. by repeat (split; [done |]).
  - destruct (Hstep w') as (cells' & Hinv' & Hsub & Hlife).
    { apply Heffect; [| apply Hfull].
      intros key ptr Hkey. by eapply Hallocated, Hmapcells. }
    exists cells'. eexists. split; [done |]. by repeat (split; [done |]).
  - exfalso. apply Heffect; [| apply Hfull].
    intros key ptr Hkey. by eapply Hallocated, Hmapcells.
Qed.

(** The exit of the thread keeps the invariant: the destructor is about
    to visit the elements of the map, each once. *)
Lemma exit_step_inv base cells elements m :
  race_inv base cells m ->
  exists m', exit_step elements m = Some m' /\
             race_inv base cells m' /\
             callbacks m' = callbacks m /\
             (drain m ≠ DAlive -> m' = m) /\
             (lifelong cells m -> lifelong cells m').
Proof.
  intros Hinv.
  pose proof Hinv as (Hwf & Hlink & Hrange & Hkeys & Hdel & Hlog & Hdup & Halloc & Hcells & Hmap).
  unfold exit_step.
  destruct m as [w r pc cbs log]. simpl in *.
  destruct pc as [| rest | hp v rest | | e rest];
    try (eexists; split; [reflexivity |]; by repeat (split; [done |])).
  destruct (decide (elements ≡ₚ map_to_list (cusparse_handle_mapper_ w))) as [Hvisits |];
    [| eexists; split; [reflexivity |]; by repeat (split; [done |])].
  destruct (Hmap eq_refl) as [Hmapcells Hinj].
  assert (Hin : forall ptr, ptr ∈ elements.*2 ->
            exists key, cusparse_handle_mapper_ w !! key = Some ptr).
  { intros ptr Hptr. rewrite Hvisits in Hptr.
    apply list_elem_of_fmap in Hptr as ([key p] & -> & Hptr).
    exists key. by apply elem_of_map_to_list. }
  assert (Hview : forall ptr, drain_view elements (DLoop elements) ptr = Todo).
  { intros ptr. unfold drain_view. cbn [drain_todo].
    destruct (decide (ptr ∈ elements.*2)); [done |].
    by destruct (decide (ptr ∈ elements.*2)). }
  eexists. split; [reflexivity |].
  split; [| split; [done |]; split; [done |]].
  - split.
    { split; [| done]. simpl. rewrite Hvisits.
      apply NoDup_fmap_2_strong; [| apply NoDup_map_to_list].
      intros [k p] [k' p'] Hk Hk' Heq. simpl in Heq. subst p'.
      apply elem_of_map_to_list in Hk, Hk'. f_equal. by apply (Hinj _ _ p). }
    split; [done |].
    split; [intros ptr Hptr; destruct (Hin _ Hptr) as [key Hkey]; by eapply Hmapcells |].
    split; [done |]. split; [done |]. split; [done |]. split; [done |]. split; [done |].
    split; [| done].
    intros ptr handle Hptr. destruct (Hcells _ _ Hptr) as (Hp & Hh & Hold).
    split; [done |]. split; [done |]. cbn [drain range]. by rewrite Hview.
  - intros [Hreg Hpending]. split; [done |].
    intros ptr Hentry. destruct (Hpending ptr Hentry) as [key Hkey]. simpl in *.
    rewrite Hvisits. apply list_elem_of_fmap. exists (key, ptr).
    split; [done |]. by apply elem_of_map_to_list.
Qed.

Lemma step_inv V base cells who m :
  race_inv base cells m ->
  exists cells' m',
    step V who m = Some m' /\
    race_inv base cells' m' /\
    cells ⊆ cells' /\
    (drain m ≠ DAlive -> cells' = cells) /\
    (lifelong cells m -> lifelong cells' m').
Proof.
  intros Hinv. destruct who as [sc queue | elements | | userData]; simpl.
  - destruct (request_step_inv V base cells sc queue m Hinv)
      as (cells' & m' & Hstep & Hinv' & Hsub & Hsame & Hlife).
    exists cells', m'. repeat (split; [done |]). split; [| done].
    intros Halive. by destruct (Hsame Halive).
  - destruct (exit_step_inv base cells elements m Hinv)
      as (m' & Hstep & Hinv' & _ & _ & Hlife).
    exists cells, m'. by repeat (split; [done |]).
  - destruct (drain_step_inv V base cells m Hinv)
      as (m' & Hstep & Hinv' & _ & _ & Hlife).
    exists cells, m'. by repeat (split; [done |]).
  - destruct (callback_step_inv V base cells userData m Hinv)
      as (m' & Hstep & Hinv' & _ & Hlife).
    exists cells, m'. by repeat (split; [done |]).
Qed.

(** A thread that has exited stays so. *)
Lemma step_exited V who m m' :
  step V who m = Some m' -> drain m ≠ DAlive -> drain m' ≠ DAlive.
Proof.
  destruct who as [sc queue | elements | | userData]; simpl.
  - unfold request_step. destruct (drain m) eqn:Hpc; try (intros [= <-]; by rewrite Hpc).
    done.
  - unfold exit_step. destruct (drain m) eqn:Hpc; try (intros [= <-]; by rewrite Hpc).
    done.
  - unfold drain_step. destruct (drain m) as [| [| hp rest] | hp v rest | | e rest] eqn:Hpc;
      try (intros [= <-]; simpl; by rewrite ?Hpc).
    + destruct (decide (hp.2 ≠ 0)); [| by intros [= <-]].
      destruct (atomic_exchange hp.2 0 (shared m)); [| done | done]. by intros [= <-].
    + destruct ((destroy_or_delete V hp.2 v >> mapper_reset hp.1) (shared m));
        [| | done]; by intros [= <-].
  - unfold callback_step.
    destruct (callbacks m !! userData) as [[| v | | e] |]; try (by intros [= <-]).
    + destruct (decide (userData = 0)); [by intros [= <-] |].
      destruct (atomic_exchange userData 0 (shared m)); [| done | done]. by intros [= <-].
    + destruct (destroy_or_delete V userData v (shared m)); [| | done]; by intros [= <-].
Qed.

Lemma run_inv V base cells schedule m :
  race_inv base cells m ->
  exists cells' m',
    run V schedule m = Some m' /\
    race_inv base cells' m' /\
    cells ⊆ cells' /\
    (drain m ≠ DAlive -> cells' = cells) /\
    (lifelong cells m -> lifelong cells' m').
Proof.
  revert cells m. induction schedule as [| who later IH]; intros cells m Hinv.
  - exists cells, m. by repeat (split; [done |]).
  - destruct (step_inv V base cells who m Hinv)
      as (cells1 & m1 & Hstep & Hinv1 & Hsub1 & Hsame1 & Hlife1).
    destruct (IH cells1 m1 Hinv1) as (cells2 & m2 & Hrun & Hinv2 & Hsub2 & Hsame2 & Hlife2).
    exists cells2, m2. simpl. rewrite Hstep.
    split; [done |]. split; [done |]. split; [by etrans |]. split; [| by auto].
    intros Halive. rewrite Hsame2; [by apply Hsame1 |].
    by eapply step_exited.
Qed.


Lemma start_inv elements w :
  cache_fresh w -> visits elements w ->
  race_inv (destroy_calls (trace w)) (atomics w) (start elements w).
Proof.
  intros (Hcells & Hinj & Hmap & Hkeys & Hdeleters) Hvisits.
  unfold visits in Hvisits. unfold start.
  assert (Hin : forall ptr, ptr ∈ elements.*2 ->
            exists key, cusparse_handle_mapper_ w !! key = Some ptr).
  { intros ptr Hptr. rewrite Hvisits in Hptr.
    apply list_elem_of_fmap in Hptr as ([key p] & -> & Hptr).
    exists key. by apply elem_of_map_to_list. }
  split.
  { split; [| done]. simpl. rewrite Hvisits.
    apply NoDup_fmap_2_strong; [| apply NoDup_map_to_list].
    intros [k p] [k' p'] Hk Hk' Heq. simpl in Heq. subst p'.
    apply elem_of_map_to_list in Hk, Hk'. f_equal. by apply (Hkeys _ _ p). }
  cbn [shared range drain callbacks destroyed].
  split; [simpl; by rewrite app_nil_r |].
  split; [intros ptr Hptr; destruct (Hin _ Hptr) as [key Hkey]; by eapply Hmap |].
  split.
  { intros ptr [cpc Hcpc]. apply lookup_gset_to_gmap_Some in Hcpc as [Hptr _].
    apply elem_of_list_to_set, list_elem_of_fmap in Hptr as (d & -> & Hd).
    by apply Hdeleters. }
  split.
  { intros d Hd. exists CEntry. apply lookup_gset_to_gmap_Some. split; [| done].
    apply elem_of_list_to_set, list_elem_of_fmap. by exists d. }
  split; [intros entry Hentry; by apply elem_of_nil in Hentry |].
  split; [intros ptr ptr' handle Hptr Hptr' Hne; destruct Hne; by eapply Hinj |].
  split; [done |].
  split; [| done].
  intros ptr handle Hptr. destruct (Hcells _ _ Hptr) as (Hp & Hh & Hlive).
  split; [done |]. split; [done |].
  assert (callback_view (Machine w elements (DLoop elements)
            (gset_to_gmap CEntry (list_to_set (deleters w).*2)) []) ptr = Todo) as ->.
  { unfold callback_view. simpl.
    destruct (gset_to_gmap _ _ !! ptr) as [cpc |] eqn:Hcpc; [| done].
    by apply lookup_gset_to_gmap_Some in Hcpc as [_ <-]. }
  assert (drain_view elements (DLoop elements) ptr = Todo) as ->.
  { unfold drain_view. cbn [drain_todo].
    destruct (decide (ptr ∈ elements.*2)); [done |].
    by destruct (decide (ptr ∈ elements.*2)). }
  done.
Qed.

(** ** Every party gets through *)






(** ** Destroy calls in the trace and in the history *)

Lemma count_calls_destroy_calls handle t :
  count_calls (cusparseDestroy handle) (destroy_calls t)
  = count_calls (cusparseDestroy handle) t.
Proof.
  unfold count_calls, destroy_calls. induction t as [| c t IH]; [done |].
  rewrite !filter_cons. destruct (decide (c = cusparseDestroy handle)) as [-> | Hne].
  - simpl. rewrite filter_cons.
    destruct (decide (cusparseDestroy handle = cusparseDestroy handle)); [| done].
    simpl. by rewrite IH.
  - destruct (decide (is_destroy c)); [| done].
    rewrite filter_cons. by destruct (decide (c = cusparseDestroy handle)).
Qed.

(** With no handle in two atomics, the calls on a handle are the calls
    made for its atomic. *)
Lemma count_calls_destroys base cells m ptr handle :
  race_inv base cells m ->
  (forall p p' h, cells !! p = Some h -> cells !! p' = Some h -> p = p') ->
  cells !! ptr = Some handle ->
  count_calls (cusparseDestroy handle) (trace (shared m))
  = (count_calls (cusparseDestroy handle) base + destroys ptr m)%nat.
Proof.
  intros (_ & Hlink & _ & _ & _ & Hlog & _) Hinj Hptr.
  rewrite <- count_calls_destroy_calls, Hlink, count_calls_app. f_equal.
  unfold destroys. revert Hlog. generalize (destroyed m). intros history.
  induction history as [| entry log IH]; intros Hlog; [done |].
  rewrite !fmap_cons, filter_cons.
  change (count_calls ?c (?x :: ?t)) with (count_calls c ([x] ++ t)).
  rewrite count_calls_app, count_calls_one, IH.
  2: { intros e He. by apply Hlog, list_elem_of_further. }
  pose proof (Hlog entry (list_elem_of_here _ _)) as Hentry.
  destruct (decide (cusparseDestroy entry.2 = cusparseDestroy handle)) as [[= Heq] | Hne],
           (decide (entry.1 = ptr)) as [Hsame | Hother]; simpl; try done.
  - destruct Hother. rewrite Heq in Hentry. by eapply Hinj.
  - destruct Hne. rewrite Hsame in Hentry. congruence.
Qed.


Lemma drain_view_finished elements ptr :
  ptr ∈ elements.*2 -> drain_view elements DDone ptr = Finished.
Proof.
  intros Hin. apply drain_view_passed; [done | by intros ? ? ? [=] | | done].
  apply not_elem_of_nil.
Qed.



(** ** The steps of the race put together give the sequential code *)

(** A request of the living thread is a call of [get_handle]. *)
Lemma request_step_sequential V sc queue m :
  drain m = DAlive ->
  match get_handle V sc queue (shared m) with
  | Ok _ w | Throw _ w =>
      exists m', step V (Request sc queue) m = Some m' /\ shared m' = w
  | Fault _ => step V (Request sc queue) m = None
  end.
Proof.
  intros Halive. simpl. unfold request_step. rewrite Halive.
  destruct (get_handle V sc queue (shared m)); [| | done]; by eexists.
Qed.

(** A callback that runs its two steps with nothing in between does what
    [ContextCallback] does. *)
Lemma callback_steps_sequential V userData m :
  callbacks m !! userData = Some CEntry ->
  let history :=
    if decide (userData = 0) then destroyed m
    else record_destroy userData (default 0 (atomics (shared m) !! userData))
           (destroyed m) in
  run V [Callback userData; Callback userData] m =
  match ContextCallback V userData (shared m) with
  | Ok _ w =>
      Some (Machine w (range m) (drain m) (<[userData := CDone]> (callbacks m)) history)
  | Throw e w =>
      Some (Machine w (range m) (drain m) (<[userData := CThrown e]> (callbacks m)) history)
  | Fault _ => None
  end.
Proof.
  intros Hentry. unfold ContextCallback. simpl. unfold callback_step at 1.
  rewrite Hentry. destruct (decide (userData = 0)) as [Hnull | Hptr].
  - unfold callback_step. simpl. by rewrite lookup_insert_eq.
  - unfold bind, atomic_exchange.
    destruct (atomics (shared m) !! userData) as [h |]; [| done].
    unfold callback_step. simpl. rewrite lookup_insert_eq.
    destruct (destroy_or_delete V userData h _); by rewrite ?insert_insert_eq.
Qed.

Lemma run_drain_stopped V n m :
  drain_stopped m -> run V (replicate n Drain) m = Some m.
Proof.
  intros Hstopped. induction n as [| n IH]; [done |]. simpl.
  unfold drain_step. unfold drain_stopped in Hstopped.
  by destruct (drain m).
Qed.

Lemma run_drain_entry V handle_pair rest w r cbs log n :
  run V (replicate (S (S n)) Drain) (Machine w r (DLoop (handle_pair :: rest)) cbs log) =
  if decide (handle_pair.2 ≠ 0) then
    match atomics w !! handle_pair.2 with
    | Some h =>
        match (destroy_or_delete V handle_pair.2 h >> mapper_reset handle_pair.1)
                (set_atomics (<[handle_pair.2 := 0]> (atomics w)) w) with
        | Ok _ w2 =>
            run V (replicate n Drain)
              (Machine w2 r (DLoop rest) cbs (record_destroy handle_pair.2 h log))
        | Throw e w2 =>
            Some (Machine (mapper_clear w2) r (DThrown e rest) cbs
                    (record_destroy handle_pair.2 h log))
        | Fault _ => None
        end
    | None => None
    end
  else run V (replicate (S n) Drain) (Machine w r (DLoop rest) cbs log).
Proof.
  cbn [replicate run step]. unfold drain_step at 1. cbn [drain shared callbacks].
  destruct (decide (handle_pair.2 ≠ 0)); [| done].
  unfold atomic_exchange. destruct (atomics w !! handle_pair.2) as [h |]; [| done].
  unfold drain_step at 1. cbn [drain shared callbacks range destroyed].
  destruct ((destroy_or_delete V handle_pair.2 h >> mapper_reset handle_pair.1) _)
    as [[] w2 | e w2 | w2]; [done | | done].
  by apply run_drain_stopped.
Qed.

(** The destructor running alone goes through the loop of
    [~cusparse_handle]. *)
Lemma drain_steps_sequential V elements w r cbs log n :
  (2 * length elements + 1 <= n)%nat ->
  match cusparse_handle_dtor_loop V elements w with
  | Ok _ w' =>
      exists m', run V (replicate n Drain) (Machine w r (DLoop elements) cbs log) = Some m' /\
                 shared m' = mapper_clear w' /\ range m' = r /\ drain m' = DDone /\
                 callbacks m' = cbs
  | Throw e w' =>
      exists m' rest,
        run V (replicate n Drain) (Machine w r (DLoop elements) cbs log) = Some m' /\
        shared m' = mapper_clear w' /\ range m' = r /\ drain m' = DThrown e rest /\
        callbacks m' = cbs
  | Fault _ => run V (replicate n Drain) (Machine w r (DLoop elements) cbs log) = None
  end.
Proof.
  revert w log n. induction elements as [| handle_pair rest IH]; intros w log n Hn.
  - destruct n as [| n]; [simpl in Hn; lia |]. simpl.
    eexists. split; [by apply run_drain_stopped |]. done.
  - simpl in Hn. destruct n as [| [| n]]; [lia | lia |].
    rewrite run_drain_entry.
    cbn [cusparse_handle_dtor_loop]. unfold bind at 1.
    unfold cusparse_handle_dtor_entry.
    destruct (decide (handle_pair.2 ≠ 0)) as [Hptr |].
    + unfold bind at 1. unfold atomic_exchange.
      destruct (atomics w !! handle_pair.2) as [h |]; [| done].
      destruct ((destroy_or_delete V handle_pair.2 h >> mapper_reset handle_pair.1) _)
        as [[] w2 | e w2 | w2]; [| | done].
      * apply IH. lia.
      * eexists _, rest. by split.
    + apply IH. lia.
Qed.

Lemma cusparse_handle_dtor_steps V elements w n :
  (2 * length elements + 1 <= n)%nat ->
  match cusparse_handle_dtor V elements w with
  | Ok _ w' =>
      exists m, run V (replicate n Drain) (start elements w) = Some m /\
                shared m = w' /\ range m = elements /\ drain m = DDone /\
                callbacks m = callbacks (start elements w)
  | Throw e w' =>
      exists m rest, run V (replicate n Drain) (start elements w) = Some m /\
                     shared m = w' /\ range m = elements /\ drain m = DThrown e rest /\
                     callbacks m = callbacks (start elements w)
  | Fault _ => run V (replicate n Drain) (start elements w) = None
  end.
Proof.
  intros Hn. unfold cusparse_handle_dtor, start.
  pose proof (drain_steps_sequential V elements w elements
                (gset_to_gmap CEntry (list_to_set (deleters w).*2)) [] n Hn) as Hsteps.
  by destruct (cusparse_handle_dtor_loop V elements w) as [[] w' | e w' | w'].
Qed.
(** ** The teardown and the callback one after the other *)

Lemma mapped_element elements w key ptr :
  visits elements w ->
  cusparse_handle_mapper_ w !! key = Some ptr ->
  ptr ∈ elements.*2.
Proof.
  intros Hvisits Hkey. rewrite Hvisits. apply list_elem_of_fmap. exists (key, ptr).
  split; [done |]. by apply elem_of_map_to_list.
Qed.

(** X9: the teardown alone, on a cache as [get_handle]
    builds it and in whichever order it visits the map, never touches a
    freed atomic; when it returns, the map is empty, and every handle an
    element of the map led to has been destroyed by exactly one more
    [cusparseDestroy], its atomic left holding null. *)
Theorem cusparse_handle_dtor_fresh (V : vendor) (elements : list (N * N)) (w : world) :
  cache_fresh w ->
  visits elements w ->
  (forall w', cusparse_handle_dtor V elements w ≠ Fault w') /\
  (forall w', cusparse_handle_dtor V elements w = Ok tt w' ->
     cusparse_handle_mapper_ w' = ∅ /\
     forall key ptr handle,
       cusparse_handle_mapper_ w !! key = Some ptr ->
       atomics w !! ptr = Some handle ->
       count_calls (cusparseDestroy handle) (trace w')
       = S (count_calls (cusparseDestroy handle) (trace w)) /\
       atomics w' !! ptr = Some nullptr).
Proof.
  intros Hfresh Hvisits.
  set (n := (2 * length elements + 1)%nat).
  pose proof (cusparse_handle_dtor_steps V elements w n (le_n _)) as Hsteps.
  destruct (run_inv V _ _ (replicate n Drain) (start elements w)
              (start_inv elements w Hfresh Hvisits))
    as (cells & m & Hrun & Hinv & _ & Hsame & _).
  rewrite Hsame in Hinv by done. clear cells Hsame.
  split.
  - intros w' Hfault. rewrite Hfault in Hsteps. congruence.
  - intros w' Hok. rewrite Hok in Hsteps.
    destruct Hsteps as (m' & Hrun' & Hshared & Hrange & Hdone & Hcallbacks).
    assert (m' = m) as -> by congruence.
    split.
    { unfold cusparse_handle_dtor in Hok.
      destruct (cusparse_handle_dtor_loop V _ w); [| done | done].
      by injection Hok as <-. }
    intros key ptr handle Hkey Hptr.
    pose proof Hinv as (_ & _ & _ & _ & _ & _ & _ & _ & Hcells & _).
    destruct (Hcells _ _ Hptr) as (_ & _ & Hcell).
    rewrite Hrange, Hdone,
      (drain_view_finished _ _ (mapped_element _ _ _ _ Hvisits Hkey)) in Hcell.
    assert (callback_view m ptr = Todo) as Hview.
    { unfold callback_view. rewrite Hcallbacks. cbn [start callbacks].
      destruct (gset_to_gmap _ _ !! ptr) as [cpc |] eqn:Hcpc; [| done].
      by apply lookup_gset_to_gmap_Some in Hcpc as [_ <-]. }
    rewrite Hview in Hcell. destruct Hcell as [Hcell Hcount].
    rewrite Hshared in Hcell. split; [| done].
    destruct Hfresh as (_ & Hinj & _).
    rewrite <- Hshared,
      (count_calls_destroys _ _ m ptr handle Hinv Hinj Hptr), count_calls_destroy_calls.
    lia.
Qed.

(** [ContextCallback] acts on the atomic it is given and on the vendor
    library, whatever its outcome; the map of the cache, the registered
    deleters and the thread's current context are not its business. *)
Lemma ContextCallback_frame V userData w :
  let w' := world_of (ContextCallback V userData w) in
  cusparse_handle_mapper_ w' = cusparse_handle_mapper_ w /\
  deleters w' = deleters w /\
  current_context w' = current_context w /\
  (forall ptr, ptr ≠ userData -> atomics w' !! ptr = atomics w !! ptr).
Proof.
  unfold ContextCallback. destruct (decide (userData = 0)); [done |].
  rewrite world_of_bind. unfold atomic_exchange.
  destruct (atomics w !! userData) as [h |]; [| done].
  unfold destroy_or_delete. destruct (decide (h ≠ 0)).
  - rewrite world_of_bind. unfold CUSPARSE_ERROR_FUNC, bind, cusparse. simpl.
    destruct (bool_decide _);
      [| repeat split; try done; intros; simpl; by rewrite lookup_insert_ne].
    destruct (cusparse_result V _ _); simpl;
      repeat split; try done; intros; simpl; by rewrite lookup_insert_ne.
  - unfold atomic_delete. destruct (decide (userData = 0)); [done |]. simpl.
    rewrite lookup_insert_eq. simpl. repeat split; try done.
    intros ptr Hne. by rewrite lookup_delete_ne, lookup_insert_ne.
Qed.

(** X10: the callback of a context first, the teardown
    afterwards, in whichever order it visits the map.  The callback
    destroys the handle and empties the atomic; the teardown then finds the
    atomic empty, does not destroy the handle again, and frees the
    atomic. *)
Theorem ContextCallback_then_dtor (V : vendor) (elements : list (N * N))
    (w w1 w2 : world) (key ptr handle : N) :
  cache_fresh w ->
  visits elements w ->
  cusparse_handle_mapper_ w !! key = Some ptr ->
  atomics w !! ptr = Some handle ->
  ptr ∈ (deleters w).*2 ->
  ContextCallback V ptr w = Ok tt w1 ->
  cusparse_handle_dtor V elements w1 = Ok tt w2 ->
  count_calls (cusparseDestroy handle) (trace w1)
  = S (count_calls (cusparseDestroy handle) (trace w)) /\
  atomics w1 !! ptr = Some nullptr /\
  count_calls (cusparseDestroy handle) (trace w2)
  = count_calls (cusparseDestroy handle) (trace w1) /\
  atomics w2 !! ptr = None.
Proof.
  intros Hfresh Hvisits Hkey Hptr Hregistered Hcallback Hdtor.
  set (n := (2 * length elements + 1)%nat).
  assert (Hentry : callbacks (start elements w) !! ptr = Some CEntry).
  { cbn [start callbacks]. apply lookup_gset_to_gmap_Some. split; [| done].
    by apply elem_of_list_to_set. }
  pose proof (callback_steps_sequential V ptr (start elements w) Hentry) as Hsteps.
  cbn [start shared range drain callbacks destroyed] in Hsteps.
  rewrite Hcallback in Hsteps.
  set (cbs := <[ptr := CDone]> _) in Hsteps.
  set (log := if decide (ptr = 0) then _ else _) in Hsteps.
  pose proof (drain_steps_sequential V elements w1 elements cbs log n (le_n _)) as Hdrain.
  unfold cusparse_handle_dtor in Hdtor.
  destruct (cusparse_handle_dtor_loop V elements w1) as [[] w2' | |]; [| done | done].
  injection Hdtor as <-.
  destruct Hdrain as (m2' & Hdrain & Hshared2 & Hrange2 & Hdone2 & Hcallbacks2).
  pose proof (start_inv elements w Hfresh Hvisits) as Hinv0.
  destruct (run_inv V _ _ [Callback ptr; Callback ptr] (start elements w) Hinv0)
    as (cells1 & m1 & Hrun1 & Hinv1 & _ & Hsame1 & _).
  rewrite Hsame1 in Hinv1 by done. clear cells1 Hsame1.
  rewrite Hsteps in Hrun1. injection Hrun1 as <-.
  destruct (run_inv V _ _ (replicate n Drain) _ Hinv1)
    as (cells2 & m2 & Hrun2 & Hinv2 & _ & Hsame2 & _).
  rewrite Hsame2 in Hinv2 by done. clear cells2 Hsame2.
  rewrite Hdrain in Hrun2. injection Hrun2 as <-.
  destruct Hfresh as (_ & Hinj & _).
  pose proof (count_calls_destroys _ _ _ ptr handle Hinv1 Hinj Hptr) as Hcount1.
  pose proof (count_calls_destroys _ _ _ ptr handle Hinv2 Hinj Hptr) as Hcount2.
  rewrite count_calls_destroy_calls in Hcount1, Hcount2.
  pose proof Hinv1 as (_ & _ & _ & _ & _ & _ & _ & _ & Hcells1 & _).
  pose proof Hinv2 as (_ & _ & _ & _ & _ & _ & _ & _ & Hcells2 & _).
  destruct (Hcells1 _ _ Hptr) as (_ & _ & Hcell1).
  destruct (Hcells2 _ _ Hptr) as (_ & _ & Hcell2).
  rewrite Hrange2, Hdone2 in Hcell2.
  unfold callback_view in Hcell1, Hcell2. rewrite Hcallbacks2 in Hcell2.
  cbn [callbacks range drain shared] in Hcell1. unfold cbs in Hcell1, Hcell2.
  rewrite lookup_insert_eq in Hcell1, Hcell2.
  rewrite (drain_view_finished elements ptr (mapped_element _ _ _ _ Hvisits Hkey)) in Hcell2.
  assert (drain_view elements (DLoop elements) ptr = Todo) as Hview.
  { unfold drain_view. cbn [drain_todo].
    destruct (decide (ptr ∈ elements.*2)) as [| Hnot]; [done |].
    destruct Hnot. by apply (mapped_element _ w key). }
  rewrite Hview in Hcell1.
  destruct Hcell1 as [Hcell1 Hone1]. destruct Hcell2 as [Hcell2 Hone2].
  rewrite Hshared2 in Hcount2, Hcell2. cbn [shared] in Hcount1.
  unfold destroys in *. cbn [destroyed] in *.
  repeat split; try done; lia.
Qed.

Lemma ContextCallback_unfold V ptr v w :
  ptr ≠ 0 -> atomics w !! ptr = Some v ->
  ContextCallback V ptr w
  = destroy_or_delete V ptr v (set_atomics (<[ptr := 0]> (atomics w)) w).
Proof.
  intros Hptr Hcell. unfold ContextCallback. destruct (decide (ptr = 0)); [done |].
  unfold bind, atomic_exchange. by rewrite Hcell.
Qed.

(** On an empty atomic the callback deletes the atomic and does nothing
    else. *)
Lemma ContextCallback_empty V ptr w :
  ptr ≠ 0 -> atomics w !! ptr = Some 0 ->
  ContextCallback V ptr w = Ok tt (set_atomics (delete ptr (atomics w)) w).
Proof.
  intros Hptr Hcell. rewrite (ContextCallback_unfold V ptr 0) by done.
  rewrite destroy_or_delete_null by (done || (simpl; by rewrite lookup_insert_eq)).
  unfold set_atomics. simpl. by rewrite delete_insert_eq.
Qed.

(** On an atomic that holds a handle the callback empties the atomic and
    calls [cusparseDestroy] on the handle, whatever comes of the call. *)
Lemma ContextCallback_full V ptr v w :
  ptr ≠ 0 -> v ≠ 0 -> atomics w !! ptr = Some v ->
  let w' := world_of (ContextCallback V ptr w) in
  trace w' = trace w ++ [cusparseDestroy v] /\
  atomics w' = <[ptr := 0]> (atomics w) /\
  (is_Some (handles w !! v) -> ContextCallback V ptr w ≠ Fault w').
Proof.
  intros Hptr Hv Hcell. rewrite (ContextCallback_unfold V ptr v) by done.
  set (w1 := set_atomics _ w). simpl.
  assert (Hcalls : trace (world_of (destroy_or_delete V ptr v w1))
                   = trace w ++ [cusparseDestroy v] /\
                   atomics (world_of (destroy_or_delete V ptr v w1))
                   = <[ptr:=0]> (atomics w)).
  { unfold destroy_or_delete. destruct (decide (v ≠ 0)); [| done].
    rewrite world_of_bind. unfold CUSPARSE_ERROR_FUNC, bind, cusparse. simpl.
    destruct (bool_decide _); [| done].
    by destruct (cusparse_result V _ _). }
  split; [apply Hcalls |]. split; [apply Hcalls |].
  intros Hlive Hfault.
  destruct (destroy_or_delete_handle V ptr v w1 Hv Hlive)
    as (w2 & [Hok | [e Hthrow]] & _); congruence.
Qed.

(** X11: what [ContextCallback] does to an allocated atomic.
    It never changes the map, the deleters, the thread's context or
    another atomic.  An empty atomic is freed without a vendor call; a
    full one is emptied, not freed, and its handle is passed to exactly
    one [cusparseDestroy], whether or not that call succeeds. *)
Theorem ContextCallback_effects (V : vendor) (ptr v : N) (w : world) :
  ptr ≠ nullptr ->
  atomics w !! ptr = Some v ->
  let w' := world_of (ContextCallback V ptr w) in
  cusparse_handle_mapper_ w' = cusparse_handle_mapper_ w /\
  deleters w' = deleters w /\
  current_context w' = current_context w /\
  (forall other, other ≠ ptr -> atomics w' !! other = atomics w !! other) /\
  (v = nullptr ->
     ContextCallback V ptr w = Ok tt w' /\ trace w' = trace w /\
     handles w' = handles w /\ atomics w' !! ptr = None) /\
  (v ≠ nullptr ->
     trace w' = trace w ++ [cusparseDestroy v] /\
     atomics w' !! ptr = Some nullptr /\
     (is_Some (handles w !! v) -> ContextCallback V ptr w ≠ Fault w')).
Proof.
  intros Hptr Hcell w'.
  destruct (ContextCallback_frame V ptr w) as (Hmapper & Hdeleters & Hcontext & Hothers).
  split; [done |]. split; [done |]. split; [done |]. split; [done |]. split.
  - intros ->. unfold w'. rewrite ContextCallback_empty by done. simpl.
    by rewrite lookup_delete_eq.
  - intros Hv. destruct (ContextCallback_full V ptr v w Hptr Hv Hcell)
      as (Htrace & Hatomics & Hsafe).
    fold w' in Htrace, Hatomics, Hsafe. split; [done |]. split; [| done].
    by rewrite Hatomics, lookup_insert_eq.
Qed.

(** X12: a callback run twice on the same atomic.  The first run
    destroys the handle; the second finds the atomic empty and frees it
    without a vendor call; an element of the map that still points to it
    then makes the teardown use a freed object. *)
Theorem ContextCallback_twice (V : vendor) (ptr handle key : N) (w : world) :
  ptr ≠ nullptr -> handle ≠ nullptr ->
  atomics w !! ptr = Some handle ->
  let w1 := world_of (ContextCallback V ptr w) in
  let w2 := set_atomics (delete ptr (atomics w)) w1 in
  trace w1 = trace w ++ [cusparseDestroy handle] /\
  ContextCallback V ptr w1 = Ok tt w2 /\
  cusparse_handle_dtor_entry V (key, ptr) w2 = Fault w2.
Proof.
  intros Hptr Hhandle Hcell w1 w2.
  destruct (ContextCallback_full V ptr handle w Hptr Hhandle Hcell)
    as (Htrace & Hatomics & _).
  fold w1 in Htrace, Hatomics. split; [done |].
  assert (Hempty : atomics w1 !! ptr = Some 0) by (by rewrite Hatomics, lookup_insert_eq).
  split.
  - rewrite ContextCallback_empty by done. unfold w2.
    by rewrite Hatomics, delete_insert_eq.
  - unfold cusparse_handle_dtor_entry. simpl.
    destruct (decide (ptr ≠ 0)); [| done].
    unfold bind, atomic_exchange. unfold w2 at 1. simpl. by rewrite lookup_delete_eq.
Qed.

(** ** The scoped handler, call by call *)

Lemma CUDA_ERROR_FUNC_trace V c w :
  trace (world_of (CUDA_ERROR_FUNC V c w)) = trace w ++ [c].
Proof.
  unfold CUDA_ERROR_FUNC, bind, cuda. destruct (applies c w); [| done].
  destruct (cuda_result V w c); try done. by destruct c.
Qed.

Lemma CusparseScopedContextHandler_ctor_Ok V queue w sc w1 :
  CusparseScopedContextHandler_ctor V queue w = Ok sc w1 ->
  let desired := get_native_context (get_context queue) in
  sc = {| original_ := current_context w;
          placedContext_ := get_context queue;
          needToRecover_ := bool_decide (current_context w ≠ desired)
                            && negb (bool_decide (current_context w = 0)) |} /\
  w1 = if decide (current_context w = desired)
       then record_call cuCtxGetCurrent w
       else set_current_context desired
              (record_call (cuCtxSetCurrent desired) (record_call cuCtxGetCurrent w)).
Proof.
  intros Hctor desired. unfold CusparseScopedContextHandler_ctor in Hctor.
  apply bind_Ok_inv in Hctor as (original & wa & Hget & Hctor).
  apply CUDA_ERROR_FUNC_Ok in Hget as (_ & _ & [= <- <-]).
  simpl in Hctor. fold desired in Hctor.
  destruct (decide (current_context w ≠ desired)) as [Hne | Heq].
  - apply bind_Ok_inv in Hctor as (? & wb & Hset & [= <- <-]).
    apply CUDA_ERROR_FUNC_Ok in Hset as (_ & _ & [= <- _]).
    rewrite (bool_decide_eq_true_2 (current_context w ≠ desired)) by done.
    by destruct (decide (current_context w = desired)).
  - injection Hctor as <- <-. apply dec_stable in Heq.
    rewrite (bool_decide_eq_false_2 (current_context w ≠ desired))
      by (intros Hn; by apply Hn).
    by destruct (decide (current_context w = desired)).
Qed.

Lemma CusparseScopedContextHandler_dtor_Ok V sc w2 w3 :
  CusparseScopedContextHandler_dtor V sc w2 = Ok tt w3 ->
  w3 = if needToRecover_ sc
       then set_current_context (original_ sc)
              (record_call (cuCtxSetCurrent (original_ sc)) w2)
       else w2.
Proof.
  unfold CusparseScopedContextHandler_dtor. destruct (needToRecover_ sc).
  - intros Hdtor. apply bind_Ok_inv in Hdtor as (? & w & Hset & [= <-]).
    by apply CUDA_ERROR_FUNC_Ok in Hset as (_ & _ & [= <- _]).
  - by intros [= <-].
Qed.

(** X13: what the constructor establishes when it returns: the
    thread's context is the queue's, the handler remembers the context it
    found and the queue's context, it is marked for recovery exactly when
    it found a context that is neither null nor the queue's, it has called
    [cuCtxGetCurrent] and then [cuCtxSetCurrent] only if the contexts
    differed, and it has not touched the handles or the cache. *)
Theorem scoped_handler_ctor_post (V : vendor) (queue : sycl_queue)
    (sc : CusparseScopedContextHandler) (w w1 : world) :
  CusparseScopedContextHandler_ctor V queue w = Ok sc w1 ->
  let desired := get_native_context (get_context queue) in
  current_context w1 = desired /\
  original_ sc = current_context w /\
  placedContext_ sc = get_context queue /\
  (needToRecover_ sc = true <->
   current_context w ≠ nullptr /\ current_context w ≠ desired) /\
  trace w1 = trace w ++ cuCtxGetCurrent ::
               (if decide (current_context w = desired) then []
                else [cuCtxSetCurrent desired]) /\
  handles w1 = handles w /\ atomics w1 = atomics w /\
  cusparse_handle_mapper_ w1 = cusparse_handle_mapper_ w /\
  deleters w1 = deleters w.
Proof.
  intros Hctor desired.
  apply CusparseScopedContextHandler_ctor_Ok in Hctor as [-> ->]. fold desired.
  cbn [original_ placedContext_ needToRecover_].
  split; [by destruct (decide (current_context w = desired)) |].
  split; [done |]. split; [done |]. split.
  - rewrite andb_true_iff, negb_true_iff, bool_decide_eq_true, bool_decide_eq_false.
    tauto.
  - destruct (decide (current_context w = desired)); simpl; [done |].
    by rewrite <- app_assoc.
Qed.

(** X14: the destructor of a handler the constructor built
    makes at most one call, [cuCtxSetCurrent] on the context the
    constructor found, and only if that context is neither null nor the
    queue's; whatever the call returns, handles and cache are unchanged. *)
Theorem scoped_handler_dtor_calls (V : vendor) (queue : sycl_queue)
    (sc : CusparseScopedContextHandler) (w w1 w2 : world) :
  CusparseScopedContextHandler_ctor V queue w = Ok sc w1 ->
  let w3 := world_of (CusparseScopedContextHandler_dtor V sc w2) in
  (trace w3 = trace w2 \/
   trace w3 = trace w2 ++ [cuCtxSetCurrent (current_context w)] /\
   current_context w ≠ nullptr /\
   current_context w ≠ get_native_context (get_context queue)) /\
  handles w3 = handles w2 /\ atomics w3 = atomics w2 /\
  cusparse_handle_mapper_ w3 = cusparse_handle_mapper_ w2 /\
  deleters w3 = deleters w2.
Proof.
  intros Hctor.
  apply CusparseScopedContextHandler_ctor_Ok in Hctor as [-> _].
  unfold CusparseScopedContextHandler_dtor. cbn [original_ needToRecover_].
  destruct (bool_decide (current_context w ≠ _)) eqn:Hne; [| by split; [left |]].
  destruct (bool_decide (current_context w = 0)) eqn:Hnull; [by split; [left |] |].
  apply bool_decide_eq_true in Hne. apply bool_decide_eq_false in Hnull.
  cbn [andb negb]. rewrite world_of_bind.
  pose proof (CUDA_ERROR_FUNC_trace V (cuCtxSetCurrent (current_context w)) w2) as Htrace.
  unfold CUDA_ERROR_FUNC, bind, cuda in *. simpl in *.
  destruct (cuda_result V w2 _); simpl in *; (split; [by right |]); done.
Qed.

(** ** The host task when [f] throws, and the thread's context after it *)

Lemma scope_context V queue sc w w1 w2 w3 :
  CusparseScopedContextHandler_ctor V queue w = Ok sc w1 ->
  current_context w2 = current_context w1 ->
  CusparseScopedContextHandler_dtor V sc w2 = Ok tt w3 ->
  current_context w3 =
    if decide (current_context w = 0)
    then get_native_context (get_context queue)
    else current_context w.
Proof.
  intros Hctor Hbody Hdtor.
  apply CusparseScopedContextHandler_ctor_Ok in Hctor as [-> ->].
  apply CusparseScopedContextHandler_dtor_Ok in Hdtor as ->.
  cbn [needToRecover_ original_].
  destruct (decide (current_context w = get_native_context (get_context queue)))
    as [Heq | Hne].
  - rewrite (bool_decide_eq_false_2 (current_context w ≠ _))
      by (intros Hn; by apply Hn).
    simpl in *. rewrite Hbody. by destruct (decide (current_context w = 0)).
  - rewrite (bool_decide_eq_true_2 (current_context w ≠ _)) by done.
    destruct (decide (current_context w = 0)) as [Hnull | Hsome].
    + rewrite (bool_decide_eq_true_2 (current_context w = 0)) by done.
      simpl in *. by rewrite Hbody.
    + by rewrite (bool_decide_eq_false_2 (current_context w = 0)) by done.
Qed.

Lemma wait_stream_Ok V sc queue w w' :
  wait_stream V sc queue w = Ok tt w' ->
  w' = record_call (cuStreamSynchronize (get_stream queue)) w.
Proof.
  unfold wait_stream. intros Hwait.
  apply bind_Ok_inv in Hwait as (? & ? & Hsync & [= <-]).
  by apply CUDA_ERROR_FUNC_Ok in Hsync as (_ & _ & [= <- _]).
Qed.

(** X15: the host task when [f] throws: the exception of
    [f] is the exception of the task, the stream is not waited for, and
    the handler's destructor has still run, so that the thread is left on
    the context it had (on the queue's, if it had none). *)
Theorem host_task_internal_f_throws (V : vendor) (queue : sycl_queue)
    (f : CusparseScopedContextHandler -> M unit)
    (sc : CusparseScopedContextHandler) (w w1 w2 w3 : world) (e : exception) :
  CusparseScopedContextHandler_ctor V queue w = Ok sc w1 ->
  f sc w1 = Throw e w2 ->
  current_context w2 = current_context w1 ->
  CusparseScopedContextHandler_dtor V sc w2 = Ok tt w3 ->
  host_task_internal V queue f w = Throw e w3 /\
  count_calls (cuStreamSynchronize (get_stream queue)) (trace w3)
  = count_calls (cuStreamSynchronize (get_stream queue)) (trace w2) /\
  current_context w3 =
    if decide (current_context w = nullptr)
    then get_native_context (get_context queue)
    else current_context w.
Proof.
  intros Hctor Hf Hbody Hdtor. split; [| split].
  - unfold host_task_internal, bind at 1. rewrite Hctor.
    unfold scoped, bind. by rewrite Hf, Hdtor.
  - apply CusparseScopedContextHandler_dtor_Ok in Hdtor as ->.
    destruct (needToRecover_ sc); [| done]. simpl.
    rewrite count_calls_app, count_calls_one.
    destruct (decide (_ = _)); [done | lia].
  - by eapply scope_context.
Qed.

(** X16: the thread's context after a host task that
    returns, for an [f] that leaves the context alone: the context the
    thread had before, or the queue's if it had none. *)
Theorem host_task_internal_context (V : vendor) (queue : sycl_queue)
    (f : CusparseScopedContextHandler -> M unit) (w w' : world) :
  (forall sc w1 w2, f sc w1 = Ok tt w2 -> current_context w2 = current_context w1) ->
  host_task_internal V queue f w = Ok tt w' ->
  current_context w' =
    if decide (current_context w = nullptr)
    then get_native_context (get_context queue)
    else current_context w.
Proof.
  intros Hf Hrun. unfold host_task_internal in Hrun.
  apply bind_Ok_inv in Hrun as (sc & w1 & Hctor & Hrun).
  apply scoped_Ok_inv in Hrun as (w3 & Hbody & Hdtor).
  apply bind_Ok_inv in Hbody as ([] & w2 & Hrun & Hwait).
  apply wait_stream_Ok in Hwait as ->.
  eapply scope_context; [exact Hctor | | exact Hdtor].
  simpl. by eapply Hf.
Qed.

(** ** The synchronising macros *)

Lemma get_handle_bound V sc queue w handle w' :
  get_handle V sc queue w = Ok handle w' ->
  handles w' !! handle = Some (get_stream queue).
Proof.
  intros Hget. unfold get_handle in Hget.
  apply bind_Ok_inv in Hget as ([h |] & w1 & Hlookup & Hrest).
  - injection Hrest as <- <-.
    by apply get_handle_lookup_Some in Hlookup as (_ & Hbound & _).
  - apply get_handle_lookup_None in Hlookup as (_ & Hkey & _).
    by apply get_handle_create_Ok in Hrest as (Hbound & _).
Qed.

Lemma cuda_cuStreamSynchronize V stream w :
  exists err, cuda V (cuStreamSynchronize stream) w
              = Ok (err, 0) (record_call (cuStreamSynchronize stream) w).
Proof.
  unfold cuda. simpl. destruct (cuda_result V w _); by eexists.
Qed.

Lemma CUSPARSE_ERROR_FUNC_SYNC_unfold V name func handle w err w1 :
  func handle w = Ok err w1 ->
  CUSPARSE_ERROR_FUNC_SYNC V name func handle w =
  match err with
  | CUSPARSE_STATUS_SUCCESS =>
      match CUSPARSE_ERROR_FUNC V (cusparseGetStream handle) w1 with
      | Ok currentStreamId w2 =>
          Ok tt (record_call (cuStreamSynchronize currentStreamId) w2)
      | Throw e w2 => Throw e w2
      | Fault w2 => Fault w2
      end
  | _ => Throw (cusparse_error (name ++ " : ") err) w1
  end.
Proof.
  intros Hfunc.
  unfold CUSPARSE_ERROR_FUNC_SYNC, CUSPARSE_ERROR_FUNC_T_SYNC, bind at 1.
  rewrite Hfunc. destruct err; try done. unfold bind.
  destruct (CUSPARSE_ERROR_FUNC V (cusparseGetStream handle) w1) as [s w2 | |];
    [| done | done].
  by destruct (cuda_cuStreamSynchronize V s w2) as [e ->].
Qed.

(** X17: the outcomes of [CUSPARSE_ERROR_FUNC_SYNC]
    once the wrapped entry point has returned [err]: a failure status is
    thrown under the entry point's name, with no further call; a failing
    [cusparseGetStream] is thrown under its own name, with nothing waited
    for; otherwise the stream bound to the handle is waited for and the
    macro returns, whatever [cuStreamSynchronize] returned. *)
Theorem CUSPARSE_ERROR_FUNC_SYNC_outcomes (V : vendor) (name : string)
    (func : N -> M cusparseStatus_t) (handle bound : N) (w w1 : world)
    (err : cusparseStatus_t) :
  func handle w = Ok err w1 ->
  handles w1 !! handle = Some bound ->
  (err ≠ CUSPARSE_STATUS_SUCCESS ->
     CUSPARSE_ERROR_FUNC_SYNC V name func handle w
     = Throw (cusparse_error (name ++ " : ") err) w1) /\
  (err = CUSPARSE_STATUS_SUCCESS ->
     cusparse_result V w1 (cusparseGetStream handle) ≠ CUSPARSE_STATUS_SUCCESS ->
     CUSPARSE_ERROR_FUNC_SYNC V name func handle w
     = Throw (cusparse_error "cusparseGetStream : "
                (cusparse_result V w1 (cusparseGetStream handle)))
             (record_call (cusparseGetStream handle) w1)) /\
  (err = CUSPARSE_STATUS_SUCCESS ->
     cusparse_result V w1 (cusparseGetStream handle) = CUSPARSE_STATUS_SUCCESS ->
     CUSPARSE_ERROR_FUNC_SYNC V name func handle w
     = Ok tt (record_call (cuStreamSynchronize bound)
                (record_call (cusparseGetStream handle) w1))).
Proof.
  intros Hfunc Hbound.
  rewrite (CUSPARSE_ERROR_FUNC_SYNC_unfold V name func handle w err w1 Hfunc).
  assert (Happlies : applies (cusparseGetStream handle) w1 = true).
  { simpl. apply bool_decide_eq_true. by rewrite Hbound. }
  split; [| split].
  - intros Herr. by destruct err.
  - intros -> Hget.
    by rewrite (CUSPARSE_ERROR_FUNC_fails V _ _ _ Happlies eq_refl Hget).
  - intros -> Hget.
    destruct (CUSPARSE_ERROR_FUNC_cases V (cusparseGetStream handle) w1)
      as [[Hdead _] | [(_ & _ & ->) | (_ & Hfail & _)]]; [congruence | | done].
    simpl. by rewrite Hbound.
Qed.

(** X18: a handle from [get_handle], used through the macro by an
    entry point that succeeds and leaves the handle's stream alone: the
    stream waited for is the queue's. *)
Theorem get_handle_then_SYNC (V : vendor) (sc : CusparseScopedContextHandler)
    (queue : sycl_queue) (name : string) (func : N -> M cusparseStatus_t)
    (handle : N) (w w1 w2 : world) :
  get_handle V sc queue w = Ok handle w1 ->
  func handle w1 = Ok CUSPARSE_STATUS_SUCCESS w2 ->
  handles w2 !! handle = handles w1 !! handle ->
  cusparse_result V w2 (cusparseGetStream handle) = CUSPARSE_STATUS_SUCCESS ->
  exists w3,
    CUSPARSE_ERROR_FUNC_SYNC V name func handle w1 = Ok tt w3 /\
    trace w3 = trace w2 ++ [cusparseGetStream handle;
                            cuStreamSynchronize (get_stream queue)].
Proof.
  intros Hget Hfunc Hsame Hstatus.
  apply get_handle_bound in Hget. rewrite <- Hsame in Hget.
  rewrite (CUSPARSE_ERROR_FUNC_SYNC_unfold V name func handle w1 _ w2 Hfunc).
  destruct (CUSPARSE_ERROR_FUNC_cases V (cusparseGetStream handle) w2)
    as [[Hdead _] | [(_ & _ & ->) | (_ & Hfail & _)]]; [| | done].
  { simpl in Hdead. apply bool_decide_eq_false in Hdead. destruct Hdead.
    by rewrite Hget. }
  simpl. rewrite Hget. simpl.
  eexists. split; [done |]. simpl. by rewrite <- app_assoc.
Qed.

(** ** The rest of [cusparse_helper.hpp] *)

(** X19: [is_int64] holds exactly of the packs, of one type at least,
    all of whose types are [std::int64_t]. *)
Theorem is_int64_spec {T : Type} `{EqDecision T} (int64_t : T) (pack : list T) :
  is_int64 int64_t pack = true <->
  pack ≠ [] /\ Forall (fun t => t = int64_t) pack.
Proof.
  induction pack as [| First Next IH].
  - simpl. split; [done | by intros [[] _]].
  - cbn [is_int64]. destruct Next as [| Second Rest].
    + unfold is_same. rewrite bool_decide_eq_true. split.
      * intros <-. split; [done |]. by repeat constructor.
      * intros [_ Hall]. by apply Forall_cons in Hall as [-> _].
    + rewrite andb_true_iff, IH. unfold is_same. rewrite bool_decide_eq_true. split.
      * intros (<- & _ & Hall). split; [done |]. by constructor.
      * intros [_ Hall]. apply Forall_cons in Hall as [-> Hall]. done.
Qed.

Lemma Int64_abs_large d :
  Int64.in_range d ->
  (2 ^ 31 <= Int64.abs d)%Z <-> (2 ^ 31 <= Z.abs d)%Z /\ d ≠ Int64.min_signed.
Proof.
  intros Hd. destruct (decide (d = Int64.min_signed)) as [-> | Hmin].
  { rewrite Int64_abs_min_signed. unfold Int64.min_signed. split; [lia | tauto]. }
  unfold Int64.in_range, Int64.min_signed, Int64.max_signed in *.
  - destruct (Z.lt_ge_cases d 0).
    + rewrite Int64_abs_neg by (unfold Int64.min_signed; lia). split; [| lia].
      intros Hbig. split; [lia | done].
    + rewrite Int64_abs_nonneg by lia. split; [| lia].
      intros Hbig. split; [lia | done].
Qed.

(** X20: the check on 64-bit indices, exactly: it throws the
    overflow error when some index other than the least 64-bit integer has
    an absolute value of 2^31 or more, and returns when every index is
    below 2^31 in absolute value or is the least 64-bit integer; in both
    cases the state is unchanged. *)
Theorem Overflow_check_exact (indices : list Z) (w : world) :
  Forall Int64.in_range indices ->
  (Overflow_check indices w = Throw (runtime_error overflow_message) w <->
   Exists (fun d => (2 ^ 31 <= Z.abs d)%Z /\ d ≠ Int64.min_signed) indices) /\
  (Overflow_check indices w = Ok tt w <->
   Forall (fun d => (Z.abs d < 2 ^ 31)%Z \/ d = Int64.min_signed) indices).
Proof.
  induction 1 as [| d next Hd Hnext [IHthrow IHok]].
  - simpl. split; split; try done.
    + by intros ?%Exists_nil.
  - cbn [Overflow_check]. change (Z.shiftl 1 31) with (2 ^ 31)%Z.
    pose proof (Int64_abs_large d Hd) as Hlarge.
    rewrite Exists_cons, Forall_cons.
    destruct (Z.leb_spec (2 ^ 31) (Int64.abs d)) as [Hbig | Hsmall].
    + apply Hlarge in Hbig as Hbig'. split; split; try done.
      * by left.
      * intros [[Hlt | Hmin] _]; [lia | tauto].
    + assert (Hnot : ~ ((2 ^ 31 <= Z.abs d)%Z /\ d ≠ Int64.min_signed)).
      { intros Hbig%Hlarge. lia. }
      assert (Hfine : (Z.abs d < 2 ^ 31)%Z \/ d = Int64.min_signed).
      { destruct (decide (d = Int64.min_signed)); [by right | left].
        destruct (Z.lt_ge_cases (Z.abs d) (2 ^ 31)); [done | tauto]. }
      rewrite IHthrow, IHok. tauto.
Qed.

(** X21: in both error tables the symbolic string tells the status,
    unless it is the string for the statuses the table does not list. *)
Theorem error_map_injective :
  (forall a b : cusparseStatus_t,
     cusparse_error_map a = cusparse_error_map b ->
     a = b \/ cusparse_error_map a = "<unknown>"%string) /\
  (forall a b : CUresult,
     cuda_error_map a = cuda_error_map b ->
     a = b \/ cuda_error_map a = "<unknown>"%string).
Proof.
  split; intros a b; destruct a, b; simpl; intros Hmap;
    first [by left | by right | discriminate Hmap].
Qed.

(** ** The properties above at concrete states *)

Lemma example_w1_fresh : cache_fresh example_w1.
Proof.
  apply (get_handle_fresh vendor_ok handler_a queue_a empty_world 1).
  - apply cache_fresh_empty.
  - vm_compute. reflexivity.
Qed.

Lemma example_w2_fresh : cache_fresh example_w2.
Proof.
  apply (get_handles_fresh vendor_ok [(handler_b, queue_b)] example_w1 [2]).
  - apply example_w1_fresh.
  - vm_compute. reflexivity.
Qed.

Lemma get_handle_context V sc queue w handle w' :
  get_handle V sc queue w = Ok handle w' -> current_context w' = current_context w.
Proof.
  intros Hget. unfold get_handle in Hget.
  apply bind_Ok_inv in Hget as ([h |] & w1 & Hlookup & Hrest).
  - injection Hrest as <- <-.
    by apply get_handle_lookup_Some in Hlookup as (_ & _ & _ & _ & Hcontext & _).
  - apply get_handle_lookup_None in Hlookup as (_ & Hkey & _ & _ & _ & _ & Hcontext).
    apply get_handle_create_Ok in Hrest as (_ & _ & _ & Hcontext'); [| done].
    congruence.
Qed.

Lemma get_handle_missing_key_witness :
  trace example_w1 = [cusparseCreate; cusparseSetStream 1 3] /\
  exists ptr, cusparse_handle_mapper_ example_w1 = <[7 := ptr]> ∅ /\
              atomics example_w1 = <[ptr := 1]> ∅ /\
              deleters example_w1 = [(7, ptr)].
Proof.
  destruct (get_handle_missing_key vendor_ok handler_a queue_a empty_world example_w1 1)
    as (_ & _ & ptr & _ & _ & Htrace & _ & Hatomics & Hmapper & Hdeleters & _).
  - reflexivity.
  - vm_compute. reflexivity.
  - split; [exact Htrace |]. by exists ptr.
Defined.

Lemma get_handle_hit_exact_witness :
  example_w3
  = set_handles (<[1 := 4]> (handles example_w2))
      (record_call (cusparseSetStream 1 4)
         (record_call (cusparseGetStream 1) example_w2)).
Proof.
  apply (get_handle_hit_exact vendor_ok handler_a queue_a' example_w2 example_w3 1 1 3).
  - exists 1. repeat split; try done; vm_compute; reflexivity.
  - vm_compute. reflexivity.
  - vm_compute. reflexivity.
Defined.


Lemma get_handle_fresh_safe_witness :
  exists handle w', get_handle vendor_ok handler_b queue_b example_w1 = Ok handle w'.
Proof.
  apply (get_handle_fresh_safe vendor_ok handler_b queue_b example_w1 example_w1_fresh).
  reflexivity.
Defined.

Lemma get_handle_failure_atomic_witness :
  exists e w',
    get_handle vendor_set_stream_fails handler_a queue_a empty_world = Throw e w' /\
    atomics w' = ∅ /\ deleters w' = [].
Proof.
  eexists _, _. split; [vm_compute; reflexivity |].
  destruct (get_handle_failure_atomic vendor_set_stream_fails handler_a queue_a
              empty_world _ _ ltac:(vm_compute; reflexivity))
    as (_ & Hatomics & Hdeleters & _).
  split; [exact Hatomics | exact Hdeleters].
Defined.

Lemma get_handle_throw_cases_witness :
  exists e w',
    get_handle vendor_set_stream_fails handler_a queue_a empty_world = Throw e w' /\
    handles w' = <[1 := 0]> ∅ /\ forall ptr, atomics w' !! ptr ≠ Some 1.
Proof.
  eexists _, _. split; [vm_compute; reflexivity |].
  destruct (get_handle_throw_cases vendor_set_stream_fails handler_a queue_a
              empty_world _ _ cache_fresh_empty ltac:(vm_compute; reflexivity))
    as [(h & (p & Hp & _) & _) | [(_ & He & _) | (_ & h & err & _ & _ & _ & Hhandles & Htrace & Hcells & _)]].
  - vm_compute in Hp. discriminate Hp.
  - vm_compute in He. discriminate He.
  - assert (h = 1) as ->.
    { vm_compute in Htrace. by injection Htrace as ->. }
    split; [exact Hhandles | exact Hcells].
Defined.

Lemma get_handle_contexts_apart_witness : (2 : N) ≠ 1.
Proof.
  apply (get_handle_contexts_apart vendor_ok handler_a handler_b queue_a queue_b []
           empty_world example_w1 example_w1 example_w2 1 2 []).
  - apply cache_fresh_empty.
  - vm_compute. reflexivity.
  - reflexivity.
  - vm_compute. reflexivity.
  - discriminate.
Defined.

Lemma get_handles_one_per_context_witness :
  dom (cusparse_handle_mapper_ example_w3) = list_to_set [7; 9; 7] ∪ ∅ /\
  (count_calls cusparseCreate (trace example_w3) + 0 = 0 + 2)%nat.
Proof.
  destruct (get_handles_one_per_context vendor_ok example_requests empty_world
              example_w3 [1; 2; 1] cache_fresh_empty ltac:(vm_compute; reflexivity))
    as (Hdom & Hcount & _).
  split; [exact Hdom | exact Hcount].
Defined.

Lemma example_w2_visits : visits [(7, 1); (9, 2)] example_w2.
Proof. unfold visits. rewrite example_w2_elements. apply perm_swap. Qed.

Lemma cusparse_handle_dtor_fresh_witness :
  exists w',
    cusparse_handle_dtor vendor_ok [(7, 1); (9, 2)] example_w2 = Ok tt w' /\
    count_calls (cusparseDestroy 1) (trace w') = 1%nat /\
    atomics w' !! 1 = Some 0 /\
    count_calls (cusparseDestroy 2) (trace w') = 1%nat /\
    atomics w' !! 2 = Some 0.
Proof.
  eexists. split; [vm_compute; reflexivity |].
  destruct (cusparse_handle_dtor_fresh vendor_ok [(7, 1); (9, 2)] example_w2
              example_w2_fresh example_w2_visits)
    as [_ Hok].
  destruct (Hok _ ltac:(vm_compute; reflexivity)) as [_ Hcells].
  destruct (Hcells 7 1 1 ltac:(vm_compute; reflexivity) ltac:(vm_compute; reflexivity))
    as [Hone Hcell1].
  destruct (Hcells 9 2 2 ltac:(vm_compute; reflexivity) ltac:(vm_compute; reflexivity))
    as [Htwo Hcell2].
  split; [exact Hone |]. split; [exact Hcell1 |]. split; [exact Htwo | exact Hcell2].
Defined.

Lemma ContextCallback_then_dtor_witness :
  exists w1 w2,
    ContextCallback vendor_ok 1 example_w2 = Ok tt w1 /\
    cusparse_handle_dtor vendor_ok [(7, 1); (9, 2)] w1 = Ok tt w2 /\
    count_calls (cusparseDestroy 1) (trace w2) = 1%nat /\
    atomics w2 !! 1 = None.
Proof.
  set (w1 := world_of (ContextCallback vendor_ok 1 example_w2)).
  set (w2 := world_of (cusparse_handle_dtor vendor_ok [(7, 1); (9, 2)] w1)).
  assert (Hkey : cusparse_handle_mapper_ example_w2 !! 7 = Some 1)
    by (vm_compute; reflexivity).
  assert (Hptr : atomics example_w2 !! 1 = Some 1) by (vm_compute; reflexivity).
  assert (Hregistered : 1 ∈ (deleters example_w2).*2).
  { assert ((deleters example_w2).*2 = [2; 1]) as -> by (vm_compute; reflexivity).
    apply list_elem_of_further, list_elem_of_here. }
  assert (Hcallback : ContextCallback vendor_ok 1 example_w2 = Ok tt w1)
    by (vm_compute; reflexivity).
  assert (Hdtor : cusparse_handle_dtor vendor_ok [(7, 1); (9, 2)] w1 = Ok tt w2)
    by (vm_compute; reflexivity).
  exists w1, w2. split; [exact Hcallback |]. split; [exact Hdtor |].
  destruct (ContextCallback_then_dtor vendor_ok [(7, 1); (9, 2)] example_w2 w1 w2 7 1 1
              example_w2_fresh example_w2_visits Hkey Hptr Hregistered Hcallback Hdtor)
    as (Hfirst & _ & Hsecond & Hgone).
  split; [| exact Hgone]. rewrite Hsecond, Hfirst. vm_compute. reflexivity.
Defined.

Lemma ContextCallback_effects_witness :
  trace (world_of (ContextCallback vendor_destroy_fails 1 example_w2))
  = trace example_w2 ++ [cusparseDestroy 1] /\
  atomics (world_of (ContextCallback vendor_destroy_fails 1 example_w2)) !! 1 = Some 0.
Proof.
  destruct (ContextCallback_effects vendor_destroy_fails 1 1 example_w2)
    as (_ & _ & _ & _ & _ & Hfull).
  - discriminate.
  - vm_compute. reflexivity.
  - destruct Hfull as (Htrace & Hcell & _); [discriminate |].
    split; [exact Htrace | exact Hcell].
Defined.

Lemma ContextCallback_twice_witness :
  ContextCallback vendor_ok 1 stale_w
  = Ok tt (set_atomics (delete 1 (atomics example_w1)) stale_w) /\
  cusparse_handle_dtor_entry vendor_ok (7, 1)
    (set_atomics (delete 1 (atomics example_w1)) stale_w)
  = Fault (set_atomics (delete 1 (atomics example_w1)) stale_w).
Proof.
  destruct (ContextCallback_twice vendor_ok 1 1 7 example_w1)
    as (_ & Hsecond & Hfault).
  - discriminate.
  - discriminate.
  - vm_compute. reflexivity.
  - split; [exact Hsecond | exact Hfault].
Defined.

Lemma scoped_handler_ctor_post_witness :
  current_context scoped_w1 = 7 /\ needToRecover_ scoped_sc = true /\
  trace scoped_w1 = [cuCtxGetCurrent; cuCtxSetCurrent 7].
Proof.
  destruct (scoped_handler_ctor_post vendor_ok queue_a scoped_sc busy_world scoped_w1)
    as (Hcontext & _ & _ & Hrecover & Htrace & _).
  - vm_compute. reflexivity.
  - split; [exact Hcontext |]. split; [| exact Htrace].
    apply Hrecover. split; discriminate.
Defined.

Lemma scoped_handler_dtor_calls_witness :
  atomics scoped_w3 = atomics scoped_w2 /\
  cusparse_handle_mapper_ scoped_w3 = cusparse_handle_mapper_ scoped_w2.
Proof.
  destruct (scoped_handler_dtor_calls vendor_ok queue_a scoped_sc busy_world
              scoped_w1 scoped_w2) as (_ & _ & Hatomics & Hmapper & _).
  - vm_compute. reflexivity.
  - split; [exact Hatomics | exact Hmapper].
Defined.

Lemma host_task_internal_f_throws_witness :
  exists w3,
    host_task_internal vendor_ok queue_a
      (fun sc => _ <- get_handle vendor_set_stream_fails sc queue_a; ret tt) busy_world
    = Throw (cusparse_error "cusparseSetStream : " CUSPARSE_STATUS_EXECUTION_FAILED) w3 /\
    current_context w3 = 5 /\
    count_calls (cuStreamSynchronize 3) (trace w3) = 0%nat.
Proof.
  set (f := fun sc => _ <- get_handle vendor_set_stream_fails sc queue_a; ret tt).
  set (w2 := world_of (f scoped_sc scoped_w1)).
  set (w3 := world_of (CusparseScopedContextHandler_dtor vendor_ok scoped_sc w2)).
  assert (Hctor : CusparseScopedContextHandler_ctor vendor_ok queue_a busy_world
                  = Ok scoped_sc scoped_w1) by (vm_compute; reflexivity).
  assert (Hf : f scoped_sc scoped_w1
               = Throw (cusparse_error "cusparseSetStream : "
                          CUSPARSE_STATUS_EXECUTION_FAILED) w2)
    by (vm_compute; reflexivity).
  assert (Hbody : current_context w2 = current_context scoped_w1)
    by (vm_compute; reflexivity).
  assert (Hdtor : CusparseScopedContextHandler_dtor vendor_ok scoped_sc w2 = Ok tt w3)
    by (vm_compute; reflexivity).
  destruct (host_task_internal_f_throws vendor_ok queue_a f scoped_sc busy_world
              scoped_w1 w2 w3 _ Hctor Hf Hbody Hdtor) as (Hrun & Hsync & Hcontext).
  exists w3. split; [exact Hrun |]. split; [exact Hcontext |].
  change (cuStreamSynchronize 3) with (cuStreamSynchronize (get_stream queue_a)).
  rewrite Hsync. vm_compute. reflexivity.
Defined.

Lemma host_task_internal_context_witness :
  current_context
    (world_of (host_task_internal vendor_ok queue_a
                 (fun sc => _ <- get_handle vendor_ok sc queue_a; ret tt) busy_world))
  = 5.
Proof.
  apply (host_task_internal_context vendor_ok queue_a
           (fun sc => _ <- get_handle vendor_ok sc queue_a; ret tt) busy_world).
  - intros sc w1 w2 Hf. apply bind_Ok_inv in Hf as (h & w & Hget & [= <-]).
    by eapply get_handle_context.
  - vm_compute. reflexivity.
Defined.

Lemma CUSPARSE_ERROR_FUNC_SYNC_outcomes_witness :
  CUSPARSE_ERROR_FUNC_SYNC vendor_sync_fails "cusparseSpMV" entry_point_ok 1 example_w1
  = Ok tt (record_call (cuStreamSynchronize 3)
             (record_call (cusparseGetStream 1) example_w1)) /\
  CUSPARSE_ERROR_FUNC_SYNC vendor_ok "cusparseSpMV" entry_point_fails 1 example_w1
  = Throw (cusparse_error "cusparseSpMV : " CUSPARSE_STATUS_EXECUTION_FAILED) example_w1.
Proof.
  assert (Hbound : handles example_w1 !! 1 = Some 3) by (vm_compute; reflexivity).
  split.
  - destruct (CUSPARSE_ERROR_FUNC_SYNC_outcomes vendor_sync_fails "cusparseSpMV"
                entry_point_ok 1 3 example_w1 example_w1 CUSPARSE_STATUS_SUCCESS
                eq_refl Hbound) as (_ & _ & Hok).
    apply Hok; reflexivity.
  - destruct (CUSPARSE_ERROR_FUNC_SYNC_outcomes vendor_ok "cusparseSpMV"
                entry_point_fails 1 3 example_w1 example_w1
                CUSPARSE_STATUS_EXECUTION_FAILED eq_refl Hbound) as (Hthrow & _).
    apply Hthrow. discriminate.
Defined.

Lemma get_handle_then_SYNC_witness :
  exists w3,
    CUSPARSE_ERROR_FUNC_SYNC vendor_sync_fails "cusparseSpMV" entry_point_ok 1 example_w1
    = Ok tt w3 /\
    trace w3 = trace example_w1 ++ [cusparseGetStream 1; cuStreamSynchronize 3].
Proof.
  assert (Hget : get_handle vendor_sync_fails handler_a queue_a empty_world
                 = Ok 1 example_w1) by (vm_compute; reflexivity).
  exact (get_handle_then_SYNC vendor_sync_fails handler_a queue_a "cusparseSpMV"
           entry_point_ok 1 empty_world example_w1 example_w1
           Hget eq_refl eq_refl eq_refl).
Defined.

Lemma Overflow_check_exact_witness :
  Overflow_check [5; - 2 ^ 31]%Z empty_world
  = Throw (runtime_error overflow_message) empty_world /\
  Overflow_check [5; - 2 ^ 31 + 1; Int64.min_signed]%Z empty_world = Ok tt empty_world.
Proof.
  split.
  - assert (Hrange : Forall Int64.in_range [5; - 2 ^ 31]%Z).
    { repeat apply Forall_cons_2; [| | apply Forall_nil_2];
        unfold Int64.in_range, Int64.min_signed, Int64.max_signed; lia. }
    destruct (Overflow_check_exact [5; - 2 ^ 31]%Z empty_world Hrange) as [[_ Hthrow] _].
    apply Hthrow, Exists_cons_tl, Exists_cons_hd. split; [lia | discriminate].
  - assert (Hrange : Forall Int64.in_range [5; - 2 ^ 31 + 1; Int64.min_signed]%Z).
    { repeat apply Forall_cons_2; [| | | apply Forall_nil_2];
        unfold Int64.in_range, Int64.min_signed, Int64.max_signed; lia. }
    destruct (Overflow_check_exact [5; - 2 ^ 31 + 1; Int64.min_signed]%Z empty_world
                Hrange) as [_ [_ Hok]].
    apply Hok. repeat apply Forall_cons_2; [| | | apply Forall_nil_2].
    + left. lia.
    + left. lia.
    + by right.
Defined.
